(* Shallow embedding of the VP8L (WebP lossless) decoder of
   src/loaders/webp/dec/vp8l.cpp and proofs of its specified behaviour.

   Integers are Z; C unsigned wrap-around is written out with [u32]/[u64].
   Memory is a function from addresses to values: the 32-bit raster and
   other uint32_t arrays are word addressed (one address per uint32_t, so
   that the byte address of word [a] is [4*a]); byte arrays are byte
   addressed.  Multi-byte loads and stores are little-endian. *)

From Stdlib Require Import ZArith Lia List Bool.
Import ListNotations.
Open Scope Z_scope.

(* ------------------------------------------------------------------------ *)
(** * Machine integers and memories *)

Definition u32 (x : Z) : Z := Z.land x (Z.ones 32).
Definition u64 (x : Z) : Z := Z.land x (Z.ones 64).

(** A memory: address to stored value. *)
Definition mem := Z -> Z.

Definition upd (m : mem) (a v : Z) : mem :=
  fun p => if Z.eqb p a then v else m p.

(* ------------------------------------------------------------------------ *)
(** * The bit reader interface

    VP8LBitReader lives in utils/bit_reader; vp8l.cpp only uses it through
    these operations, so the decoder is embedded over any implementation. *)

Class VP8LBitReader (BR : Type) := {
  VP8LPrefetchBits : BR -> Z;
  VP8LSetBitPos : BR -> Z -> BR;
  bit_pos_ : BR -> Z;
  VP8LReadBits : BR -> Z -> Z * BR;
  VP8LFillBitWindow : BR -> BR;
  eos_ : BR -> bool;
  (** VP8LReadBits returns a uint32_t. *)
  VP8LReadBits_unsigned : forall br n, 0 <= fst (VP8LReadBits br n)
}.

(** Modelled from the spec: VP8LBitReader (utils/bit_reader, not in this
    file).  The input is read least-significant bit first; [read n] returns
    the next [n] bits, and once the cursor is past the last byte of the
    buffer the monotonic [eos] flag is set and reads return 0. *)
Record LBitReader := mkLBR { lbr_buf : list Z; lbr_pos : Z; lbr_eos : bool }.

Definition stream_bit (buf : list Z) (k : Z) : Z :=
  if Z.testbit (nth (Z.to_nat (k / 8)) buf 0) (k mod 8) then 1 else 0.

Fixpoint bits_from (buf : list Z) (k : Z) (n : nat) : Z :=
  match n with
  | O => 0
  | S n' => stream_bit buf k + 2 * bits_from buf (k + 1) n'
  end.

Definition lbr_set_bit_pos (br : LBitReader) (p : Z) : LBitReader :=
  mkLBR (lbr_buf br) p
        (lbr_eos br || (8 * Z.of_nat (length (lbr_buf br)) <? p)).

Definition lbr_read_bits (br : LBitReader) (n : Z) : Z * LBitReader :=
  if lbr_eos br || (24 <? n) then (0, mkLBR (lbr_buf br) (lbr_pos br) true)
  else let br' := lbr_set_bit_pos br (lbr_pos br + n) in
       if lbr_eos br' then (0, br')
       else (bits_from (lbr_buf br) (lbr_pos br) (Z.to_nat n), br').

Lemma bits_from_nonneg : forall buf k n, 0 <= bits_from buf k n.
Proof.
  intros buf k n. revert k. induction n as [|n IH]; intros k; cbn [bits_from]; [lia|].
  specialize (IH (k + 1)).
  assert (0 <= stream_bit buf k) by (unfold stream_bit; destruct (Z.testbit _ _); lia).
  lia.
Qed.

Lemma lbr_read_bits_unsigned : forall br n, 0 <= fst (lbr_read_bits br n).
Proof.
  intros br n. unfold lbr_read_bits.
  destruct (lbr_eos br || (24 <? n)); [simpl; lia|].
  destruct (lbr_eos (lbr_set_bit_pos br (lbr_pos br + n))); simpl;
    [lia|apply bits_from_nonneg].
Qed.

#[export] Instance LBitReader_ops : VP8LBitReader LBitReader := {
  VP8LPrefetchBits := fun br => bits_from (lbr_buf br) (lbr_pos br) 32;
  VP8LSetBitPos := lbr_set_bit_pos;
  bit_pos_ := lbr_pos;
  VP8LReadBits := lbr_read_bits;
  VP8LFillBitWindow := fun br => br;
  eos_ := lbr_eos;
  VP8LReadBits_unsigned := lbr_read_bits_unsigned
}.

Definition lbr_init (buf : list Z) : LBitReader := mkLBR buf 0 false.

(* ------------------------------------------------------------------------ *)
(** * Prefix-coded lengths and distances: GetCopyDistance, GetCopyLength *)

Section CopyPrefix.
Context {BR : Type} `{VP8LBitReader BR}.

Definition GetCopyDistance (distance_symbol : Z) (br : BR) : Z * BR :=
  if distance_symbol <? 4 then (distance_symbol + 1, br)
  else
    let extra_bits := Z.shiftr (distance_symbol - 2) 1 in
    let offset := Z.shiftl (2 + Z.land distance_symbol 1) extra_bits in
    let (v, br') := VP8LReadBits br extra_bits in
    (offset + v + 1, br').

(** Length and distance prefixes are encoded the same way. *)
Definition GetCopyLength (length_symbol : Z) (br : BR) : Z * BR :=
  GetCopyDistance length_symbol br.

End CopyPrefix.

(* ------------------------------------------------------------------------ *)
(** * 2-D distance codes: kCodeToPlane and PlaneCodeToDistance *)

Definition CODE_TO_PLANE_CODES : Z := 120.

Definition kCodeToPlane : list Z := [
  0x18; 0x07; 0x17; 0x19; 0x28; 0x06; 0x27; 0x29; 0x16; 0x1a;
  0x26; 0x2a; 0x38; 0x05; 0x37; 0x39; 0x15; 0x1b; 0x36; 0x3a;
  0x25; 0x2b; 0x48; 0x04; 0x47; 0x49; 0x14; 0x1c; 0x35; 0x3b;
  0x46; 0x4a; 0x24; 0x2c; 0x58; 0x45; 0x4b; 0x34; 0x3c; 0x03;
  0x57; 0x59; 0x13; 0x1d; 0x56; 0x5a; 0x23; 0x2d; 0x44; 0x4c;
  0x55; 0x5b; 0x33; 0x3d; 0x68; 0x02; 0x67; 0x69; 0x12; 0x1e;
  0x66; 0x6a; 0x22; 0x2e; 0x54; 0x5c; 0x43; 0x4d; 0x65; 0x6b;
  0x32; 0x3e; 0x78; 0x01; 0x77; 0x79; 0x53; 0x5d; 0x11; 0x1f;
  0x64; 0x6c; 0x42; 0x4e; 0x76; 0x7a; 0x21; 0x2f; 0x75; 0x7b;
  0x31; 0x3f; 0x63; 0x6d; 0x52; 0x5e; 0x00; 0x74; 0x7c; 0x41;
  0x4f; 0x10; 0x20; 0x62; 0x6e; 0x30; 0x73; 0x7d; 0x51; 0x5f;
  0x40; 0x72; 0x7e; 0x61; 0x6f; 0x50; 0x71; 0x7f; 0x60; 0x70 ].

Definition PlaneCodeToDistance (xsize plane_code : Z) : Z :=
  if CODE_TO_PLANE_CODES <? plane_code then plane_code - CODE_TO_PLANE_CODES
  else
    let dist_code := nth (Z.to_nat (plane_code - 1)) kCodeToPlane 0 in
    let yoffset := Z.shiftr dist_code 4 in
    let xoffset := 8 - Z.land dist_code 0xf in
    let dist := yoffset * xsize + xoffset in
    if 1 <=? dist then dist else 1.

(* ------------------------------------------------------------------------ *)
(** * Colour-indexing transform: ReadTransform's packing and ExpandColorMap *)

(** The packing chosen by ReadTransform for COLOR_INDEXING_TRANSFORM. *)
Definition color_indexing_bits (num_colors : Z) : Z :=
  if 16 <? num_colors then 0
  else if 4 <? num_colors then 1
  else if 2 <? num_colors then 2
  else 3.

Definition final_num_colors (bits : Z) : Z := Z.shiftl 1 (Z.shiftr 8 bits).

(** Byte [i] of a uint32_t array viewed as uint8_t* (little-endian). *)
Definition byte_of_words (ws : mem) (i : Z) : Z :=
  Z.land (Z.shiftr (ws (i / 4)) (8 * (i mod 4))) 0xff.

(** Word [k] of a byte array viewed as uint32_t* (little-endian). *)
Definition word_of_bytes (bs : mem) (k : Z) : Z :=
  bs (4 * k) + 256 * (bs (4 * k + 1) + 256 * (bs (4 * k + 2)
  + 256 * bs (4 * k + 3))).

(** Storing a uint32_t at word [k] of a byte array. *)
Definition store_word_bytes (bs : mem) (k w : Z) : mem :=
  upd (upd (upd (upd bs (4 * k) (Z.land w 0xff))
                (4 * k + 1) (Z.land (Z.shiftr w 8) 0xff))
           (4 * k + 2) (Z.land (Z.shiftr w 16) 0xff))
      (4 * k + 3) (Z.land (Z.shiftr w 24) 0xff).

(** [for (i = 4; i < 4 * num_colors; ++i)
       new_data[i] = (data[i] + new_data[i - 4]) & 0xff;] *)
Fixpoint expand_accumulate (data : mem) (new_data : mem) (i : Z) (n : nat)
  : mem :=
  match n with
  | O => new_data
  | S n' =>
      expand_accumulate data
        (upd new_data i (Z.land (byte_of_words data i + new_data (i - 4)) 0xff))
        (i + 1) n'
  end.

(** [for (; i < 4 * final_num_colors; ++i) new_data[i] = 0;] *)
Fixpoint expand_black_tail (new_data : mem) (i : Z) (n : nat) : mem :=
  match n with
  | O => new_data
  | S n' => expand_black_tail (upd new_data i 0) (i + 1) n'
  end.

(** ExpandColorMap on the success path (the allocation succeeded).
    [data] is transform->data_ (the decoded num_colors x 1 palette image),
    [fresh] the uninitialised contents of the new allocation.  The result
    is the byte contents of new_color_map. *)
Definition ExpandColorMap (num_colors bits : Z) (data fresh : mem) : mem :=
  let final := final_num_colors bits in
  let nd0 := store_word_bytes fresh 0 (data 0) in
  let i0 := 4 in
  let n1 := Z.to_nat (4 * num_colors - i0) in
  let nd1 := expand_accumulate data nd0 i0 n1 in
  let i1 := Z.max i0 (4 * num_colors) in
  expand_black_tail nd1 i1 (Z.to_nat (4 * final - i1)).

(** Modelled from the spec: the colour-indexing inverse transform
    (VP8LColorIndexInverseTransform, dsp/lossless, not in this file).  With
    [bits > 0] a green byte packs [1 << bits] indices of [8 >> bits] bits
    each; with [bits = 0] the index is the whole green byte of the pixel. *)
Definition color_index_of (bits packed j : Z) : Z :=
  if bits =? 0 then Z.land (Z.shiftr packed 8) 0xff
  else
    let bits_per_pixel := Z.shiftr 8 bits in
    let bit_mask := Z.shiftl 1 bits_per_pixel - 1 in
    Z.land (Z.shiftr (Z.land (Z.shiftr packed 8) 0xff) (j * bits_per_pixel))
           bit_mask.

(* ------------------------------------------------------------------------ *)
(** * The LZ77 copy engine: CopyBlock32b and CopyBlock8b *)

(** Little-endian layout of a uint64_t over two uint32_t words and of a
    uint32_t over four bytes. *)
Definition load64 (m : mem) (a : Z) : Z := m a + m (a + 1) * 2 ^ 32.

Definition store64 (m : mem) (a w : Z) : mem :=
  upd (upd m a (w mod 2 ^ 32)) (a + 1) ((w / 2 ^ 32) mod 2 ^ 32).

Definition load32_bytes (m : mem) (a : Z) : Z :=
  m a + 256 * (m (a + 1) + 256 * (m (a + 2) + 256 * m (a + 3))).

Definition store32_bytes (m : mem) (a w : Z) : mem :=
  upd (upd (upd (upd m a (w mod 256))
                (a + 1) ((w / 256) mod 256))
           (a + 2) ((w / 256 / 256) mod 256))
      (a + 3) ((w / 256 / 256 / 256) mod 256).

(** memcpy of [n] elements between non-overlapping regions. *)
Definition memcpy_elems (m : mem) (dst src n : Z) : mem :=
  fun p => if (dst <=? p) && (p <? dst + n) then m (src + (p - dst)) else m p.

(** [for (i = 0; i < n; ++i) dst[i] = src[i];] executed element by element,
    so that an overlapping source reads the values just written. *)
Fixpoint copy_elems (m : mem) (dst src : Z) (n : nat) : mem :=
  match n with
  | O => m
  | S n' => copy_elems (upd m dst (m src)) (dst + 1) (src + 1) n'
  end.

(** [for (i = 0; i < n; ++i) ((uint64_t* )dst)[i] = pattern;] *)
Fixpoint store_pattern64 (m : mem) (dst pattern : Z) (n : nat) : mem :=
  match n with
  | O => m
  | S n' => store_pattern64 (store64 m dst pattern) (dst + 2) pattern n'
  end.

(** CopySmallPattern32b, over word addresses: the byte address of the
    uint32_t at [dst] is [4 * dst]. *)
Definition CopySmallPattern32b (m : mem) (src dst length pattern : Z) : mem :=
  let '(m, src, dst, length, pattern) :=
    if negb (Z.land (4 * dst) 4 =? 0) then
      (upd m dst (m src), src + 1, dst + 1, length - 1,
       u64 (Z.lor (Z.shiftr pattern 32) (Z.shiftl pattern 32)))
    else (m, src, dst, length, pattern) in
  let i := Z.shiftr length 1 in
  let m := store_pattern64 m dst pattern (Z.to_nat i) in
  if negb (Z.land length 1 =? 0)
  then upd m (dst + Z.shiftl i 1) (m (src + Z.shiftl i 1))
  else m.

Definition CopyBlock32b (m : mem) (dst dist length : Z) : mem :=
  let src := dst - dist in
  if (dist <=? 2) && (4 <=? length) && (Z.land (4 * dst) 3 =? 0) then
    let pattern :=
      if dist =? 1 then
        let pattern := m src in
        u64 (Z.lor pattern (Z.shiftl pattern 32))
      else load64 m src in
    CopySmallPattern32b m src dst length pattern
  else if length <=? dist then memcpy_elems m dst src length
  else copy_elems m dst src (Z.to_nat length).

(** Rotate8b, little-endian build. *)
Definition Rotate8b (V : Z) : Z :=
  Z.lor (Z.shiftl (Z.land V 0xff) 24) (Z.shiftr V 8).

(** [while ((uintptr_t)dst & 3) { *dst++ = *src++;
      pattern = Rotate8b(pattern); --length; }]  -- at most three rounds. *)
Fixpoint align_pattern8b (fuel : nat) (m : mem) (src dst length pattern : Z)
  : mem * Z * Z * Z * Z :=
  match fuel with
  | O => (m, src, dst, length, pattern)
  | S fuel' =>
      if Z.land dst 3 =? 0 then (m, src, dst, length, pattern)
      else align_pattern8b fuel' (upd m dst (m src)) (src + 1) (dst + 1)
             (length - 1) (Rotate8b pattern)
  end.

(** [for (i = 0; i < n; ++i) ((uint32_t* )dst)[i] = pattern;] *)
Fixpoint store_pattern32 (m : mem) (dst pattern : Z) (n : nat) : mem :=
  match n with
  | O => m
  | S n' => store_pattern32 (store32_bytes m dst pattern) (dst + 4) pattern n'
  end.

Definition CopySmallPattern8b (m : mem) (src dst length pattern : Z) : mem :=
  let '(m, src, dst, length, pattern) :=
    align_pattern8b 4 m src dst length pattern in
  let i := Z.shiftr length 2 in
  let m := store_pattern32 m dst pattern (Z.to_nat i) in
  let i := Z.shiftl i 2 in
  copy_elems m (dst + i) (src + i) (Z.to_nat (length - i)).

Definition CopyBlock8b (m : mem) (dst dist length : Z) : mem :=
  let src := dst - dist in
  let copy :=
    if length <=? dist then memcpy_elems m dst src length
    else copy_elems m dst src (Z.to_nat length) in
  if 8 <=? length then
    if dist =? 1 then
      CopySmallPattern8b m src dst length (u32 (0x01010101 * m src))
    else if dist =? 2 then
      let pattern := m src + 256 * m (src + 1) in
      CopySmallPattern8b m src dst length (u32 (0x00010001 * pattern))
    else if dist =? 4 then
      CopySmallPattern8b m src dst length (load32_bytes m src)
    else copy
  else copy.

(** A uint64_t holding two uint32_t words, and a uint32_t holding four
    bytes, in little-endian order. *)
Definition pat2 (a b : Z) : Z := a + b * 2 ^ 32.

Definition pat4 (b0 b1 b2 b3 : Z) : Z := b0 + 256 * (b1 + 256 * (b2 + 256 * b3)).

Definition is_byte (b : Z) : Prop := 0 <= b < 256.

(** The run-length shape of a back-reference copy: below [d] the memory is
    unchanged, and in [[d, q)] it repeats the [D] values before [d]. *)
Definition copied_run (old m : mem) (d D q : Z) : Prop :=
  (forall p, p < d -> m p = old p) /\
  (forall p, d <= p < q -> m p = old (d - D + (p - d) mod D)).

(** The source value due at word/byte [q + j] in that run. *)
Definition run_value (old : mem) (d D q j : Z) : Z :=
  old (d - D + (q + j - d) mod D).

(* ------------------------------------------------------------------------ *)
(** * Status codes and header constants *)

Inductive VP8StatusCode :=
  | VP8_STATUS_OK
  | VP8_STATUS_OUT_OF_MEMORY
  | VP8_STATUS_INVALID_PARAM
  | VP8_STATUS_BITSTREAM_ERROR
  | VP8_STATUS_UNSUPPORTED_FEATURE
  | VP8_STATUS_SUSPENDED
  | VP8_STATUS_USER_ABORT
  | VP8_STATUS_NOT_ENOUGH_DATA.

(** Modelled from the spec: constants of utils/huffman.h and
    format_constants.h, which are not in this file. *)
Definition HUFFMAN_TABLE_BITS : Z := 8.
Definition HUFFMAN_TABLE_MASK : Z := Z.shiftl 1 HUFFMAN_TABLE_BITS - 1.
Definition NUM_LITERAL_CODES : Z := 256.
Definition NUM_LENGTH_CODES : Z := 24.
Definition MAX_CACHE_BITS : Z := 11.

Definition NUM_ARGB_CACHE_ROWS : Z := 16.
Definition SYNC_EVERY_N_ROWS : Z := 8.

(* ------------------------------------------------------------------------ *)
(** * Huffman tables, HTreeGroup and ReadSymbol *)

Record HuffmanCode := mkHuffmanCode { bits : Z; value : Z }.

(** A [const HuffmanCode*]: entries addressed relative to the pointer. *)
Definition HuffmanTable := Z -> HuffmanCode.

Inductive HuffIndex := GREEN | RED | BLUE | ALPHA | DIST.

Record HTreeGroup := mkHTreeGroup {
  htrees : HuffIndex -> HuffmanTable;
  is_trivial_literal : bool;
  literal_arb : Z
}.

Definition kLiteralMap (j : HuffIndex) : Z :=
  match j with GREEN => 0 | RED => 1 | BLUE => 1 | ALPHA => 1 | DIST => 0 end.

(** [for (j = 0; j < HUFFMAN_CODES_PER_META_CODE; ++j)] *)
Definition HuffIndices : list HuffIndex := [GREEN; RED; BLUE; ALPHA; DIST].

(** The part of ReadHuffmanCodes that fills one HTreeGroup, once
    ReadHuffmanCode has built its five tables ([tables j] is the table
    stored at [htrees[j]]).  literal_arb is left untouched by the source
    when the group is not trivial; it is 0 here. *)
Definition BuildHTreeGroup (tables : HuffIndex -> HuffmanTable) : HTreeGroup :=
  let is_trivial_literal :=
    fold_left (fun t j =>
                 if t && (kLiteralMap j =? 1) then bits (tables j 0) =? 0 else t)
              HuffIndices true in
  let literal_arb :=
    if is_trivial_literal then
      let red := value (tables RED 0) in
      let blue := value (tables BLUE 0) in
      let alpha := value (tables ALPHA 0) in
      u32 (Z.lor (Z.lor (Z.shiftl alpha 24) (Z.shiftl red 16)) blue)
    else 0 in
  mkHTreeGroup tables is_trivial_literal literal_arb.

Section Symbols.
Context {BR : Type} `{VP8LBitReader BR}.

Definition ReadSymbol (table : HuffmanTable) (br : BR) : Z * BR :=
  let val := VP8LPrefetchBits br in
  let off := Z.land val HUFFMAN_TABLE_MASK in
  let nbits := bits (table off) - HUFFMAN_TABLE_BITS in
  let '(off, br) :=
    if 0 <? nbits then
      let br := VP8LSetBitPos br (bit_pos_ br + HUFFMAN_TABLE_BITS) in
      let val := VP8LPrefetchBits br in
      let off := off + value (table off) in
      (off + Z.land val (Z.shiftl 1 nbits - 1), br)
    else (off, br) in
  (value (table off), VP8LSetBitPos br (bit_pos_ br + bits (table off))).

(** The literal branch of DecodeImageData: the pixel, or [None] when the
    end of the stream was hit ([if (br->eos_) break;]). *)
Definition DecodeLiteral (g : HTreeGroup) (code : Z) (br : BR)
  : option Z * BR :=
  if is_trivial_literal g then
    (Some (u32 (Z.lor (literal_arb g) (Z.shiftl code 8))), br)
  else
    let '(red, br) := ReadSymbol (htrees g RED) br in
    let br := VP8LFillBitWindow br in
    let '(blue, br) := ReadSymbol (htrees g BLUE) br in
    let '(alpha, br) := ReadSymbol (htrees g ALPHA) br in
    if eos_ br then (None, br)
    else (Some (u32 (Z.lor (Z.lor (Z.lor (Z.shiftl alpha 24) (Z.shiftl red 16))
                                  (Z.shiftl code 8)) blue)), br).

End Symbols.

(* ------------------------------------------------------------------------ *)
(** * Meta-Huffman codes: the first part of ReadHuffmanCodes *)

(** [for (i = 0; i < huffman_pixs; ++i) {
       const int group = (huffman_image[i] >> 8) & 0xffff;
       huffman_image[i] = group;
       if (group >= num_htree_groups) num_htree_groups = group + 1; }]
    returning [num_htree_groups] and the rewritten image. *)
Fixpoint huffman_image_groups (num_htree_groups : Z) (huffman_image : mem)
    (i : Z) (n : nat) : Z * mem :=
  match n with
  | O => (num_htree_groups, huffman_image)
  | S n' =>
      let group := Z.land (Z.shiftr (huffman_image i) 8) 0xffff in
      let huffman_image := upd huffman_image i group in
      let num_htree_groups :=
        if num_htree_groups <=? group then group + 1 else num_htree_groups in
      huffman_image_groups num_htree_groups huffman_image (i + 1) n'
  end.

Section MetaCodes.
Context {BR : Type} `{VP8LBitReader BR}.
(** VP8LSubSampleSize (utils) and the recursive DecodeImageStream call,
    which decodes the sub-image from the bit reader or fails. *)
Variable VP8LSubSampleSize : Z -> Z -> Z.
Variable DecodeSubImage : Z -> Z -> BR -> option (mem * BR).

(** ReadHuffmanCodes up to [if (br->eos_) goto Error;]: on success the
    number of groups, the group-index image, the subsample bits and the
    bit reader. *)
Definition ReadHuffmanCodesMeta (xsize ysize : Z) (allow_recursion : bool)
    (br : BR) : option (Z * mem * Z * BR) :=
  let num_htree_groups := 1 in
  let '(use_meta, br) :=
    if allow_recursion then VP8LReadBits br 1 else (0, br) in
  let res :=
    if allow_recursion && negb (use_meta =? 0) then
      let '(p, br) := VP8LReadBits br 3 in
      let huffman_precision := p + 2 in
      let huffman_xsize := VP8LSubSampleSize xsize huffman_precision in
      let huffman_ysize := VP8LSubSampleSize ysize huffman_precision in
      let huffman_pixs := huffman_xsize * huffman_ysize in
      match DecodeSubImage huffman_xsize huffman_ysize br with
      | None => None
      | Some (huffman_image, br) =>
          let '(num_htree_groups, huffman_image) :=
            huffman_image_groups num_htree_groups huffman_image 0
              (Z.to_nat huffman_pixs) in
          Some (num_htree_groups, huffman_image, huffman_precision, br)
      end
    else Some (num_htree_groups, (fun _ => 0), 0, br) in
  match res with
  | None => None
  | Some (n, img, prec, br) => if eos_ br then None else Some (n, img, prec, br)
  end.

End MetaCodes.

(** The largest of [m] and [f i] for [i] in [[i, i + n)]. *)
Fixpoint max_over (f : Z -> Z) (m i : Z) (n : nat) : Z :=
  match n with
  | O => m
  | S n' => max_over f (Z.max m (f i)) (i + 1) n'
  end.

(** The meta-Huffman group index the spec reads from a pixel: its high 16
    bits. *)
Definition spec_group_index (pixel : Z) : Z := Z.shiftr (u32 pixel) 16.

(* ------------------------------------------------------------------------ *)
(** * Decoder state *)

(** The colour cache of utils/color_cache, used through these operations. *)
Class VP8LColorCache (CC : Type) := {
  VP8LColorCacheInsert : CC -> Z -> CC;
  VP8LColorCacheLookup : CC -> Z -> Z
}.

(** A colour cache that records the inserted colours in insertion order;
    key [k] looks up the [k]-th recorded colour.  It makes the insertions
    performed by the decoder observable. *)
#[export] Instance InsertLog_cache : VP8LColorCache (list Z) := {
  VP8LColorCacheInsert := fun cc c => cc ++ [c];
  VP8LColorCacheLookup := fun cc key => nth (Z.to_nat key) cc 0
}.

Record VP8LMetadata := mkVP8LMetadata {
  color_cache_size_ : Z;
  huffman_image_ : mem;
  huffman_xsize_ : Z;
  huffman_subsample_bits_ : Z;
  huffman_mask_ : Z;
  htree_groups_ : Z -> HTreeGroup
}.

(** A trace of the decoder's observable actions, most recent first:
    the [process_func] calls and the checkpoints written by SaveState
    (with the row, the pixel position, the bit reader and the cache they
    captured). *)
Inductive DecodeEvent (BR CC : Type) :=
  | ProcessRows (row : Z)
  | SavedState (row pos : Z) (br : BR) (cache : CC).
Arguments ProcessRows {BR CC} row.
Arguments SavedState {BR CC} row pos br cache.

(** The fields of VP8LDecoder that DecodeImageData reads or writes; [data_]
    is the pixel buffer [data] points into, [events_] the trace. *)
Record VP8LDecoder (BR CC : Type) := mkVP8LDecoder {
  status_ : VP8StatusCode;
  br_ : BR;
  saved_br_ : BR;
  last_pixel_ : Z;
  saved_last_pixel_ : Z;
  color_cache_ : CC;
  saved_color_cache_ : CC;
  incremental_ : bool;
  data_ : mem;
  events_ : list (DecodeEvent BR CC)
}.
Arguments mkVP8LDecoder {BR CC}.
Arguments status_ {BR CC}.
Arguments br_ {BR CC}.
Arguments saved_br_ {BR CC}.
Arguments last_pixel_ {BR CC}.
Arguments saved_last_pixel_ {BR CC}.
Arguments color_cache_ {BR CC}.
Arguments saved_color_cache_ {BR CC}.
Arguments incremental_ {BR CC}.
Arguments data_ {BR CC}.
Arguments events_ {BR CC}.

Section DecoderUpdates.
Context {BR CC : Type}.
Implicit Type dec : VP8LDecoder BR CC.

Definition set_status dec s :=
  mkVP8LDecoder s (br_ dec) (saved_br_ dec) (last_pixel_ dec)
    (saved_last_pixel_ dec) (color_cache_ dec) (saved_color_cache_ dec)
    (incremental_ dec) (data_ dec) (events_ dec).

Definition set_br dec br :=
  mkVP8LDecoder (status_ dec) br (saved_br_ dec) (last_pixel_ dec)
    (saved_last_pixel_ dec) (color_cache_ dec) (saved_color_cache_ dec)
    (incremental_ dec) (data_ dec) (events_ dec).

Definition set_last_pixel dec p :=
  mkVP8LDecoder (status_ dec) (br_ dec) (saved_br_ dec) p
    (saved_last_pixel_ dec) (color_cache_ dec) (saved_color_cache_ dec)
    (incremental_ dec) (data_ dec) (events_ dec).

Definition set_color_cache dec cc :=
  mkVP8LDecoder (status_ dec) (br_ dec) (saved_br_ dec) (last_pixel_ dec)
    (saved_last_pixel_ dec) cc (saved_color_cache_ dec)
    (incremental_ dec) (data_ dec) (events_ dec).

Definition set_data dec d :=
  mkVP8LDecoder (status_ dec) (br_ dec) (saved_br_ dec) (last_pixel_ dec)
    (saved_last_pixel_ dec) (color_cache_ dec) (saved_color_cache_ dec)
    (incremental_ dec) d (events_ dec).

Definition log_event dec e :=
  mkVP8LDecoder (status_ dec) (br_ dec) (saved_br_ dec) (last_pixel_ dec)
    (saved_last_pixel_ dec) (color_cache_ dec) (saved_color_cache_ dec)
    (incremental_ dec) (data_ dec) (e :: events_ dec).

Definition SaveState (hdr : VP8LMetadata) dec (last_pixel : Z) :=
  mkVP8LDecoder (status_ dec) (br_ dec) (br_ dec) (last_pixel_ dec)
    last_pixel (color_cache_ dec)
    (if 0 <? color_cache_size_ hdr then color_cache_ dec
     else saved_color_cache_ dec)
    (incremental_ dec) (data_ dec) (events_ dec).

Definition RestoreState (hdr : VP8LMetadata) dec :=
  mkVP8LDecoder VP8_STATUS_SUSPENDED (saved_br_ dec) (saved_br_ dec)
    (saved_last_pixel_ dec) (saved_last_pixel_ dec)
    (if 0 <? color_cache_size_ hdr then saved_color_cache_ dec
     else color_cache_ dec)
    (saved_color_cache_ dec) (incremental_ dec) (data_ dec) (events_ dec).

End DecoderUpdates.

(** The checkpoints of a trace, most recent first. *)
Fixpoint checkpoints {BR CC : Type} (evs : list (DecodeEvent BR CC))
  : list (Z * Z * BR * CC) :=
  match evs with
  | [] => []
  | ProcessRows _ :: evs => checkpoints evs
  | SavedState r p b c :: evs => (r, p, b, c) :: checkpoints evs
  end.

(** Consecutive checkpoints (most recent first) lie at least
    SYNC_EVERY_N_ROWS rows apart. *)
Fixpoint rows_spaced {BR CC : Type} (l : list (Z * Z * BR * CC)) : Prop :=
  match l with
  | (r, _, _, _) :: ((r', _, _, _) :: _) as l' =>
      r' + SYNC_EVERY_N_ROWS <= r /\ rows_spaced l'
  | _ => True
  end.

(* ------------------------------------------------------------------------ *)
(** * DecodeImageData *)

Definition GetMetaIndex (image : mem) (xsize bits x y : Z) : Z :=
  if bits =? 0 then 0
  else image (xsize * Z.shiftr y bits + Z.shiftr x bits).

Definition GetHtreeGroupForPos (hdr : VP8LMetadata) (x y : Z) : HTreeGroup :=
  htree_groups_ hdr
    (GetMetaIndex (huffman_image_ hdr) (huffman_xsize_ hdr)
       (huffman_subsample_bits_ hdr) x y).

(** The local variables of DecodeImageData's main loop; [src] and
    [last_cached] are offsets from [data]. *)
Record LoopState := mkLoopState {
  src : Z;
  last_cached : Z;
  row : Z;
  col : Z;
  htree_group : HTreeGroup;
  next_sync_row : Z
}.

Definition set_next_sync_row (ls : LoopState) (n : Z) : LoopState :=
  mkLoopState (src ls) (last_cached ls) (row ls) (col ls) (htree_group ls) n.

Definition set_htree_group (ls : LoopState) (g : HTreeGroup) : LoopState :=
  mkLoopState (src ls) (last_cached ls) (row ls) (col ls) g (next_sync_row ls).

Definition set_last_cached (ls : LoopState) (lc : Z) : LoopState :=
  mkLoopState (src ls) lc (row ls) (col ls) (htree_group ls) (next_sync_row ls).

Section ColorCacheInsertion.
Context {CC : Type} `{VP8LColorCache CC}.

(** [VP8LColorCacheInsert] of [n] pixels of [data] from offset [p] on. *)
Fixpoint insert_pixels (cc : CC) (data : mem) (p : Z) (n : nat) : CC :=
  match n with
  | O => cc
  | S n' => insert_pixels (VP8LColorCacheInsert cc (data p)) data (p + 1) n'
  end.

(** [while (last_cached < src) VP8LColorCacheInsert(color_cache,
      *last_cached++);] returning the cache and [last_cached]. *)
Definition flush_cache (cc : CC) (data : mem) (last_cached src : Z) : CC * Z :=
  if last_cached <? src
  then (insert_pixels cc data last_cached (Z.to_nat (src - last_cached)), src)
  else (cc, last_cached).

End ColorCacheInsertion.

Inductive StepResult (BR CC : Type) :=
  | Continue (ls : LoopState) (dec : VP8LDecoder BR CC)
  | Break (ls : LoopState) (dec : VP8LDecoder BR CC)
  | StepError (dec : VP8LDecoder BR CC).
Arguments Continue {BR CC}.
Arguments Break {BR CC}.
Arguments StepError {BR CC}.

Inductive LoopResult (BR CC : Type) :=
  | LoopDone (ls : LoopState) (dec : VP8LDecoder BR CC)
  | LoopError (dec : VP8LDecoder BR CC).
Arguments LoopDone {BR CC}.
Arguments LoopError {BR CC}.

Section DecodeImageData.
Context {BR CC : Type} `{VP8LBitReader BR} `{VP8LColorCache CC}.
(** [hdr], the image dimensions, [last_row] and whether a [process_func]
    was given are fixed for one call. *)
Variables (hdr : VP8LMetadata) (width height last_row : Z)
          (process_func : bool).

Definition len_code_limit : Z := NUM_LITERAL_CODES + NUM_LENGTH_CODES.
Definition color_cache_limit : Z := len_code_limit + color_cache_size_ hdr.
Definition mask : Z := huffman_mask_ hdr.
Definition cache_present : bool := 0 <? color_cache_size_ hdr.

(** [if ((row % NUM_ARGB_CACHE_ROWS == 0) && (process_func != NULL))
      process_func(dec, row);]  Only the call is recorded: what the row
    functions (ProcessRows, ExtractAlphaRows) write, into [argb_cache_]
    past the pixels and into the output, is not part of this model. *)
Definition process_rows (dec : VP8LDecoder BR CC) (row : Z)
  : VP8LDecoder BR CC :=
  if (row mod NUM_ARGB_CACHE_ROWS =? 0) && process_func
  then log_event dec (ProcessRows row) else dec.

(** The code at the label AdvanceByOne. *)
Definition AdvanceByOne (ls : LoopState) (dec : VP8LDecoder BR CC)
  : LoopState * VP8LDecoder BR CC :=
  let src := src ls + 1 in
  let col := col ls + 1 in
  if width <=? col then
    let row := row ls + 1 in
    let dec := process_rows dec row in
    let '(cc, lc) :=
      if cache_present
      then flush_cache (color_cache_ dec) (data_ dec) (last_cached ls) src
      else (color_cache_ dec, last_cached ls) in
    (mkLoopState src lc row 0 (htree_group ls) (next_sync_row ls),
     set_color_cache dec cc)
  else
    (mkLoopState src (last_cached ls) (row ls) col (htree_group ls)
       (next_sync_row ls), dec).

(** [while (col >= width) { col -= width; ++row; ... process_func ... }],
    run with enough fuel for [col / width] iterations. *)
Fixpoint wrap_rows (fuel : nat) (col row : Z) (dec : VP8LDecoder BR CC)
  : Z * Z * VP8LDecoder BR CC :=
  match fuel with
  | O => (col, row, dec)
  | S fuel' =>
      if width <=? col then
        let row := row + 1 in
        wrap_rows fuel' (col - width) row (process_rows dec row)
      else (col, row, dec)
  end.

(** The start of an iteration: the checkpoint, the tile's group and the
    green symbol. *)
Definition read_green (ls : LoopState) (dec : VP8LDecoder BR CC)
  : LoopState * VP8LDecoder BR CC * Z :=
  let '(ls, dec) :=
    if next_sync_row ls <=? row ls then
      (set_next_sync_row ls (row ls + SYNC_EVERY_N_ROWS),
       log_event (SaveState hdr dec (src ls))
         (SavedState (row ls) (src ls) (br_ dec) (color_cache_ dec)))
    else (ls, dec) in
  let ls :=
    if Z.land (col ls) mask =? 0
    then set_htree_group ls (GetHtreeGroupForPos hdr (col ls) (row ls))
    else ls in
  let br := VP8LFillBitWindow (br_ dec) in
  let '(code, br) := ReadSymbol (htrees (htree_group ls) GREEN) br in
  (ls, set_br dec br, code).

(** The length and distance of a backward reference. *)
Definition read_backref (g : HTreeGroup) (code : Z) (br : BR) : Z * Z * BR :=
  let length_sym := code - NUM_LITERAL_CODES in
  let '(length, br) := GetCopyLength length_sym br in
  let '(dist_symbol, br) := ReadSymbol (htrees g DIST) br in
  let br := VP8LFillBitWindow br in
  let '(dist_code, br) := GetCopyDistance dist_symbol br in
  let dist := PlaneCodeToDistance width dist_code in
  (length, dist, br).

(** The rest of an iteration, after the green symbol [code] was read. *)
Definition DecodeSymbol (ls : LoopState) (dec : VP8LDecoder BR CC) (code : Z)
  : StepResult BR CC :=
  let br := br_ dec in
  if eos_ br then Break ls dec
  else if code <? NUM_LITERAL_CODES then
    let '(px, br) := DecodeLiteral (htree_group ls) code br in
    let dec := set_br dec br in
    match px with
    | None => Break ls dec
    | Some px =>
        let '(ls, dec) :=
          AdvanceByOne ls (set_data dec (upd (data_ dec) (src ls) px)) in
        Continue ls dec
    end
  else if code <? len_code_limit then
    let '(length, dist, br) := read_backref (htree_group ls) code br in
    let dec := set_br dec br in
    if eos_ br then Break ls dec
    else if (src ls <? dist) || (width * height - src ls <? length)
    then StepError dec
    else
      let dec := set_data dec (CopyBlock32b (data_ dec) (src ls) dist length) in
      let src := src ls + length in
      let col := col ls + length in
      let '(col, row, dec) :=
        wrap_rows (Z.to_nat (col / width) + 1) col (row ls) dec in
      let g :=
        if negb (Z.land col mask =? 0) then GetHtreeGroupForPos hdr col row
        else htree_group ls in
      let '(cc, lc) :=
        if cache_present
        then flush_cache (color_cache_ dec) (data_ dec) (last_cached ls) src
        else (color_cache_ dec, last_cached ls) in
      Continue (mkLoopState src lc row col g (next_sync_row ls))
               (set_color_cache dec cc)
  else if code <? color_cache_limit then
    let key := code - len_code_limit in
    let '(cc, lc) :=
      flush_cache (color_cache_ dec) (data_ dec) (last_cached ls) (src ls) in
    let dec := set_color_cache dec cc in
    let px := VP8LColorCacheLookup cc key in
    let '(ls, dec) :=
      AdvanceByOne (set_last_cached ls lc)
        (set_data dec (upd (data_ dec) (src ls) px)) in
    Continue ls dec
  else StepError dec.

Definition DecodeStep (ls : LoopState) (dec : VP8LDecoder BR CC)
  : StepResult BR CC :=
  let '(ls, dec, code) := read_green ls dec in
  DecodeSymbol ls dec code.

(** [while (src < src_last) { ... }], [src_last = width * last_row]. *)
Fixpoint DecodeLoop (fuel : nat) (ls : LoopState) (dec : VP8LDecoder BR CC)
  : LoopResult BR CC :=
  match fuel with
  | O => LoopDone ls dec
  | S fuel' =>
      if src ls <? width * last_row then
        match DecodeStep ls dec with
        | Continue ls dec => DecodeLoop fuel' ls dec
        | Break ls dec => LoopDone ls dec
        | StepError dec => LoopError dec
        end
      else LoopDone ls dec
  end.

(** The code after the loop: the return value and the decoder. *)
Definition DecodeImageDataEnd (r : LoopResult BR CC) : Z * VP8LDecoder BR CC :=
  match r with
  | LoopError dec => (0, set_status dec VP8_STATUS_BITSTREAM_ERROR)
  | LoopDone ls dec =>
      if incremental_ dec && eos_ (br_ dec) && (src ls <? width * height)
      then (1, RestoreState hdr dec)
      else if negb (eos_ (br_ dec)) then
        let dec := if process_func then log_event dec (ProcessRows (row ls))
                   else dec in
        (1, set_last_pixel (set_status dec VP8_STATUS_OK) (src ls))
      else (0, set_status dec VP8_STATUS_BITSTREAM_ERROR)
  end.

Definition initial_loop_state (dec : VP8LDecoder BR CC) : LoopState :=
  let row := last_pixel_ dec / width in
  let col := last_pixel_ dec mod width in
  mkLoopState (last_pixel_ dec) (last_pixel_ dec) row col
    (GetHtreeGroupForPos hdr col row)
    (if incremental_ dec then row else Z.shiftl 1 24).

(** Every iteration that does not stop the loop advances [src], so the
    fuel [src_last - last_pixel_] covers the whole loop. *)
Definition DecodeImageData (dec : VP8LDecoder BR CC) : Z * VP8LDecoder BR CC :=
  DecodeImageDataEnd
    (DecodeLoop (Z.to_nat (width * last_row - last_pixel_ dec))
       (initial_loop_state dec) dec).

End DecodeImageData.

(* ------------------------------------------------------------------------ *)
(** * DecodeImageStream: from the colour-cache descriptor on *)

Record StreamState (BR : Type) := mkStreamState {
  st_br : BR;
  st_status : VP8StatusCode
}.
Arguments mkStreamState {BR}.
Arguments st_br {BR}.
Arguments st_status {BR}.

Section ImageStream.
Context {BR : Type} `{VP8LBitReader BR}.
(** The later stages of DecodeImageStream: ReadHuffmanCodes (given the
    colour-cache bits), then everything from the colour-cache set-up to
    the end of the entropy-coded image, including DecodeImageData; and
    ClearMetadata. *)
Variable ReadHuffmanCodes_ : StreamState BR -> Z -> Z -> Z -> bool ->
                             bool * StreamState BR.
Variable DecodeImageRest : StreamState BR -> Z -> Z -> Z -> bool ->
                           bool * option mem * StreamState BR.
Variable ClearMetadata : StreamState BR -> StreamState BR.

(** From [// Read the Huffman codes (may recurse).] on. *)
Definition DecodeAfterCacheDescriptor (xsize ysize color_cache_bits : Z)
    (is_level0 : bool) (st : StreamState BR)
  : bool * option mem * StreamState BR :=
  let '(ok, st) := ReadHuffmanCodes_ st xsize ysize color_cache_bits is_level0 in
  if negb ok then
    (false, None, ClearMetadata (mkStreamState (st_br st) VP8_STATUS_BITSTREAM_ERROR))
  else DecodeImageRest st xsize ysize color_cache_bits is_level0.

(** DecodeImageStream from [// Color cache] on, with [ok] the result of the
    transform loop. *)
Definition DecodeImageStreamCache (xsize ysize : Z) (is_level0 ok : bool)
    (st : StreamState BR) : bool * option mem * StreamState BR :=
  if ok then
    let '(present, br) := VP8LReadBits (st_br st) 1 in
    if negb (present =? 0) then
      let '(color_cache_bits, br) := VP8LReadBits br 4 in
      let ok := (1 <=? color_cache_bits) && (color_cache_bits <=? MAX_CACHE_BITS) in
      if negb ok then
        (false, None, ClearMetadata (mkStreamState br VP8_STATUS_BITSTREAM_ERROR))
      else
        DecodeAfterCacheDescriptor xsize ysize color_cache_bits is_level0
          (mkStreamState br (st_status st))
    else DecodeAfterCacheDescriptor xsize ysize 0 is_level0
           (mkStreamState br (st_status st))
  else (false, None, ClearMetadata (mkStreamState (st_br st) VP8_STATUS_BITSTREAM_ERROR)).

End ImageStream.

(* ------------------------------------------------------------------------ *)
(** * Predicates over the decoder state used in the statements *)

(** The fields one iteration of the loop leaves alone unless it takes a
    checkpoint: the mode, the saved state and the checkpoint log. *)
Definition dec_frame {BR CC : Type} (d d' : VP8LDecoder BR CC) : Prop :=
  incremental_ d' = incremental_ d /\ saved_br_ d' = saved_br_ d /\
  saved_last_pixel_ d' = saved_last_pixel_ d /\
  saved_color_cache_ d' = saved_color_cache_ d /\
  checkpoints (events_ d') = checkpoints (events_ d).

Definition step_dec {BR CC : Type} (r : StepResult BR CC) : VP8LDecoder BR CC :=
  match r with
  | Continue _ dec | Break _ dec | StepError dec => dec
  end.

(** In incremental mode, the checkpoints taken since [dec0] are
    [(r, p, b, c) :: l], the oldest one is [first], they are spaced by
    SYNC_EVERY_N_ROWS rows, the saved state is the most recent one, and
    the next checkpoint is due at row [nsr]. *)
Definition snapshot_inv {BR CC : Type} (size : Z) (dec0 : VP8LDecoder BR CC)
    (first : Z * Z * BR * CC) (nsr : Z) (dec : VP8LDecoder BR CC) : Prop :=
  incremental_ dec = true /\
  exists r p b c l,
    checkpoints (events_ dec) = ((r, p, b, c) :: l) ++ checkpoints (events_ dec0) /\
    rows_spaced ((r, p, b, c) :: l) /\
    (exists l', (r, p, b, c) :: l = l' ++ [first]) /\
    saved_br_ dec = b /\ saved_last_pixel_ dec = p /\
    (0 < size -> saved_color_cache_ dec = c) /\
    nsr = r + SYNC_EVERY_N_ROWS.

(** Before the first iteration of an incremental call: no checkpoint yet,
    one due now, and [first] is the state it will capture. *)
Definition snapshot_pre {BR CC : Type} (size : Z) (dec0 : VP8LDecoder BR CC)
    (first : Z * Z * BR * CC) (ls : LoopState) (dec : VP8LDecoder BR CC) : Prop :=
  snapshot_inv size dec0 first (next_sync_row ls) dec \/
  (incremental_ dec = true /\ checkpoints (events_ dec) = checkpoints (events_ dec0) /\
   next_sync_row ls <= row ls /\ first = (row ls, src ls, br_ dec, color_cache_ dec)).

(** The colour cache holds exactly the pixels [start, last_cached) of the
    raster, inserted in raster order into the cache [c0], and
    [start <= last_cached <= src]. *)
Definition cache_holds {BR CC : Type} `{VP8LColorCache CC} (c0 : CC) (start : Z)
    (ls : LoopState) (dec : VP8LDecoder BR CC) : Prop :=
  color_cache_ dec = insert_pixels c0 (data_ dec) start (Z.to_nat (last_cached ls - start)) /\
  start <= last_cached ls <= src ls.

(* ------------------------------------------------------------------------ *)
(** * The image header: VP8LCheckSignature, ReadImageInfo, VP8LGetInfo *)

(** Modelled from the spec: the constants of format_constants.h (the
    5-byte header, its magic byte 0x2F, the 14-bit dimensions and the
    3-bit version). *)
Definition VP8L_MAGIC_BYTE : Z := 0x2f.
Definition VP8L_IMAGE_SIZE_BITS : Z := 14.
Definition VP8L_VERSION_BITS : Z := 3.
Definition VP8L_FRAME_HEADER_SIZE : Z := 5.

(** [data] holds the [size] input bytes. *)
Definition VP8LCheckSignature (data : list Z) (size : Z) : bool :=
  (VP8L_FRAME_HEADER_SIZE <=? size) &&
  (nth 0 data 0 =? VP8L_MAGIC_BYTE) &&
  (Z.shiftr (nth 4 data 0) 5 =? 0).

Section ImageInfo.
Context {BR : Type} `{VP8LBitReader BR}.

(** [Some (width, height, has_alpha)] when ReadImageInfo returns 1. *)
Definition ReadImageInfo (br : BR) : option (Z * Z * Z) * BR :=
  let '(magic, br) := VP8LReadBits br 8 in
  if negb (magic =? VP8L_MAGIC_BYTE) then (None, br) else
  let '(w, br) := VP8LReadBits br VP8L_IMAGE_SIZE_BITS in
  let '(h, br) := VP8LReadBits br VP8L_IMAGE_SIZE_BITS in
  let '(a, br) := VP8LReadBits br 1 in
  let '(version, br) := VP8LReadBits br VP8L_VERSION_BITS in
  if negb (version =? 0) then (None, br)
  else if eos_ br then (None, br)
  else (Some (w + 1, h + 1, a), br).

End ImageInfo.

(** [data = None] is a NULL pointer; [Some (w, h, a)] when VP8LGetInfo
    returns 1 and stores [w], [h], [a] through the out-pointers.  The bit
    reader is VP8LInitBitReader over the [data_size] input bytes. *)
Definition VP8LGetInfo (data : option (list Z)) (data_size : Z)
  : option (Z * Z * Z) :=
  match data with
  | None => None
  | Some buf =>
      if data_size <? VP8L_FRAME_HEADER_SIZE then None
      else if negb (VP8LCheckSignature buf data_size) then None
      else fst (ReadImageInfo (lbr_init (firstn (Z.to_nat data_size) buf)))
  end.

(** The five header bytes of a [width] x [height] image: the magic byte,
    then [width - 1], [height - 1], [has_alpha] and a zero version packed
    least-significant bit first, as the reader above consumes them. *)
Definition vp8l_header (width height has_alpha : Z) : list Z :=
  let f := (width - 1) + 2 ^ 14 * ((height - 1) + 2 ^ 14 * has_alpha) in
  [VP8L_MAGIC_BYTE; f mod 256; (f / 2 ^ 8) mod 256; (f / 2 ^ 16) mod 256;
   f / 2 ^ 24].

(** The value of a little-endian byte string. *)
Fixpoint le_value (bs : list Z) : Z :=
  match bs with
  | [] => 0
  | b :: bs' => b + 256 * le_value bs'
  end.

Definition is_byte_list (bs : list Z) : Prop := Forall is_byte bs.

(* ------------------------------------------------------------------------ *)
(** * Tiles of the meta-Huffman image: VP8LSubSampleSize and UpdateDecoder *)

(** Modelled from the spec: VP8LSubSampleSize of dsp/lossless.h,
    [subsampleSize(n, b) = (n + (1 << b) - 1) >> b]. *)
Definition VP8LSubSampleSize (size sampling_bits : Z) : Z :=
  Z.shiftr (size + Z.shiftl 1 sampling_bits - 1) sampling_bits.

(** UpdateDecoder: the new [dec->width_], [dec->height_] and [dec->hdr_]. *)
Definition UpdateDecoder (hdr : VP8LMetadata) (width height : Z)
  : Z * Z * VP8LMetadata :=
  let num_bits := huffman_subsample_bits_ hdr in
  (width, height,
   mkVP8LMetadata (color_cache_size_ hdr) (huffman_image_ hdr)
     (VP8LSubSampleSize width num_bits) num_bits
     (if num_bits =? 0 then Z.lnot 0 else Z.shiftl 1 num_bits - 1)
     (htree_groups_ hdr)).

(** The decoder's cursor: [src] is [row] full rows plus [col] pixels. *)
Definition cursor_ok (width : Z) (ls : LoopState) : Prop :=
  src ls = width * row ls + col ls /\ 0 <= col ls < width.

(** The group held by the loop is the one of its pixel's tile whenever
    the loop does not refresh it ([(col & mask) != 0]). *)
Definition group_ok (hdr : VP8LMetadata) (ls : LoopState) : Prop :=
  Z.land (col ls) (huffman_mask_ hdr) <> 0 ->
  htree_group ls = GetHtreeGroupForPos hdr (col ls) (row ls).

(** Groups [i] with a one-entry table decoding [i], for examples. *)
Definition witness_groups (i : Z) : HTreeGroup :=
  mkHTreeGroup (fun _ _ => mkHuffmanCode 0 i) true i.

(** [m'] differs from [m] at most on the addresses [[lo, hi)]. *)
Definition writes_within (m m' : mem) (lo hi : Z) : Prop :=
  forall q, q < lo \/ hi <= q -> m' q = m q.

(* ------------------------------------------------------------------------ *)
(** * DecodeAlphaData *)

(** The alpha-plane decoder state used by DecodeAlphaData and
    ExtractPalettedAlphaRows.  [alpha_rows] records the calls
    [ApplyInverseTransformsAlpha(dec, num_rows, in)] as (first row
    [dec->last_row_], [num_rows]), most recent first. *)
Module Alpha.

Record VP8LDecoder (BR : Type) := mkVP8LDecoder {
  status_ : VP8StatusCode;
  br_ : BR;
  last_pixel_ : Z;
  last_row_ : Z;
  last_out_row_ : Z;
  alpha_rows : list (Z * Z)
}.
Arguments mkVP8LDecoder {BR}.
Arguments status_ {BR}.
Arguments br_ {BR}.
Arguments last_pixel_ {BR}.
Arguments last_row_ {BR}.
Arguments last_out_row_ {BR}.
Arguments alpha_rows {BR}.

Section AlphaData.
Context {BR : Type} `{VP8LBitReader BR}.
Implicit Type dec : VP8LDecoder BR.

Definition set_status dec s :=
  mkVP8LDecoder s (br_ dec) (last_pixel_ dec) (last_row_ dec)
    (last_out_row_ dec) (alpha_rows dec).

Definition set_br dec (br : BR) :=
  mkVP8LDecoder (status_ dec) br (last_pixel_ dec) (last_row_ dec)
    (last_out_row_ dec) (alpha_rows dec).

Definition set_last_pixel dec p :=
  mkVP8LDecoder (status_ dec) (br_ dec) p (last_row_ dec)
    (last_out_row_ dec) (alpha_rows dec).

Definition ExtractPalettedAlphaRows dec (row : Z) : VP8LDecoder BR :=
  let num_rows := row - last_row_ dec in
  let rows :=
    if 0 <? num_rows then (last_row_ dec, num_rows) :: alpha_rows dec
    else alpha_rows dec in
  mkVP8LDecoder (status_ dec) (br_ dec) (last_pixel_ dec) row row rows.

(** The rows of the image being decoded, [dec->hdr_], and [last_row]. *)
Variables (hdr : VP8LMetadata) (width height last_row : Z).

(** [if (row % NUM_ARGB_CACHE_ROWS == 0) ExtractPalettedAlphaRows(dec, row);] *)
Definition extract_at_block dec (row : Z) : VP8LDecoder BR :=
  if row mod NUM_ARGB_CACHE_ROWS =? 0 then ExtractPalettedAlphaRows dec row
  else dec.

(** [while (col >= width) { col -= width; ++row; ... }], with fuel. *)
Fixpoint wrap_rows (fuel : nat) (col row : Z) dec : Z * Z * VP8LDecoder BR :=
  match fuel with
  | O => (col, row, dec)
  | S fuel' =>
      if width <=? col then
        let row := row + 1 in
        wrap_rows fuel' (col - width) row (extract_at_block dec row)
      else (col, row, dec)
  end.

(** How the main loop ends: leaving the [while] (position, row, data,
    decoder), or [goto End] with [ok = 0]. *)
Inductive LoopResult :=
  | LoopDone (pos row : Z) (data : mem) (dec : VP8LDecoder BR)
  | LoopError (pos : Z) (data : mem) (dec : VP8LDecoder BR).

(** [while (!br->eos_ && pos < last) { ... }] *)
Fixpoint DecodeLoop (fuel : nat) (pos col row : Z) (htree_group : HTreeGroup)
    (data : mem) dec : LoopResult :=
  match fuel with
  | O => LoopDone pos row data dec
  | S fuel' =>
      if negb (eos_ (br_ dec)) && (pos <? width * last_row) then
        let htree_group :=
          if Z.land col (huffman_mask_ hdr) =? 0
          then GetHtreeGroupForPos hdr col row else htree_group in
        let br := VP8LFillBitWindow (br_ dec) in
        let '(code, br) := ReadSymbol (htrees htree_group GREEN) br in
        let dec := set_br dec br in
        if code <? NUM_LITERAL_CODES then
          let data := upd data pos code in
          let pos := pos + 1 in
          let col := col + 1 in
          if width <=? col then
            let row := row + 1 in
            DecodeLoop fuel' pos 0 row htree_group data (extract_at_block dec row)
          else DecodeLoop fuel' pos col row htree_group data dec
        else if code <? len_code_limit then
          let '(length, dist, br) := read_backref width htree_group code (br_ dec) in
          let dec := set_br dec br in
          if (dist <=? pos) && (length <=? width * height - pos) then
            let data := CopyBlock8b data pos dist length in
            let pos := pos + length in
            let col := col + length in
            let '(col, row, dec) := wrap_rows (Z.to_nat (col / width) + 1) col row dec in
            let htree_group :=
              if (pos <? width * last_row) && negb (Z.land col (huffman_mask_ hdr) =? 0)
              then GetHtreeGroupForPos hdr col row else htree_group in
            DecodeLoop fuel' pos col row htree_group data dec
          else LoopError pos data dec
        else LoopError pos data dec
      else LoopDone pos row data dec
  end.

(** DecodeAlphaData: the return value, the bytes [data] and the decoder.
    Every iteration that does not leave the loop advances [pos], so the
    fuel [last - last_pixel_] covers the whole loop. *)
Definition DecodeAlphaData dec (data : mem) : Z * mem * VP8LDecoder BR :=
  let row := last_pixel_ dec / width in
  let col := last_pixel_ dec mod width in
  let htree_group := GetHtreeGroupForPos hdr col row in
  let pos := last_pixel_ dec in
  let '(ok, pos, data, dec) :=
    match DecodeLoop (Z.to_nat (width * last_row - pos)) pos col row htree_group
            data dec with
    | LoopDone pos row data dec =>
        (true, pos, data, ExtractPalettedAlphaRows dec row)
    | LoopError pos data dec => (false, pos, data, dec)
    end in
  if negb ok || (eos_ (br_ dec) && (pos <? width * height)) then
    (0, data,
     set_status dec (if eos_ (br_ dec) then VP8_STATUS_SUSPENDED
                     else VP8_STATUS_BITSTREAM_ERROR))
  else (1, data, set_last_pixel dec pos).

End AlphaData.

End Alpha.

(** The blocks [(first row, number of rows)] of a log, most recent first,
    are non-empty and follow each other without gap from row [lo] to row
    [hi]. *)
Fixpoint row_blocks (lo hi : Z) (l : list (Z * Z)) : Prop :=
  match l with
  | [] => lo = hi
  | (s, n) :: l' => 0 < n /\ s + n = hi /\ row_blocks lo s l'
  end.

(** The rows handed to ApplyInverseTransformsAlpha since a start state
    (first row [r0], earlier log [rows0]) form such blocks up to
    [dec->last_row_], which is not past the cursor row [row]. *)
Definition blocks_ok {BR : Type} (r0 : Z) (rows0 : list (Z * Z))
    (d : Alpha.VP8LDecoder BR) (row : Z) : Prop :=
  Alpha.last_row_ d <= row /\
  exists blocks, Alpha.alpha_rows d = blocks ++ rows0 /\
                 row_blocks r0 (Alpha.last_row_ d) blocks.

(* ------------------------------------------------------------------------ *)
(** * ReadTransform and the transform loop of DecodeImageStream *)

(** Modelled from the spec: VP8LImageTransformType and NUM_TRANSFORMS of
    format_constants.h, which is not in this file. *)
Definition PREDICTOR_TRANSFORM : Z := 0.
Definition CROSS_COLOR_TRANSFORM : Z := 1.
Definition SUBTRACT_GREEN : Z := 2.
Definition COLOR_INDEXING_TRANSFORM : Z := 3.
Definition NUM_TRANSFORMS : Z := 4.

(** The transform fields of the decoder: [transforms_] is the array
    [dec->transforms_] (indexed by int), [data_ = None] is NULL. *)
Module Transforms.

Record VP8LTransform := mkVP8LTransform {
  type_ : Z;
  bits_ : Z;
  xsize_ : Z;
  ysize_ : Z;
  data_ : option mem
}.

Record VP8LDecoder (BR : Type) := mkVP8LDecoder {
  br_ : BR;
  next_transform_ : Z;
  transforms_seen_ : Z;
  transforms_ : Z -> VP8LTransform
}.
Arguments mkVP8LDecoder {BR}.
Arguments br_ {BR}.
Arguments next_transform_ {BR}.
Arguments transforms_seen_ {BR}.
Arguments transforms_ {BR}.

Definition set_transform (ts : Z -> VP8LTransform) (i : Z) (t : VP8LTransform)
  : Z -> VP8LTransform :=
  fun j => if j =? i then t else ts j.

Section ReadTransform.
Context {BR : Type} `{VP8LBitReader BR}.
Implicit Type dec : VP8LDecoder BR.

(** DecodeImageStream at level 1 (a sub-image of the given size: its
    success, the decoded pixels and the bit reader afterwards), and the
    outcome of ExpandColorMap's allocation with its fresh buffer.  A level-1
    stream reads no transform, so it leaves the transform fields alone. *)
Variable DecodeImageStream : Z -> Z -> BR -> bool * mem * BR.
Variables (color_map_alloc_ok : bool) (fresh : mem).

(** ReadTransform: [ok], the new [*xsize], and the decoder. *)
Definition ReadTransform (xsize ysize : Z) dec : bool * Z * VP8LDecoder BR :=
  let n := next_transform_ dec in
  let '(type, br) := VP8LReadBits (br_ dec) 2 in
  let seen := transforms_seen_ dec in
  if negb (Z.land seen (Z.shiftl 1 type) =? 0) then
    (false, xsize, mkVP8LDecoder br n seen (transforms_ dec))
  else
    let seen := Z.lor seen (Z.shiftl 1 type) in
    let old_bits := bits_ (transforms_ dec n) in
    let store t := set_transform (transforms_ dec) n t in
    if (type =? PREDICTOR_TRANSFORM) || (type =? CROSS_COLOR_TRANSFORM) then
      let '(b, br) := VP8LReadBits br 3 in
      let bits := b + 2 in
      let '(ok, data, br) :=
        DecodeImageStream (VP8LSubSampleSize xsize bits)
                          (VP8LSubSampleSize ysize bits) br in
      (ok, xsize,
       mkVP8LDecoder br (n + 1) seen
         (store (mkVP8LTransform type bits xsize ysize
                      (if ok then Some data else None))))
    else if type =? COLOR_INDEXING_TRANSFORM then
      let '(c, br) := VP8LReadBits br 8 in
      let num_colors := c + 1 in
      let bits := color_indexing_bits num_colors in
      let xsize' := VP8LSubSampleSize xsize bits in
      let '(ok, data, br) := DecodeImageStream num_colors 1 br in
      let '(ok, data_) :=
        if ok then
          if color_map_alloc_ok
          then (true, Some (ExpandColorMap num_colors bits data fresh))
          else (false, Some data)
        else (false, None) in
      (ok, xsize',
       mkVP8LDecoder br (n + 1) seen
         (store (mkVP8LTransform type bits xsize ysize data_)))
    else
      (* SUBTRACT_GREEN: bits_ keeps its old value *)
      (true, xsize,
       mkVP8LDecoder br (n + 1) seen
         (store (mkVP8LTransform type old_bits xsize ysize None))).

(** [while (ok && VP8LReadBits(br, 1)) ok = ReadTransform(...);] in
    DecodeImageStream (level 0), with fuel. *)
Fixpoint read_transforms (fuel : nat) (ok : bool) (xsize ysize : Z) dec
  : bool * Z * VP8LDecoder BR :=
  match fuel with
  | O => (ok, xsize, dec)
  | S fuel' =>
      if ok then
        let '(bit, br) := VP8LReadBits (br_ dec) 1 in
        let dec := mkVP8LDecoder br (next_transform_ dec) (transforms_seen_ dec)
                     (transforms_ dec) in
        if bit =? 0 then (ok, xsize, dec)
        else
          let '(ok, xsize, dec) := ReadTransform xsize ysize dec in
          read_transforms fuel' ok xsize ysize dec
      else (ok, xsize, dec)
  end.

End ReadTransform.

End Transforms.

(** The number of transform types marked in [transforms_seen_]. *)
Definition seen_count (seen : Z) : Z :=
  Z.b2z (Z.testbit seen 0) + Z.b2z (Z.testbit seen 1) +
  Z.b2z (Z.testbit seen 2) + Z.b2z (Z.testbit seen 3).

(** The transform bookkeeping: the types seen are among the four, one
    array entry per type seen, and the entries read so far have pairwise
    distinct, seen types. *)
Definition transforms_inv {BR : Type} (dec : Transforms.VP8LDecoder BR) : Prop :=
  let seen := Transforms.transforms_seen_ dec in
  let n := Transforms.next_transform_ dec in
  0 <= seen < 2 ^ NUM_TRANSFORMS /\ n = seen_count seen /\
  (forall i, 0 <= i < n ->
     let t := Transforms.type_ (Transforms.transforms_ dec i) in
     0 <= t < NUM_TRANSFORMS /\ Z.testbit seen t = true) /\
  (forall i j, 0 <= i -> i < j -> j < n ->
     Transforms.type_ (Transforms.transforms_ dec i) <>
     Transforms.type_ (Transforms.transforms_ dec j)).

(* ------------------------------------------------------------------------ *)
(** * Code lengths: ReadHuffmanCodeLengths and ReadHuffmanCode *)

Definition kCodeLengthLiterals : Z := 16.
Definition kCodeLengthRepeatCode : Z := 16.
Definition kCodeLengthExtraBits : list Z := [2; 3; 7].
Definition kCodeLengthRepeatOffsets : list Z := [3; 3; 11].
Definition NUM_CODE_LENGTH_CODES : Z := 19.
Definition kCodeLengthCodeOrder : list Z :=
  [17; 18; 0; 1; 2; 3; 4; 5; 16; 6; 7; 8; 9; 10; 11; 12; 13; 14; 15].

(** Modelled from the spec: LENGTHS_TABLE_BITS of utils/huffman.h and
    DEFAULT_CODE_LENGTH of format_constants.h, which are not in this file. *)
Definition LENGTHS_TABLE_BITS : Z := 7.
Definition LENGTHS_TABLE_MASK : Z := Z.shiftl 1 LENGTHS_TABLE_BITS - 1.
Definition DEFAULT_CODE_LENGTH : Z := 8.

(** [while (repeat-- > 0) code_lengths[symbol++] = length;], and the
    [memset] of [code_lengths] when [length] is 0 and [symbol] is 0. *)
Fixpoint fill_lengths (code_lengths : mem) (symbol : Z) (n : nat) (length : Z)
  : mem :=
  match n with
  | O => code_lengths
  | S n' => fill_lengths (upd code_lengths symbol length) (symbol + 1) n' length
  end.

Section CodeLengths.
Context {BR : Type} `{VP8LBitReader BR}.
(** VP8LBuildHuffmanTable (utils/huffman, not in this file):
    [(size, table)] for the root bits, the code lengths and their number;
    size 0 means the code lengths do not form a valid code. *)
Variable VP8LBuildHuffmanTable : Z -> mem -> Z -> Z * HuffmanTable.

(** The [while (symbol < num_symbols)] loop of ReadHuffmanCodeLengths;
    [max_symbol] is the count left before [if (max_symbol-- == 0) break;].
    The result is [(ok, code_lengths, br)]; [false] is [goto End]. *)
Fixpoint code_lengths_loop (table : HuffmanTable) (num_symbols : Z)
    (max_symbol : nat) (symbol prev_code_len : Z) (code_lengths : mem)
    (br : BR) {struct max_symbol} : bool * mem * BR :=
  if symbol <? num_symbols then
    match max_symbol with
    | O => (true, code_lengths, br)
    | S max_symbol' =>
        let br := VP8LFillBitWindow br in
        let p := table (Z.land (VP8LPrefetchBits br) LENGTHS_TABLE_MASK) in
        let br := VP8LSetBitPos br (bit_pos_ br + bits p) in
        let code_len := value p in
        if code_len <? kCodeLengthLiterals then
          code_lengths_loop table num_symbols max_symbol' (symbol + 1)
            (if code_len =? 0 then prev_code_len else code_len)
            (upd code_lengths symbol code_len) br
        else
          let use_prev := code_len =? kCodeLengthRepeatCode in
          let slot := code_len - kCodeLengthLiterals in
          let extra_bits := nth (Z.to_nat slot) kCodeLengthExtraBits 0 in
          let repeat_offset := nth (Z.to_nat slot) kCodeLengthRepeatOffsets 0 in
          let '(r, br) := VP8LReadBits br extra_bits in
          let repeat := r + repeat_offset in
          if num_symbols <? symbol + repeat then (false, code_lengths, br)
          else
            let length := if use_prev then prev_code_len else 0 in
            code_lengths_loop table num_symbols max_symbol' (symbol + repeat)
              prev_code_len (fill_lengths code_lengths symbol (Z.to_nat repeat) length) br
    end
  else (true, code_lengths, br).

(** ReadHuffmanCodeLengths: [(ok, dec->status_, code_lengths, dec->br_)]. *)
Definition ReadHuffmanCodeLengths (status : VP8StatusCode)
    (code_length_code_lengths : mem) (num_symbols : Z) (code_lengths : mem)
    (br : BR) : bool * VP8StatusCode * mem * BR :=
  let '(size, table) :=
    VP8LBuildHuffmanTable LENGTHS_TABLE_BITS code_length_code_lengths
      NUM_CODE_LENGTH_CODES in
  let '(ok, code_lengths, br) :=
    if size =? 0 then (false, code_lengths, br)
    else
      let '(use_length, br) := VP8LReadBits br 1 in
      if negb (use_length =? 0) then
        let '(x, br) := VP8LReadBits br 3 in
        let length_nbits := 2 + 2 * x in
        let '(y, br) := VP8LReadBits br length_nbits in
        let max_symbol := 2 + y in
        if num_symbols <? max_symbol then (false, code_lengths, br)
        else code_lengths_loop table num_symbols (Z.to_nat max_symbol) 0
               DEFAULT_CODE_LENGTH code_lengths br
      else code_lengths_loop table num_symbols (Z.to_nat num_symbols) 0
             DEFAULT_CODE_LENGTH code_lengths br in
  (ok, if ok then status else VP8_STATUS_BITSTREAM_ERROR, code_lengths, br).

(** [for (i = 0; i < num_codes; ++i)
       code_length_code_lengths[kCodeLengthCodeOrder[i]] = VP8LReadBits(br, 3);] *)
Fixpoint read_code_length_code_lengths (cl : mem) (i : Z) (n : nat) (br : BR)
  : mem * BR :=
  match n with
  | O => (cl, br)
  | S n' =>
      let '(v, br) := VP8LReadBits br 3 in
      read_code_length_code_lengths
        (upd cl (nth (Z.to_nat i) kCodeLengthCodeOrder 0) v) (i + 1) n' br
  end.

(** ReadHuffmanCode: [(size, dec->status_, code_lengths, table, dec->br_)],
    where [table] is what VP8LBuildHuffmanTable built into [table], if it
    was called. *)
Definition ReadHuffmanCode (alphabet_size : Z) (status : VP8StatusCode)
    (code_lengths : mem) (br : BR)
  : Z * VP8StatusCode * mem * option HuffmanTable * BR :=
  let '(simple_code, br) := VP8LReadBits br 1 in
  let code_lengths := fill_lengths code_lengths 0 (Z.to_nat alphabet_size) 0 in
  let res :=
    if negb (simple_code =? 0) then
      let '(ns, br) := VP8LReadBits br 1 in
      let num_symbols := ns + 1 in
      let '(first_symbol_len_code, br) := VP8LReadBits br 1 in
      let '(symbol, br) :=
        VP8LReadBits br (if first_symbol_len_code =? 0 then 1 else 8) in
      let code_lengths := upd code_lengths symbol 1 in
      let '(code_lengths, br) :=
        if num_symbols =? 2 then
          let '(symbol, br) := VP8LReadBits br 8 in
          (upd code_lengths symbol 1, br)
        else (code_lengths, br) in
      inr (true, status, code_lengths, br)
    else
      let '(nc, br) := VP8LReadBits br 4 in
      let num_codes := nc + 4 in
      if NUM_CODE_LENGTH_CODES <? num_codes then
        inl (0, VP8_STATUS_BITSTREAM_ERROR, code_lengths, @None HuffmanTable, br)
      else
        let '(code_length_code_lengths, br) :=
          read_code_length_code_lengths (fun _ => 0) 0 (Z.to_nat num_codes) br in
        inr (ReadHuffmanCodeLengths status code_length_code_lengths
               alphabet_size code_lengths br) in
  match res with
  | inl r => r
  | inr (ok, status, code_lengths, br) =>
      let ok := ok && negb (eos_ br) in
      if ok then
        let '(size, table) :=
          VP8LBuildHuffmanTable HUFFMAN_TABLE_BITS code_lengths alphabet_size in
        if size =? 0 then
          (0, VP8_STATUS_BITSTREAM_ERROR, code_lengths, Some table, br)
        else (size, status, code_lengths, Some table, br)
      else (0, VP8_STATUS_BITSTREAM_ERROR, code_lengths, None, br)
  end.

End CodeLengths.

(** A table builder that always succeeds with a one-entry table of symbol 0. *)
Definition witness_build (_ : Z) (_ : mem) (_ : Z) : Z * HuffmanTable :=
  (1, fun _ => mkHuffmanCode 1 0).

(* ------------------------------------------------------------------------ *)
(** * SetCropWindow *)

(** The fields of VP8Io (dec/vp8, not in this file) that SetCropWindow
    reads and writes. *)
Record VP8Io := mkVP8Io {
  crop_left : Z; crop_right : Z; crop_top : Z; crop_bottom : Z;
  mb_y : Z; mb_w : Z; mb_h : Z
}.

(** SetCropWindow: [(result, *io, *in_data)], with [in_data] a byte
    address. *)
Definition SetCropWindow (io : VP8Io) (y_start y_end in_data pixel_stride : Z)
  : bool * VP8Io * Z :=
  let y_end := if crop_bottom io <? y_end then crop_bottom io else y_end in
  let '(y_start, in_data) :=
    if y_start <? crop_top io then
      let delta := crop_top io - y_start in
      (crop_top io, in_data + delta * pixel_stride)
    else (y_start, in_data) in
  if y_end <=? y_start then (false, io, in_data)
  else
    let in_data := in_data + crop_left io * 4 in
    (true,
     mkVP8Io (crop_left io) (crop_right io) (crop_top io) (crop_bottom io)
       (y_start - crop_top io) (crop_right io - crop_left io) (y_end - y_start),
     in_data).

(* ------------------------------------------------------------------------ *)
(** * ExtractAlphaRows *)

(** [for (i = 0; i < cache_pixs; ++i) dst[i] = (src[i] >> 8) & 0xff;] over
    the output bytes, with [dst] a byte address and [src] the ARGB cache. *)
Fixpoint extract_green (out : mem) (dst : Z) (src : mem) (i : Z) (n : nat) : mem :=
  match n with
  | O => out
  | S n' =>
      extract_green (upd out (dst + i) (Z.land (Z.shiftr (src i) 8) 0xff))
        dst src (i + 1) n'
  end.

Section ExtractAlpha.
(** ApplyInverseTransforms (the inverse transforms of dsp/lossless, not in
    this file): the ARGB cache holding rows [[start_row, start_row +
    num_rows)] after the inverse transforms. *)
Variable ApplyInverseTransforms : Z -> Z -> mem.

(** ExtractAlphaRows: [(dec->last_row_, dec->last_out_row_, output)] where
    [output] is the byte buffer [io->opaque] of width [io->width]. *)
Definition ExtractAlphaRows (last_row last_out_row io_width row : Z)
    (output : mem) : Z * Z * mem :=
  let num_rows := row - last_row in
  if num_rows <=? 0 then (last_row, last_out_row, output)
  else
    let argb_cache := ApplyInverseTransforms num_rows last_row in
    let width := io_width in
    let cache_pixs := width * num_rows in
    let dst := width * last_row in
    (row, row, extract_green output dst argb_cache 0 (Z.to_nat cache_pixs)).

End ExtractAlpha.

(* ======================================================================== *)
(** * Theorems *)

Example plane_code_1 : PlaneCodeToDistance 10 1 = 10.
Proof. reflexivity. Qed.

Example copy_distance_5 :
  fst (GetCopyDistance 5 (lbr_init [0xff])) = 8.
Proof. reflexivity. Qed.

(** ** Prefix-coded values *)

(** C5: for every length or distance prefix symbol [k], the decoded value
    is [k + 1] when [k < 4] (no bits read); otherwise the decoder reads
    [extra = (k - 2) >> 1] bits [e] and the value is
    [((2 + (k & 1)) << extra) + e + 1].  GetCopyLength decodes the same way. *)
Theorem copy_prefix_value {BR : Type} `{VP8LBitReader BR} :
  forall (k : Z) (br : BR),
    (k < 4 ->
       GetCopyDistance k br = (k + 1, br) /\ GetCopyLength k br = (k + 1, br)) /\
    (4 <= k ->
       forall e br',
         VP8LReadBits br (Z.shiftr (k - 2) 1) = (e, br') ->
         GetCopyDistance k br
           = (Z.shiftl (2 + Z.land k 1) (Z.shiftr (k - 2) 1) + e + 1, br') /\
         GetCopyLength k br
           = (Z.shiftl (2 + Z.land k 1) (Z.shiftr (k - 2) 1) + e + 1, br')).
Proof.
  intros k br; split.
  - intros Hk. unfold GetCopyLength, GetCopyDistance.
    replace (k <? 4) with true by (symmetry; apply Z.ltb_lt; exact Hk).
    split; reflexivity.
  - intros Hk e br' Hr. unfold GetCopyLength, GetCopyDistance.
    replace (k <? 4) with false by (symmetry; apply Z.ltb_ge; exact Hk).
    rewrite Hr. split; reflexivity.
Qed.

Lemma copy_prefix_value_witness :
  (GetCopyDistance 5 (lbr_init [0xff]) = (8, lbr_set_bit_pos (lbr_init [0xff]) 1))
  /\ VP8LReadBits (lbr_init [0xff]) (Z.shiftr (5 - 2) 1)
     = (1, lbr_set_bit_pos (lbr_init [0xff]) 1).
Proof.
  split; [|reflexivity].
  destruct (copy_prefix_value 5 (lbr_init [0xff])) as [_ H4].
  destruct (H4 ltac:(lia) 1 (lbr_set_bit_pos (lbr_init [0xff]) 1)
              ltac:(reflexivity)) as [Hd _].
  rewrite Hd. reflexivity.
Defined.

(** ** 2-D distances *)

(** C6: for every raster width, codes 1..120 index the 120-entry table
    kCodeToPlane of (y, x) = (entry >> 4, entry & 0xf) offsets and yield
    [y * width + (8 - x)] clamped to at least 1; every code above 120
    yields [code - 120]. *)
Theorem plane_code_distance :
  length kCodeToPlane = 120%nat /\
  forall xsize code,
    (1 <= code <= 120 ->
       let entry := nth (Z.to_nat (code - 1)) kCodeToPlane 0 in
       PlaneCodeToDistance xsize code
         = Z.max 1 (Z.shiftr entry 4 * xsize + (8 - Z.land entry 0xf))) /\
    (120 < code -> PlaneCodeToDistance xsize code = code - 120).
Proof.
  split; [reflexivity|]. intros xsize code; split.
  - intros Hc entry. unfold PlaneCodeToDistance, CODE_TO_PLANE_CODES.
    replace (120 <? code) with false by (symmetry; apply Z.ltb_ge; lia).
    fold entry.
    destruct (1 <=? Z.shiftr entry 4 * xsize + (8 - Z.land entry 15)) eqn:E.
    + apply Z.leb_le in E. lia.
    + apply Z.leb_gt in E. lia.
  - intros Hc. unfold PlaneCodeToDistance, CODE_TO_PLANE_CODES.
    replace (120 <? code) with true by (symmetry; apply Z.ltb_lt; lia).
    reflexivity.
Qed.

Lemma plane_code_distance_witness :
  PlaneCodeToDistance 1 1 = 1 /\ PlaneCodeToDistance 7 200 = 80.
Proof.
  destruct plane_code_distance as [_ H].
  split.
  - destruct (H 1 1) as [H1 _]. rewrite (H1 ltac:(lia)). reflexivity.
  - destruct (H 7 200) as [_ H2]. rewrite (H2 ltac:(lia)). reflexivity.
Defined.

(** ** Palette expansion *)

Lemma expand_black_tail_below :
  forall n nd i p, p < i -> expand_black_tail nd i n p = nd p.
Proof.
  induction n as [|n IH]; intros nd i p Hp; simpl; [reflexivity|].
  rewrite IH by lia. unfold upd. replace (p =? i) with false by lia.
  reflexivity.
Qed.

Lemma expand_black_tail_zero :
  forall n nd i p, i <= p < i + Z.of_nat n -> expand_black_tail nd i n p = 0.
Proof.
  induction n as [|n IH]; intros nd i p Hp; simpl.
  - lia.
  - destruct (Z.eq_dec p i) as [->|Hne].
    + rewrite expand_black_tail_below by lia. unfold upd.
      rewrite Z.eqb_refl. reflexivity.
    + apply IH. lia.
Qed.

Lemma land_ones_bound : forall x n, 0 <= n -> 0 <= Z.land x (Z.ones n) < 2 ^ n.
Proof.
  intros x n Hn. rewrite Z.land_ones by exact Hn.
  apply Z.mod_pos_bound. apply Z.pow_pos_nonneg; lia.
Qed.

Lemma expand_color_map_tail :
  forall num_colors bits data fresh k,
    1 <= num_colors -> num_colors <= k < final_num_colors bits ->
    word_of_bytes (ExpandColorMap num_colors bits data fresh) k = 0.
Proof.
  intros num_colors bits data fresh k Hn Hk. unfold ExpandColorMap.
  set (nd1 := expand_accumulate _ _ _ _).
  replace (Z.max 4 (4 * num_colors)) with (4 * num_colors) by lia.
  unfold word_of_bytes.
  rewrite !expand_black_tail_zero by (rewrite Z2Nat.id; lia).
  reflexivity.
Qed.

Lemma color_indexing_bits_cases :
  forall num_colors, 1 <= num_colors <= 256 ->
    (color_indexing_bits num_colors = 0 /\ num_colors <= 256) \/
    (color_indexing_bits num_colors = 1 /\ num_colors <= 16) \/
    (color_indexing_bits num_colors = 2 /\ num_colors <= 4) \/
    (color_indexing_bits num_colors = 3 /\ num_colors <= 2).
Proof.
  intros n Hn. unfold color_indexing_bits.
  destruct (16 <? n) eqn:E1; [left; split; [reflexivity|lia]|].
  destruct (4 <? n) eqn:E2; [right; left; split; [reflexivity|lia]|].
  destruct (2 <? n) eqn:E3; [right; right; left; split; [reflexivity|lia]|].
  right; right; right; split; [reflexivity|lia].
Qed.

(** C10: for every declared palette size [num_colors] in [1, 256], the
    packing bits chosen by ReadTransform satisfy
    [num_colors <= 1 << (8 >> bits)]; ExpandColorMap makes every entry of
    the expanded palette at an index in [num_colors, 1 << (8 >> bits)) the
    transparent black 0x00000000, whatever the uninitialised contents of the
    allocation; and every colour index extracted from a packed green byte
    lies within the expanded table. *)
Theorem palette_expansion_safe :
  forall num_colors (data fresh : mem),
    1 <= num_colors <= 256 ->
    let bits := color_indexing_bits num_colors in
    let final := final_num_colors bits in
    num_colors <= final /\
    (forall k, num_colors <= k < final ->
       word_of_bytes (ExpandColorMap num_colors bits data fresh) k = 0) /\
    (forall packed j, 0 <= color_index_of bits packed j < final).
Proof.
  intros num_colors data fresh Hn. cbv zeta.
  split; [|split].
  - destruct (color_indexing_bits_cases num_colors Hn)
      as [[E F]|[[E F]|[[E F]|[E F]]]]; rewrite E;
      match goal with
      | |- context [final_num_colors ?b] =>
          let v := eval vm_compute in (final_num_colors b) in
          change (final_num_colors b) with v
      end; lia.
  - intros k Hk. apply expand_color_map_tail; lia.
  - intros packed j. unfold color_index_of.
    destruct (color_indexing_bits_cases num_colors Hn)
      as [[E F]|[[E F]|[[E F]|[E F]]]]; rewrite E; simpl Z.eqb; cbv iota.
    + change 0xff with (Z.ones 8). apply (land_ones_bound _ 8). lia.
    + change (Z.shiftl 1 (Z.shiftr 8 1) - 1) with (Z.ones 4).
      apply (land_ones_bound _ 4). lia.
    + change (Z.shiftl 1 (Z.shiftr 8 2) - 1) with (Z.ones 2).
      apply (land_ones_bound _ 2). lia.
    + change (Z.shiftl 1 (Z.shiftr 8 3) - 1) with (Z.ones 1).
      apply (land_ones_bound _ 1). lia.
Qed.

Lemma palette_expansion_safe_witness :
  1 <= 3 <= 256 /\
  word_of_bytes (ExpandColorMap 3 (color_indexing_bits 3)
                   (fun _ => 0xff00ff00) (fun _ => 7)) 3 = 0.
Proof.
  split; [lia|].
  destruct (palette_expansion_safe 3 (fun _ => 0xff00ff00) (fun _ => 7)
              ltac:(lia)) as [_ [Hz _]].
  apply Hz. cbv. split; congruence.
Defined.

(** ** The copy engine *)

Lemma lor_disjoint_add :
  forall a b k, 0 <= k -> 0 <= a < 2 ^ k -> Z.lor a (b * 2 ^ k) = a + b * 2 ^ k.
Proof.
  intros a b k Hk Ha.
  assert (Hl : Z.land a (b * 2 ^ k) = 0).
  { apply Z.bits_inj'. intros i Hi. rewrite Z.land_spec, Z.bits_0.
    destruct (Z.lt_ge_cases i k).
    - rewrite Z.mul_pow2_bits_low by lia. apply andb_false_r.
    - rewrite <- (Z.mod_small a (2 ^ k)) by lia.
      rewrite Z.mod_pow2_bits_high by lia. reflexivity. }
  rewrite <- Z.lxor_lor by exact Hl. rewrite Z.add_nocarry_lxor by exact Hl.
  reflexivity.
Qed.

Lemma low_digit_div : forall b X B, 0 < B -> 0 <= b < B -> (b + B * X) / B = X.
Proof.
  intros b X B HB Hb. rewrite Z.mul_comm, Z.div_add by lia.
  rewrite Z.div_small by lia. ring.
Qed.

Lemma low_digit_mod : forall b X B, 0 < B -> 0 <= b < B -> (b + B * X) mod B = b.
Proof.
  intros b X B HB Hb. rewrite Z.mul_comm, Z.mod_add by lia.
  apply Z.mod_small; lia.
Qed.

Lemma land_1_mod2 : forall x, Z.land x 1 = x mod 2.
Proof. intros x. change 1 with (Z.ones 1). rewrite Z.land_ones by lia. reflexivity. Qed.

(** Two uint32_t words [a] (low) and [b] (high) as one uint64_t. *)
Lemma pat2_store :
  forall m q a b, 0 <= a < 2 ^ 32 -> 0 <= b < 2 ^ 32 ->
    store64 m q (pat2 a b) = upd (upd m q a) (q + 1) b.
Proof.
  intros m q a b Ha Hb. unfold store64, pat2.
  rewrite Z.mod_add by lia. rewrite Z.mod_small by lia.
  rewrite Z.div_add by lia. rewrite (Z.div_small a) by lia.
  rewrite Z.add_0_l, Z.mod_small by lia. reflexivity.
Qed.

Lemma pat2_rotate :
  forall a b, 0 <= a < 2 ^ 32 -> 0 <= b < 2 ^ 32 ->
    u64 (Z.lor (Z.shiftr (pat2 a b) 32) (Z.shiftl (pat2 a b) 32)) = pat2 b a.
Proof.
  intros a b Ha Hb. unfold u64, pat2.
  rewrite Z.shiftr_div_pow2, Z.shiftl_mul_pow2 by lia.
  rewrite Z.div_add by lia. rewrite (Z.div_small a), Z.add_0_l by lia.
  rewrite lor_disjoint_add by lia.
  rewrite Z.land_ones by lia.
  replace (b + (a + b * 2 ^ 32) * 2 ^ 32) with ((b + a * 2 ^ 32) + b * 2 ^ 64)
    by (change (2 ^ 64) with (2 ^ 32 * 2 ^ 32); ring).
  rewrite Z.mod_add by lia. apply Z.mod_small.
  change (2 ^ 64) with (2 ^ 32 * 2 ^ 32). nia.
Qed.

Lemma pat2_dup :
  forall s, 0 <= s < 2 ^ 32 -> u64 (Z.lor s (Z.shiftl s 32)) = pat2 s s.
Proof.
  intros s Hs. unfold u64, pat2.
  rewrite Z.shiftl_mul_pow2, lor_disjoint_add, Z.land_ones by lia.
  apply Z.mod_small. change (2 ^ 64) with (2 ^ 32 * 2 ^ 32). nia.
Qed.

(** Four bytes as one uint32_t. *)
Lemma pat4_store :
  forall m q b0 b1 b2 b3, is_byte b0 -> is_byte b1 -> is_byte b2 -> is_byte b3 ->
    store32_bytes m q (pat4 b0 b1 b2 b3)
    = upd (upd (upd (upd m q b0) (q + 1) b1) (q + 2) b2) (q + 3) b3.
Proof.
  unfold is_byte, store32_bytes, pat4.
  intros m q b0 b1 b2 b3 H0 H1 H2 H3.
  rewrite !low_digit_div by lia. rewrite !low_digit_mod by lia.
  rewrite (Z.mod_small b3) by lia. reflexivity.
Qed.

Lemma pat4_rotate :
  forall b0 b1 b2 b3, is_byte b0 -> is_byte b1 -> is_byte b2 -> is_byte b3 ->
    Rotate8b (pat4 b0 b1 b2 b3) = pat4 b1 b2 b3 b0.
Proof.
  unfold is_byte, Rotate8b.
  intros b0 b1 b2 b3 H0 H1 H2 H3.
  change 0xff with (Z.ones 8). rewrite Z.land_ones by lia.
  rewrite Z.shiftl_mul_pow2, Z.shiftr_div_pow2 by lia.
  change (2 ^ 8) with 256. unfold pat4.
  rewrite low_digit_mod, low_digit_div by lia.
  rewrite Z.lor_comm, lor_disjoint_add by (try change (2 ^ 24) with 16777216; nia).
  change (2 ^ 24) with 16777216. ring.
Qed.

Lemma pat4_dup1 : forall s, is_byte s -> u32 (0x01010101 * s) = pat4 s s s s.
Proof.
  unfold is_byte, u32, pat4. intros s Hs.
  rewrite Z.land_ones by lia. rewrite Z.mod_small by (change (2 ^ 32) with 4294967296; lia).
  ring.
Qed.

Lemma pat4_dup2 :
  forall s0 s1, is_byte s0 -> is_byte s1 ->
    u32 (0x00010001 * (s0 + 256 * s1)) = pat4 s0 s1 s0 s1.
Proof.
  unfold is_byte, u32, pat4. intros s0 s1 H0 H1.
  rewrite Z.land_ones by lia. rewrite Z.mod_small by (change (2 ^ 32) with 4294967296; lia).
  ring.
Qed.

Section CopyProofs.
Variables (old : mem) (d D : Z).

Lemma copied_run_init : copied_run old old d D d.
Proof. split; intros p Hp; [reflexivity|lia]. Qed.

Lemma copied_run_step :
  forall m q, 1 <= D -> d <= q -> copied_run old m d D q ->
    copied_run old (upd m q (m (q - D))) d D (q + 1).
Proof.
  intros m q HD Hq [Hlo Hrun]. split.
  - intros p Hp. unfold upd. destruct (Z.eqb_spec p q); [lia|]. apply Hlo, Hp.
  - intros p Hp. unfold upd. destruct (Z.eqb_spec p q) as [->|Hne].
    + destruct (Z_lt_le_dec (q - D) d) as [Hlt|Hge].
      * rewrite Hlo by exact Hlt. f_equal.
        rewrite Z.mod_small by lia. ring.
      * rewrite Hrun by lia. f_equal. f_equal.
        replace (q - D - d) with ((q - d) + (-1) * D) by ring.
        apply Z.mod_add. lia.
    + apply Hrun. lia.
Qed.

Lemma copy_elems_run :
  forall n m q, 1 <= D -> d <= q -> copied_run old m d D q ->
    copied_run old (copy_elems m q (q - D) n) d D (q + Z.of_nat n).
Proof.
  induction n as [|n IH]; intros m q HD Hq Hr; simpl.
  - rewrite Z.add_0_r. exact Hr.
  - replace (q - D + 1) with ((q + 1) - D) by ring.
    replace (q + Z.pos (Pos.of_succ_nat n)) with ((q + 1) + Z.of_nat n) by lia.
    apply IH; [exact HD|lia|]. apply copied_run_step; assumption.
Qed.

Lemma copied_run_result :
  forall m L, copied_run old m d D (d + L) ->
    forall i, 0 <= i < L -> m (d + i) = old (d - D + i mod D).
Proof.
  intros m L [_ Hr] i Hi. rewrite Hr by lia. f_equal. f_equal. f_equal. ring.
Qed.

Lemma run_value_succ : forall q j, run_value old d D (q + 1) j = run_value old d D q (j + 1).
Proof. intros q j. unfold run_value. f_equal. f_equal. f_equal. ring. Qed.

Lemma run_value_period :
  forall q j k, 1 <= D -> k mod D = 0 ->
    run_value old d D q (j + k) = run_value old d D q j.
Proof.
  intros q j k HD Hk. unfold run_value. f_equal. f_equal.
  replace (q + (j + k) - d) with ((q + j - d) + k) by ring.
  rewrite Zplus_mod, Hk, Z.add_0_r, Z.mod_mod by lia. reflexivity.
Qed.

Lemma run_value_shift :
  forall q k j, 1 <= D -> k mod D = 0 ->
    run_value old d D (q + k) j = run_value old d D q j.
Proof.
  intros q k j HD Hk. unfold run_value. f_equal. f_equal.
  replace (q + k + j - d) with ((q + j - d) + k) by ring.
  rewrite Zplus_mod, Hk, Z.add_0_r, Z.mod_mod by lia. reflexivity.
Qed.

Lemma run_value_at : forall q j, run_value old d D q j = run_value old d D (q + j) 0.
Proof. intros q j. unfold run_value. f_equal. f_equal. f_equal. ring. Qed.

Lemma copied_run_put :
  forall m q, d <= q -> copied_run old m d D q ->
    copied_run old (upd m q (run_value old d D q 0)) d D (q + 1).
Proof.
  intros m q Hq [Hlo Hrun]. split.
  - intros p Hp. unfold upd. destruct (Z.eqb_spec p q); [lia|]. apply Hlo, Hp.
  - intros p Hp. unfold upd. destruct (Z.eqb_spec p q) as [->|Hne].
    + unfold run_value. f_equal. f_equal. f_equal. ring.
    + apply Hrun. lia.
Qed.

Lemma store_pattern64_run :
  forall n m q, (D = 1 \/ D = 2) -> d <= q ->
    (forall p, 0 <= old p < 2 ^ 32) -> copied_run old m d D q ->
    copied_run old
      (store_pattern64 m q
         (pat2 (run_value old d D q 0) (run_value old d D q 1)) n)
      d D (q + 2 * Z.of_nat n).
Proof.
  induction n as [|n IH]; intros m q HD Hq Hb Hr; cbn [store_pattern64].
  - rewrite Z.add_0_r. exact Hr.
  - rewrite pat2_store by (unfold run_value; apply Hb).
    set (m2 := upd (upd m q _) _ _).
    assert (Hper : forall j, run_value old d D (q + 2) j = run_value old d D q j).
    { intros j. apply run_value_shift; destruct HD as [-> | ->]; reflexivity || lia. }
    rewrite <- (Hper 0), <- (Hper 1).
    replace (q + 2 * Z.of_nat (S n)) with ((q + 2) + 2 * Z.of_nat n) by lia.
    apply IH; [exact HD|lia|exact Hb|]. subst m2.
    replace (q + 2) with ((q + 1) + 1) by ring.
    rewrite (run_value_at q 1). apply copied_run_put; [lia|].
    apply copied_run_put; assumption.
Qed.

Lemma copy_small_pattern32b_run :
  forall L, (D = 1 \/ D = 2) -> 4 <= L -> (forall p, 0 <= old p < 2 ^ 32) ->
    copied_run old
      (CopySmallPattern32b old (d - D) d L
         (pat2 (run_value old d D d 0) (run_value old d D d 1)))
      d D (d + L).
Proof.
  intros L HD HL Hb.
  assert (HD1 : 1 <= D) by lia.
  assert (Hper2 : forall q j, run_value old d D q (j + 2) = run_value old d D q j).
  { intros q j. apply run_value_period; destruct HD as [-> | ->]; reflexivity || lia. }
  unfold CopySmallPattern32b.
  destruct (negb (Z.land (4 * d) 4 =? 0)).
  - cbv beta iota zeta.
    rewrite pat2_rotate by (unfold run_value; apply Hb).
    assert (E0 : run_value old d D d 1 = run_value old d D (d + 1) 0)
      by apply run_value_at.
    assert (E1 : run_value old d D d 0 = run_value old d D (d + 1) 1).
    { rewrite (run_value_at (d + 1) 1), <- (Hper2 d 0), (run_value_at d (0 + 2)).
      f_equal. ring. }
    rewrite E0, E1.
    assert (Hr1 : copied_run old (upd old d (old (d - D))) d D (d + 1))
      by (apply copied_run_step; [exact HD1|lia|apply copied_run_init]).
    rewrite Z.shiftr_div_pow2, Z.shiftl_mul_pow2 by lia.
    rewrite land_1_mod2. change (2 ^ 1) with 2.
    pose proof (Z.div_mod (L - 1) 2 ltac:(lia)) as Hdm.
    pose proof (Z.mod_pos_bound (L - 1) 2 ltac:(lia)) as Hmb.
    remember ((L - 1) / 2) as n eqn:En.
    assert (Hn : 0 <= n) by (rewrite En; apply Z.div_pos; lia).
    pose proof (store_pattern64_run (Z.to_nat n) _ (d + 1) HD ltac:(lia) Hb Hr1)
      as Hs.
    rewrite Z2Nat.id in Hs by exact Hn.
    destruct (negb ((L - 1) mod 2 =? 0)) eqn:Ep; cbv beta iota.
    + replace (d - D + 1 + n * 2) with ((d + 1 + n * 2) - D) by ring.
      replace (d + L) with ((d + 1 + n * 2) + 1)
        by (apply negb_true_iff, Z.eqb_neq in Ep; lia).
      apply copied_run_step; [exact HD1|lia|].
      replace (d + 1 + n * 2) with (d + 1 + 2 * n) by ring. exact Hs.
    + replace (d + L) with (d + 1 + 2 * n)
        by (apply negb_false_iff, Z.eqb_eq in Ep; lia).
      exact Hs.
  - cbv beta iota zeta.
    rewrite Z.shiftr_div_pow2, Z.shiftl_mul_pow2 by lia.
    rewrite land_1_mod2. change (2 ^ 1) with 2.
    pose proof (Z.div_mod L 2 ltac:(lia)) as Hdm.
    pose proof (Z.mod_pos_bound L 2 ltac:(lia)) as Hmb.
    remember (L / 2) as n eqn:En.
    assert (Hn : 0 <= n) by (rewrite En; apply Z.div_pos; lia).
    pose proof (store_pattern64_run (Z.to_nat n) _ d HD ltac:(lia) Hb
                  copied_run_init) as Hs.
    rewrite Z2Nat.id in Hs by exact Hn.
    destruct (negb (L mod 2 =? 0)) eqn:Ep; cbv beta iota.
    + replace (d - D + n * 2) with ((d + n * 2) - D) by ring.
      replace (d + L) with ((d + n * 2) + 1)
        by (apply negb_true_iff, Z.eqb_neq in Ep; lia).
      apply copied_run_step; [exact HD1|lia|].
      replace (d + n * 2) with (d + 2 * n) by ring. exact Hs.
    + replace (d + L) with (d + 2 * n)
        by (apply negb_false_iff, Z.eqb_eq in Ep; lia).
      exact Hs.
Qed.

Lemma copy_block32b_run :
  forall L, 1 <= D < L -> (forall p, 0 <= old p < 2 ^ 32) ->
    copied_run old (CopyBlock32b old d D L) d D (d + L).
Proof.
  intros L HDL Hb. unfold CopyBlock32b.
  destruct ((D <=? 2) && (4 <=? L) && (Z.land (4 * d) 3 =? 0)) eqn:E.
  - apply andb_true_iff in E as [E _]. apply andb_true_iff in E as [E1 E2].
    apply Z.leb_le in E1. apply Z.leb_le in E2.
    assert (HD : D = 1 \/ D = 2) by lia.
    replace (if D =? 1 then u64 (Z.lor (old (d - D)) (Z.shiftl (old (d - D)) 32))
             else load64 old (d - D))
      with (pat2 (run_value old d D d 0) (run_value old d D d 1)).
    + apply copy_small_pattern32b_run; assumption.
    + unfold run_value. replace (d + 0 - d) with 0 by ring.
      replace (d + 1 - d) with 1 by ring.
      destruct HD as [-> | ->]; simpl Z.eqb; cbv iota.
      * rewrite pat2_dup by apply Hb. rewrite !Z.mod_1_r, Z.add_0_r. reflexivity.
      * unfold load64, pat2. rewrite Z.mod_0_l by lia. rewrite Z.add_0_r.
        reflexivity.
  - replace (L <=? D) with false by (symmetry; apply Z.leb_gt; lia).
    pose proof (copy_elems_run (Z.to_nat L) old d ltac:(lia) ltac:(lia)
                  copied_run_init) as H.
    rewrite Z2Nat.id in H by lia. exact H.
Qed.

Lemma run_value_rotate :
  forall q, 1 <= D -> 4 mod D = 0 -> (forall p, is_byte (old p)) ->
    Rotate8b (pat4 (run_value old d D q 0) (run_value old d D q 1)
                   (run_value old d D q 2) (run_value old d D q 3))
    = pat4 (run_value old d D (q + 1) 0) (run_value old d D (q + 1) 1)
           (run_value old d D (q + 1) 2) (run_value old d D (q + 1) 3).
Proof.
  intros q HD H4 Hb. rewrite pat4_rotate by (unfold run_value; apply Hb).
  rewrite !run_value_succ. f_equal.
  replace (3 + 1) with (0 + 4) by ring. symmetry. apply run_value_period; assumption.
Qed.

Lemma store_pattern32_run :
  forall n m q, 1 <= D -> 4 mod D = 0 -> d <= q ->
    (forall p, is_byte (old p)) -> copied_run old m d D q ->
    copied_run old
      (store_pattern32 m q
         (pat4 (run_value old d D q 0) (run_value old d D q 1)
               (run_value old d D q 2) (run_value old d D q 3)) n)
      d D (q + 4 * Z.of_nat n).
Proof.
  induction n as [|n IH]; intros m q HD H4 Hq Hb Hr; cbn [store_pattern32].
  - rewrite Z.add_0_r. exact Hr.
  - rewrite pat4_store by (unfold run_value; apply Hb).
    set (m2 := upd (upd (upd (upd m q _) _ _) _ _) _ _).
    assert (Hper : forall j, run_value old d D (q + 4) j = run_value old d D q j)
      by (intros j; apply run_value_shift; assumption).
    rewrite <- (Hper 0), <- (Hper 1), <- (Hper 2), <- (Hper 3).
    replace (q + 4 * Z.of_nat (S n)) with ((q + 4) + 4 * Z.of_nat n) by lia.
    apply IH; [exact HD|exact H4|lia|exact Hb|]. subst m2.
    replace (q + 4) with (((q + 1) + 1 + 1) + 1) by ring.
    rewrite (run_value_at q 1), (run_value_at q 2), (run_value_at q 3).
    replace (q + 2) with (q + 1 + 1) by ring.
    replace (q + 3) with (q + 1 + 1 + 1) by ring.
    apply copied_run_put; [lia|]. apply copied_run_put; [lia|].
    apply copied_run_put; [lia|]. apply copied_run_put; [lia|exact Hr].
Qed.

Lemma align_pattern8b_run :
  forall fuel m q len m' s' q' len' P',
    1 <= D -> 4 mod D = 0 -> d <= q -> (forall p, is_byte (old p)) ->
    copied_run old m d D q ->
    align_pattern8b fuel m (q - D) q len
      (pat4 (run_value old d D q 0) (run_value old d D q 1)
            (run_value old d D q 2) (run_value old d D q 3))
    = (m', s', q', len', P') ->
    exists k, 0 <= k <= Z.of_nat fuel /\ q' = q + k /\ s' = q' - D /\
      len' = len - k /\ copied_run old m' d D q' /\
      P' = pat4 (run_value old d D q' 0) (run_value old d D q' 1)
                (run_value old d D q' 2) (run_value old d D q' 3).
Proof.
  induction fuel as [|fuel IH]; intros m q len m' s' q' len' P' HD H4 Hq Hb Hr E;
    cbn [align_pattern8b] in E.
  - inversion E; subst. exists 0. do 4 (split; [lia|]). split; [assumption|reflexivity].
  - destruct (Z.land q 3 =? 0).
    + inversion E; subst. exists 0. do 4 (split; [lia|]). split; [assumption|reflexivity].
    + rewrite run_value_rotate in E by assumption.
      replace (q - D + 1) with ((q + 1) - D) in E by ring.
      apply IH in E; [|exact HD|exact H4|lia|exact Hb|].
      * destruct E as [k [Hk [-> [-> [-> [Hr' ->]]]]]].
        exists (k + 1). replace (q + (k + 1)) with (q + 1 + k) by ring.
        split; [lia|]. split; [reflexivity|]. split; [reflexivity|].
        split; [lia|]. split; [exact Hr'|reflexivity].
      * apply copied_run_step; assumption.
Qed.

Lemma copy_small_pattern8b_run :
  forall L, 1 <= D -> 4 mod D = 0 -> 8 <= L -> (forall p, is_byte (old p)) ->
    copied_run old
      (CopySmallPattern8b old (d - D) d L
         (pat4 (run_value old d D d 0) (run_value old d D d 1)
               (run_value old d D d 2) (run_value old d D d 3)))
      d D (d + L).
Proof.
  intros L HD H4 HL Hb. unfold CopySmallPattern8b.
  destruct (align_pattern8b 4 old (d - D) d L _) as [[[[m1 s1] q1] L1] P1] eqn:E.
  apply align_pattern8b_run in E;
    [|exact HD|exact H4|lia|exact Hb|apply copied_run_init].
  destruct E as [k [Hk [-> [-> [-> [Hr ->]]]]]].
  change (Z.of_nat 4) with 4 in Hk.
  rewrite Z.shiftr_div_pow2, Z.shiftl_mul_pow2 by lia.
  change (2 ^ 2) with 4.
  pose proof (Z.div_mod (L - k) 4 ltac:(lia)) as Hdm.
  pose proof (Z.mod_pos_bound (L - k) 4 ltac:(lia)) as Hmb.
  remember ((L - k) / 4) as n eqn:En.
  assert (Hn : 0 <= n) by (rewrite En; apply Z.div_pos; lia).
  pose proof (store_pattern32_run (Z.to_nat n) _ (d + k) HD H4 ltac:(lia) Hb Hr)
    as Hs.
  rewrite Z2Nat.id in Hs by exact Hn.
  replace (d + k - D + n * 4) with ((d + k + n * 4) - D) by ring.
  replace (d + k + 4 * n) with (d + k + n * 4) in Hs by ring.
  pose proof (copy_elems_run (Z.to_nat (L - k - n * 4)) _ (d + k + n * 4) HD
                ltac:(lia) Hs) as Hc.
  rewrite Z2Nat.id in Hc by lia.
  replace (d + L) with (d + k + n * 4 + (L - k - n * 4)) by ring.
  exact Hc.
Qed.

Lemma copy_block8b_run :
  forall L, 1 <= D < L -> (forall p, is_byte (old p)) ->
    copied_run old (CopyBlock8b old d D L) d D (d + L).
Proof.
  intros L HDL Hb. unfold CopyBlock8b.
  assert (Hcopy : copied_run old
     (if L <=? D then memcpy_elems old d (d - D) L
      else copy_elems old d (d - D) (Z.to_nat L)) d D (d + L)).
  { replace (L <=? D) with false by (symmetry; apply Z.leb_gt; lia).
    pose proof (copy_elems_run (Z.to_nat L) old d ltac:(lia) ltac:(lia)
                  copied_run_init) as H.
    rewrite Z2Nat.id in H by lia. exact H. }
  assert (Hrv : forall j, 0 <= j < D -> run_value old d D d j = old (d - D + j)).
  { intros j Hj. unfold run_value. replace (d + j - d) with j by ring.
    rewrite Z.mod_small by lia. reflexivity. }
  assert (Hrp : forall j, 4 mod D = 0 -> 0 <= j < 4 ->
            run_value old d D d j = old (d - D + j mod D)).
  { intros j _ Hj. unfold run_value. replace (d + j - d) with j by ring.
    reflexivity. }
  destruct (8 <=? L) eqn:E8; [|exact Hcopy].
  apply Z.leb_le in E8.
  destruct (Z.eqb_spec D 1) as [E1|N1].
  - assert (H4 : 4 mod D = 0) by (rewrite E1; reflexivity).
    replace (u32 (0x01010101 * old (d - D)))
      with (pat4 (run_value old d D d 0) (run_value old d D d 1)
                 (run_value old d D d 2) (run_value old d D d 3)).
    + apply copy_small_pattern8b_run; [lia|exact H4|exact E8|exact Hb].
    + rewrite pat4_dup1 by apply Hb.
      rewrite !Hrp by (exact H4 || lia). rewrite E1, !Z.mod_1_r, Z.add_0_r.
      reflexivity.
  - destruct (Z.eqb_spec D 2) as [E2|N2].
    + assert (H4 : 4 mod D = 0) by (rewrite E2; reflexivity).
      replace (u32 (0x00010001 * (old (d - D) + 256 * old (d - D + 1))))
        with (pat4 (run_value old d D d 0) (run_value old d D d 1)
                   (run_value old d D d 2) (run_value old d D d 3)).
      * apply copy_small_pattern8b_run; [lia|exact H4|exact E8|exact Hb].
      * rewrite pat4_dup2 by apply Hb.
        rewrite !Hrp by (exact H4 || lia). rewrite E2.
        change (0 mod 2) with 0. change (1 mod 2) with 1.
        change (2 mod 2) with 0. change (3 mod 2) with 1.
        rewrite Z.add_0_r. reflexivity.
    + destruct (Z.eqb_spec D 4) as [E4|N4]; [|exact Hcopy].
      assert (H4 : 4 mod D = 0) by (rewrite E4; reflexivity).
      replace (load32_bytes old (d - D))
        with (pat4 (run_value old d D d 0) (run_value old d D d 1)
                   (run_value old d D d 2) (run_value old d D d 3)).
      * apply copy_small_pattern8b_run; [lia|exact H4|exact E8|exact Hb].
      * unfold load32_bytes, pat4. rewrite !Hrv by lia.
        rewrite Z.add_0_r. reflexivity.
Qed.

End CopyProofs.


(** Claim C1: a back-reference copy of [length] elements at distance
    [dist] with [1 <= dist < length] produces the run-length pattern: the
    element at [dst + i], [0 <= i < length], equals the element that
    [dst - dist + i mod dist] held before the copy.  This holds for
    CopyBlock32b (its 64-bit small-pattern path for [dist] in {1, 2}, the
    element loop otherwise) over the raster of uint32_t words, and for
    CopyBlock8b (its 32-bit small-pattern path for [dist] in {1, 2, 4}, the
    element loop otherwise) over a byte buffer. *)
Theorem copy_block_run_length :
  (forall (raster : mem) (dst dist length : Z),
     (forall p, 0 <= raster p < 2 ^ 32) -> 1 <= dist < length ->
     forall i, 0 <= i < length ->
       CopyBlock32b raster dst dist length (dst + i)
       = raster (dst - dist + i mod dist)) /\
  (forall (data : mem) (dst dist length : Z),
     (forall p, 0 <= data p < 256) -> 1 <= dist < length ->
     forall i, 0 <= i < length ->
       CopyBlock8b data dst dist length (dst + i)
       = data (dst - dist + i mod dist)).
Proof.
  split.
  - intros raster dst dist length Hb HDL i Hi.
    apply (copied_run_result raster dst dist _ length); [|exact Hi].
    apply copy_block32b_run; assumption.
  - intros data dst dist length Hb HDL i Hi.
    apply (copied_run_result data dst dist _ length); [|exact Hi].
    apply copy_block8b_run; [exact HDL|]. intros p. apply Hb.
Qed.

Lemma copy_block_run_length_witness :
  let raster := fun p => if p =? 0 then 7 else if p =? 1 then 9 else 0 in
  CopyBlock32b raster 2 2 5 (2 + 3) = raster (2 - 2 + 3 mod 2) /\
  CopyBlock8b raster 2 2 9 (2 + 7) = raster (2 - 2 + 7 mod 2) /\
  raster (2 - 2 + 7 mod 2) = 9.
Proof.
  intros raster.
  assert (Hb : forall p, 0 <= raster p < 256).
  { intros p. unfold raster. destruct (p =? 0), (p =? 1); lia. }
  split; [|split].
  - apply (proj1 copy_block_run_length); [|lia|lia].
    intros p. specialize (Hb p). lia.
  - apply (proj2 copy_block_run_length); [exact Hb|lia|lia].
  - reflexivity.
Defined.

(* ------------------------------------------------------------------------ *)
(** ** Literals of trivial groups *)

Lemma mask_bound : forall v, 0 <= Z.land v HUFFMAN_TABLE_MASK <= HUFFMAN_TABLE_MASK.
Proof.
  intros v. change HUFFMAN_TABLE_MASK with (Z.ones 8).
  pose proof (land_ones_bound v 8 ltac:(lia)) as Hb.
  change (2 ^ 8) with 256 in Hb. change (Z.ones 8) with 255 in *. lia.
Qed.

Lemma ReadSymbol_single {BR : Type} `{VP8LBitReader BR} :
  forall table v br,
    (forall k, 0 <= k <= HUFFMAN_TABLE_MASK -> table k = mkHuffmanCode 0 v) ->
    fst (ReadSymbol table br) = v.
Proof.
  intros table v br Ht. unfold ReadSymbol.
  rewrite (Ht _ (mask_bound _)). cbn [bits value].
  change (0 <? 0 - HUFFMAN_TABLE_BITS) with false. cbv iota beta.
  rewrite (Ht _ (mask_bound _)). reflexivity.
Qed.

Lemma u32_literal_compose :
  forall alpha red blue code,
    u32 (Z.lor (u32 (Z.lor (Z.lor (Z.shiftl alpha 24) (Z.shiftl red 16)) blue))
               (Z.shiftl code 8))
    = u32 (Z.lor (Z.lor (Z.lor (Z.shiftl alpha 24) (Z.shiftl red 16))
                        (Z.shiftl code 8)) blue).
Proof.
  intros alpha red blue code. unfold u32. apply Z.bits_inj'. intros n Hn.
  rewrite !Z.land_spec, !Z.lor_spec, !Z.land_spec, !Z.lor_spec.
  destruct (Z.testbit (Z.shiftl alpha 24) n), (Z.testbit (Z.shiftl red 16) n),
    (Z.testbit blue n), (Z.testbit (Z.shiftl code 8) n),
    (Z.testbit (Z.ones 32) n); reflexivity.
Qed.

Section AdvanceFrame.
Context {BR CC : Type} `{VP8LColorCache CC}.
Variables (hdr : VP8LMetadata) (width : Z) (process_func : bool).

Lemma process_rows_data : forall (dec : VP8LDecoder BR CC) r,
  data_ (process_rows process_func dec r) = data_ dec.
Proof. intros dec r. unfold process_rows. destruct (_ && _); reflexivity. Qed.

Lemma AdvanceByOne_data : forall ls (dec : VP8LDecoder BR CC),
  data_ (snd (AdvanceByOne hdr width process_func ls dec)) = data_ dec.
Proof.
  intros ls dec. unfold AdvanceByOne.
  destruct (width <=? col ls + 1); [|reflexivity].
  destruct (cache_present hdr); [destruct (flush_cache _ _ _ _)|];
    simpl; apply process_rows_data.
Qed.

End AdvanceFrame.

Lemma BuildHTreeGroup_trivial :
  forall tables red blue alpha,
    tables RED 0 = mkHuffmanCode 0 red ->
    tables BLUE 0 = mkHuffmanCode 0 blue ->
    tables ALPHA 0 = mkHuffmanCode 0 alpha ->
    BuildHTreeGroup tables
    = mkHTreeGroup tables true
        (u32 (Z.lor (Z.lor (Z.shiftl alpha 24) (Z.shiftl red 16)) blue)).
Proof.
  intros tables red blue alpha HR HB HA.
  unfold BuildHTreeGroup, HuffIndices. cbn [fold_left kLiteralMap andb Z.eqb].
  rewrite HR, HB, HA. reflexivity.
Qed.

(** Claim C7: when the red, blue and alpha tables of a group each decode a
    single symbol without consuming bits (every root entry is
    {bits = 0, value = v}), the group built by ReadHuffmanCodes has
    is_trivial_literal set, its literal for green symbol S is
    (alpha<<24)|(red<<16)|(S<<8)|blue (as a uint32_t), the non-trivial path
    reading the three symbols composes the same pixel, and
    DecodeImageData writes that pixel for a literal S. *)
Theorem trivial_literal_pixel :
  forall (BR CC : Type) (HBR : VP8LBitReader BR) (HCC : VP8LColorCache CC)
         (tables : HuffIndex -> HuffmanTable) (red blue alpha : Z),
    (forall k, 0 <= k <= HUFFMAN_TABLE_MASK -> tables RED k = mkHuffmanCode 0 red) ->
    (forall k, 0 <= k <= HUFFMAN_TABLE_MASK -> tables BLUE k = mkHuffmanCode 0 blue) ->
    (forall k, 0 <= k <= HUFFMAN_TABLE_MASK -> tables ALPHA k = mkHuffmanCode 0 alpha) ->
    let g := BuildHTreeGroup tables in
    let pixel code :=
      u32 (Z.lor (Z.lor (Z.lor (Z.shiftl alpha 24) (Z.shiftl red 16))
                        (Z.shiftl code 8)) blue) in
    is_trivial_literal g = true /\
    (forall code (br : BR), DecodeLiteral g code br = (Some (pixel code), br)) /\
    (forall code (br br' : BR) px,
       DecodeLiteral (mkHTreeGroup tables false (literal_arb g)) code br
       = (Some px, br') -> px = pixel code) /\
    (forall hdr width height process_func ls (dec : VP8LDecoder BR CC) code,
       htree_group ls = g -> eos_ (br_ dec) = false ->
       0 <= code < NUM_LITERAL_CODES ->
       exists ls' dec',
         DecodeSymbol hdr width height process_func ls dec code = Continue ls' dec'
         /\ data_ dec' (src ls) = pixel code).
Proof.
  intros BR CC HBR HCC tables red blue alpha HR HB HA g pixel.
  assert (H0 : 0 <= 0 <= HUFFMAN_TABLE_MASK) by (compute; split; discriminate).
  assert (Hg : g = mkHTreeGroup tables true
        (u32 (Z.lor (Z.lor (Z.shiftl alpha 24) (Z.shiftl red 16)) blue)))
    by (apply BuildHTreeGroup_trivial; auto).
  assert (Hlit : forall code (br : BR), DecodeLiteral g code br = (Some (pixel code), br)).
  { intros code br. rewrite Hg. unfold DecodeLiteral. cbn [is_trivial_literal literal_arb].
    unfold pixel. rewrite u32_literal_compose. reflexivity. }
  split; [rewrite Hg; reflexivity|]. split; [exact Hlit|]. split.
  - intros code br br' px E. unfold DecodeLiteral in E.
    cbn [is_trivial_literal htrees] in E.
    destruct (ReadSymbol (tables RED) br) as [r br1] eqn:E1.
    destruct (ReadSymbol (tables BLUE) (VP8LFillBitWindow br1)) as [b br2] eqn:E2.
    destruct (ReadSymbol (tables ALPHA) br2) as [a br3] eqn:E3.
    pose proof (ReadSymbol_single _ _ br HR) as F1. rewrite E1 in F1.
    pose proof (ReadSymbol_single _ _ (VP8LFillBitWindow br1) HB) as F2.
    rewrite E2 in F2.
    pose proof (ReadSymbol_single _ _ br2 HA) as F3. rewrite E3 in F3.
    simpl in F1, F2, F3. subst r b a.
    destruct (eos_ br3); inversion E. reflexivity.
  - intros hdr width height process_func ls dec code Hgl Heos Hc.
    unfold DecodeSymbol. rewrite Heos.
    replace (code <? NUM_LITERAL_CODES) with true by (symmetry; apply Z.ltb_lt; lia).
    rewrite Hgl, Hlit.
    destruct (AdvanceByOne hdr width process_func ls
                (set_data (set_br dec (br_ dec)) (upd (data_ (set_br dec (br_ dec)))
                   (src ls) (pixel code)))) as [ls' dec'] eqn:E.
    exists ls', dec'. split; [reflexivity|].
    pose proof (AdvanceByOne_data hdr width process_func ls
                (set_data (set_br dec (br_ dec)) (upd (data_ (set_br dec (br_ dec)))
                   (src ls) (pixel code)))) as D.
    rewrite E in D. simpl in D. rewrite D. unfold upd. rewrite Z.eqb_refl. reflexivity.
Qed.

Lemma trivial_literal_pixel_witness :
  let tables : HuffIndex -> HuffmanTable := fun j =>
    match j with
    | GREEN => fun _ => mkHuffmanCode 8 7
    | RED => fun _ => mkHuffmanCode 0 255
    | BLUE => fun _ => mkHuffmanCode 0 0
    | ALPHA => fun _ => mkHuffmanCode 0 255
    | DIST => fun _ => mkHuffmanCode 0 0
    end in
  is_trivial_literal (BuildHTreeGroup tables) = true /\
  DecodeLiteral (BuildHTreeGroup tables) 7 (lbr_init [])
  = (Some 0xFFFF0700, lbr_init []).
Proof.
  intros tables.
  destruct (trivial_literal_pixel LBitReader (list Z) _ _ tables 255 0 255
              ltac:(intros k _; reflexivity) ltac:(intros k _; reflexivity)
              ltac:(intros k _; reflexivity)) as [W1 [W2 _]].
  split; [exact W1|]. rewrite W2. vm_compute. reflexivity.
Defined.

(* ------------------------------------------------------------------------ *)
(** ** The colour-cache descriptor *)

(** Claim C8: once the colour-cache-present bit reads 1, the 4-bit
    color_cache_bits field is accepted exactly when it lies in [1, 11]:
    then decoding goes on to ReadHuffmanCodes with those bits; otherwise
    DecodeImageStream fails right after the descriptor with status
    BITSTREAM_ERROR, without running ReadHuffmanCodes or any later stage
    (the result does not depend on them), so no pixel is decoded and no
    output is emitted. *)
Theorem color_cache_bits_range :
  forall (BR : Type) (HBR : VP8LBitReader BR)
         (ReadHuffmanCodes_ : StreamState BR -> Z -> Z -> Z -> bool -> bool * StreamState BR)
         (DecodeImageRest : StreamState BR -> Z -> Z -> Z -> bool ->
                            bool * option mem * StreamState BR)
         (ClearMetadata : StreamState BR -> StreamState BR)
         xsize ysize is_level0 (st : StreamState BR) br1 color_cache_bits br2,
    VP8LReadBits (st_br st) 1 = (1, br1) ->
    VP8LReadBits br1 4 = (color_cache_bits, br2) ->
    (1 <= color_cache_bits <= 11 ->
     DecodeImageStreamCache ReadHuffmanCodes_ DecodeImageRest ClearMetadata
       xsize ysize is_level0 true st
     = DecodeAfterCacheDescriptor ReadHuffmanCodes_ DecodeImageRest ClearMetadata
         xsize ysize color_cache_bits is_level0 (mkStreamState br2 (st_status st))) /\
    (~ (1 <= color_cache_bits <= 11) ->
     DecodeImageStreamCache ReadHuffmanCodes_ DecodeImageRest ClearMetadata
       xsize ysize is_level0 true st
     = (false, None, ClearMetadata (mkStreamState br2 VP8_STATUS_BITSTREAM_ERROR))).
Proof.
  intros BR HBR RHC Rest Clear xsize ysize is_level0 st br1 bits br2 E1 E2.
  unfold DecodeImageStreamCache. rewrite E1. cbn [Z.eqb negb]. rewrite E2.
  unfold MAX_CACHE_BITS. split; intros Hb.
  - replace ((1 <=? bits) && (bits <=? 11)) with true
      by (symmetry; apply andb_true_iff; split; apply Z.leb_le; lia).
    reflexivity.
  - replace ((1 <=? bits) && (bits <=? 11)) with false.
    + reflexivity.
    + symmetry. apply andb_false_iff.
      destruct (Z.leb_spec 1 bits); [right; apply Z.leb_gt; lia|left; reflexivity].
Qed.

Lemma color_cache_bits_range_witness :
  DecodeImageStreamCache (fun st _ _ _ _ => (true, st))
    (fun st _ _ _ _ => (true, None, st)) (fun st => st)
    1 1 false true (mkStreamState (lbr_init [31]) VP8_STATUS_OK)
  = (false, None, mkStreamState (mkLBR [31] 5 false) VP8_STATUS_BITSTREAM_ERROR).
Proof.
  apply (proj2 (color_cache_bits_range LBitReader LBitReader_ops (fun st _ _ _ _ => (true, st))
                  (fun st _ _ _ _ => (true, None, st)) (fun st => st)
                  1 1 false (mkStreamState (lbr_init [31]) VP8_STATUS_OK)
                  (mkLBR [31] 1 false) 15 (mkLBR [31] 5 false)
                  ltac:(vm_compute; reflexivity) ltac:(vm_compute; reflexivity))).
  lia.
Defined.

(* ------------------------------------------------------------------------ *)
(** ** Meta-Huffman group indices *)

Lemma huffman_image_groups_spec :
  forall n m img i,
    0 <= m ->
    fst (huffman_image_groups (1 + m) img i n)
    = 1 + max_over (fun p => Z.land (Z.shiftr (img p) 8) 0xffff) m i n /\
    (forall p, snd (huffman_image_groups (1 + m) img i n) p
               = if (i <=? p) && (p <? i + Z.of_nat n)
                 then Z.land (Z.shiftr (img p) 8) 0xffff else img p).
Proof.
  induction n as [|n IH]; intros m img i Hm; cbn [huffman_image_groups max_over].
  - split; [reflexivity|]. intros p.
    replace ((i <=? p) && (p <? i + Z.of_nat 0)) with false; [reflexivity|].
    destruct (Z.leb_spec i p), (Z.ltb_spec p (i + Z.of_nat 0)); simpl;
      reflexivity || lia.
  - set (g := Z.land (Z.shiftr (img i) 8) 0xffff).
    replace (if 1 + m <=? g then g + 1 else 1 + m) with (1 + Z.max m g)
      by (destruct (Z.leb_spec (1 + m) g); lia).
    destruct (IH (Z.max m g) (upd img i g) (i + 1) ltac:(lia)) as [IH1 IH2].
    split.
    + rewrite IH1. f_equal.
      assert (Hf : forall p, i + 1 <= p ->
                Z.land (Z.shiftr (upd img i g p) 8) 0xffff
                = Z.land (Z.shiftr (img p) 8) 0xffff).
      { intros p Hp. unfold upd. destruct (Z.eqb_spec p i); [lia|reflexivity]. }
      clear IH1 IH2. revert Hf. generalize (Z.max m g) (i + 1). clear.
      induction n as [|n IH]; intros a j Hf; cbn [max_over]; [reflexivity|].
      rewrite Hf by lia. apply IH. intros p Hp. apply Hf. lia.
    + intros p. rewrite IH2. unfold upd.
      destruct (Z.eqb_spec p i) as [->|Hne].
      * replace ((i + 1 <=? i) && _) with false
          by (symmetry; apply andb_false_iff; left; apply Z.leb_gt; lia).
        replace ((i <=? i) && (i <? i + Z.of_nat (S n))) with true
          by (symmetry; apply andb_true_iff; split; [apply Z.leb_le|apply Z.ltb_lt]; lia).
        reflexivity.
      * replace ((i + 1 <=? p) && (p <? i + 1 + Z.of_nat n))
          with ((i <=? p) && (p <? i + Z.of_nat (S n))).
        -- reflexivity.
        -- destruct (Z.leb_spec (i + 1) p), (Z.leb_spec i p),
             (Z.ltb_spec p (i + 1 + Z.of_nat n)), (Z.ltb_spec p (i + Z.of_nat (S n)));
             simpl; try reflexivity; lia.
Qed.

(** Claim C4, as the code has it: with recursion allowed and the
    use-meta-Huffman bit set, ReadHuffmanCodes decodes the sub-sampled
    image and takes as the group index of every pixel its bits 8..23,
    [(pixel >> 8) & 0xffff] (the red and green bytes), stores that index
    in the image, and sets num_htree_groups to the largest index plus 1;
    when the bit is unset, or recursion is not allowed, there is exactly
    one group. *)
Theorem meta_huffman_groups :
  forall (BR : Type) (HBR : VP8LBitReader BR) (VP8LSubSampleSize : Z -> Z -> Z)
         (DecodeSubImage : Z -> Z -> BR -> option (mem * BR)) xsize ysize (br : BR),
    (forall br1 p br2 img br3,
       VP8LReadBits br 1 = (1, br1) -> VP8LReadBits br1 3 = (p, br2) ->
       DecodeSubImage (VP8LSubSampleSize xsize (p + 2))
         (VP8LSubSampleSize ysize (p + 2)) br2 = Some (img, br3) ->
       eos_ br3 = false ->
       let huffman_pixs := VP8LSubSampleSize xsize (p + 2) *
                           VP8LSubSampleSize ysize (p + 2) in
       exists img',
         ReadHuffmanCodesMeta VP8LSubSampleSize DecodeSubImage xsize ysize true br
         = Some (1 + max_over (fun i => Z.land (Z.shiftr (img i) 8) 0xffff)
                       0 0 (Z.to_nat huffman_pixs), img', p + 2, br3) /\
         (forall i, 0 <= i < huffman_pixs ->
            img' i = Z.land (Z.shiftr (img i) 8) 0xffff)) /\
    (forall br1, VP8LReadBits br 1 = (0, br1) -> eos_ br1 = false ->
       exists img',
         ReadHuffmanCodesMeta VP8LSubSampleSize DecodeSubImage xsize ysize true br
         = Some (1, img', 0, br1)) /\
    (eos_ br = false ->
       exists img',
         ReadHuffmanCodesMeta VP8LSubSampleSize DecodeSubImage xsize ysize false br
         = Some (1, img', 0, br)).
Proof.
  intros BR HBR SubSample DecodeSub xsize ysize br. split; [|split].
  - intros br1 p br2 img br3 E1 E2 E3 Heos pixs.
    unfold ReadHuffmanCodesMeta. rewrite E1. cbn [andb negb Z.eqb]. rewrite E2.
    rewrite E3.
    change (SubSample xsize (p + 2) * SubSample ysize (p + 2)) with pixs.
    pose proof (huffman_image_groups_spec (Z.to_nat pixs) 0 img 0 ltac:(lia))
      as [G1 G2].
    rewrite Z.add_0_r in G1, G2.
    destruct (huffman_image_groups 1 img 0 (Z.to_nat pixs)) as [n img'] eqn:Eg.
    cbn [fst snd] in G1, G2. cbv beta iota. rewrite Heos. exists img'. split.
    + rewrite <- G1. reflexivity.
    + intros i Hi. rewrite G2. rewrite Z2Nat.id by lia.
      replace ((0 <=? i) && (i <? 0 + pixs)) with true; [reflexivity|].
      symmetry. apply andb_true_iff. split; [apply Z.leb_le|apply Z.ltb_lt]; lia.
  - intros br1 E1 Heos. unfold ReadHuffmanCodesMeta. rewrite E1.
    cbn [andb negb Z.eqb]. rewrite Heos. eexists. reflexivity.
  - intros Heos. unfold ReadHuffmanCodesMeta. cbn [andb negb].
    rewrite Heos. eexists. reflexivity.
Qed.

Lemma meta_huffman_groups_witness :
  let sub := fun (_ : Z) (_ : Z) (br : LBitReader) =>
               Some ((fun _ => 0x00010000) : mem, br) in
  exists img',
    ReadHuffmanCodesMeta (fun _ _ => 1) sub 1 1 true (lbr_init [1])
    = Some (257, img', 2, mkLBR [1] 4 false).
Proof.
  intros sub.
  destruct (proj1 (meta_huffman_groups LBitReader LBitReader_ops (fun _ _ => 1) sub
                     1 1 (lbr_init [1]))
              (mkLBR [1] 1 false) 0 (mkLBR [1] 4 false) (fun _ => 0x00010000)
              (mkLBR [1] 4 false) ltac:(vm_compute; reflexivity)
              ltac:(vm_compute; reflexivity) ltac:(reflexivity) ltac:(reflexivity))
    as [img' [E _]].
  exists img'. rewrite E. reflexivity.
Defined.

(** Counterexample to claim C4 as stated: a sub-image pixel 0x00010000 has
    high 16 bits 1, so the spec's reading gives 2 groups, but the decoder
    reads group 256 from it and declares 257 groups. *)
Lemma meta_huffman_high16_counterexample :
  let sub := fun (_ : Z) (_ : Z) (br : LBitReader) =>
               Some ((fun _ => 0x00010000) : mem, br) in
  match ReadHuffmanCodesMeta (fun _ _ => 1) sub 1 1 true (lbr_init [1]) with
  | Some (num_htree_groups, _, _, _) => num_htree_groups
  | None => 0
  end = 257 /\
  1 + max_over (fun i => spec_group_index ((fun _ => 0x00010000) i)) 0 0 1 = 2.
Proof. split; vm_compute; reflexivity. Qed.

Section DecodeProofs.
Context {BR CC : Type} `{HBR : VP8LBitReader BR} `{HCC : VP8LColorCache CC}.
Variables (hdr : VP8LMetadata) (width height last_row : Z) (process_func : bool).
Implicit Types (dec : VP8LDecoder BR CC) (ls : LoopState).

Lemma dec_frame_refl : forall dec, dec_frame dec dec.
Proof. intros dec. unfold dec_frame. tauto. Qed.

Lemma dec_frame_trans : forall d1 d2 d3 : VP8LDecoder BR CC,
  dec_frame d1 d2 -> dec_frame d2 d3 -> dec_frame d1 d3.
Proof.
  unfold dec_frame. intros d1 d2 d3 (A1 & B1 & C1 & D1 & E1) (A2 & B2 & C2 & D2 & E2).
  repeat split; congruence.
Qed.

Lemma process_rows_fields : forall dec r,
  let d := process_rows process_func dec r in
  dec_frame dec d /\ br_ d = br_ dec /\ color_cache_ d = color_cache_ dec /\
  data_ d = data_ dec.
Proof.
  intros dec r d. unfold d, process_rows.
  destruct (_ && _); cbn; unfold dec_frame; cbn; tauto.
Qed.

Lemma wrap_rows_fields : forall fuel c r dec,
  let d := snd (wrap_rows width process_func fuel c r dec) in
  dec_frame dec d /\ br_ d = br_ dec /\ color_cache_ d = color_cache_ dec /\
  data_ d = data_ dec.
Proof.
  intros fuel. induction fuel as [|fuel IH]; intros c r dec d; unfold d; cbn [wrap_rows].
  - cbn [snd]. pose proof (dec_frame_refl dec). tauto.
  - destruct (width <=? c); [|cbn [snd]; pose proof (dec_frame_refl dec); tauto].
    destruct (IH (c - width) (r + 1) (process_rows process_func dec (r + 1)))
      as (F & Eb & Ec & Ed).
    destruct (process_rows_fields dec (r + 1)) as (F' & Eb' & Ec' & Ed').
    split; [eapply dec_frame_trans; eassumption|]. repeat split; congruence.
Qed.

Lemma set_color_cache_frame : forall dec c, dec_frame dec (set_color_cache dec c).
Proof. intros. unfold dec_frame; cbn; tauto. Qed.
Lemma set_br_frame : forall dec b, dec_frame dec (set_br dec b).
Proof. intros. unfold dec_frame; cbn; tauto. Qed.
Lemma set_data_frame : forall dec m, dec_frame dec (set_data dec m).
Proof. intros. unfold dec_frame; cbn; tauto. Qed.

Lemma AdvanceByOne_fields : forall ls dec,
  let '(ls', d) := AdvanceByOne hdr width process_func ls dec in
  dec_frame dec d /\ br_ d = br_ dec /\ data_ d = data_ dec /\
  next_sync_row ls' = next_sync_row ls /\ src ls' = src ls + 1.
Proof.
  intros ls dec. unfold AdvanceByOne.
  destruct (width <=? col ls + 1).
  - destruct (process_rows_fields dec (row ls + 1)) as (F & Eb & Ec & Ed).
    destruct (cache_present hdr); [destruct (flush_cache _ _ _ _) as [cc lc]|];
      cbn; (split; [eapply dec_frame_trans; [eassumption|apply set_color_cache_frame]|]);
      tauto.
  - pose proof (dec_frame_refl dec). cbn. tauto.
Qed.

Lemma read_green_fields : forall ls dec,
  let '(ls1, d1, code) := read_green hdr ls dec in
  src ls1 = src ls /\ last_cached ls1 = last_cached ls /\ row ls1 = row ls /\
  col ls1 = col ls /\ data_ d1 = data_ dec /\ color_cache_ d1 = color_cache_ dec /\
  incremental_ d1 = incremental_ dec /\
  (if next_sync_row ls <=? row ls then
     saved_br_ d1 = br_ dec /\ saved_last_pixel_ d1 = src ls /\
     (0 < color_cache_size_ hdr -> saved_color_cache_ d1 = color_cache_ dec) /\
     checkpoints (events_ d1)
     = (row ls, src ls, br_ dec, color_cache_ dec) :: checkpoints (events_ dec) /\
     next_sync_row ls1 = row ls + SYNC_EVERY_N_ROWS
   else dec_frame dec d1 /\ next_sync_row ls1 = next_sync_row ls).
Proof.
  intros ls dec. unfold read_green.
  destruct (next_sync_row ls <=? row ls) eqn:E; cbv iota beta.
  - destruct (Z.land (col _) (mask hdr) =? 0);
      destruct (ReadSymbol _ _) as [code br]; cbn.
    all: repeat split; try reflexivity;
      intros Hc; apply Z.ltb_lt in Hc; rewrite Hc; reflexivity.
  - destruct (Z.land (col _) (mask hdr) =? 0);
      destruct (ReadSymbol _ _) as [code br]; cbn.
    all: unfold dec_frame; cbn; tauto.
Qed.

Lemma DecodeLiteral_eos : forall g code (br br' : BR) px,
  DecodeLiteral g code br = (Some px, br') -> eos_ br = false -> eos_ br' = false.
Proof.
  intros g code br br' px. unfold DecodeLiteral.
  destruct (is_trivial_literal g); [intros E; inversion E; subst; tauto|].
  destruct (ReadSymbol _ br) as [red b1].
  destruct (ReadSymbol _ (VP8LFillBitWindow b1)) as [blue b2].
  destruct (ReadSymbol _ b2) as [alpha b3].
  destruct (eos_ b3) eqn:E3; intros E; inversion E; subst; tauto.
Qed.

Lemma DecodeSymbol_facts : forall ls dec code,
  let r := DecodeSymbol hdr width height process_func ls dec code in
  dec_frame dec (step_dec r) /\
  match r with
  | Continue ls' d' => next_sync_row ls' = next_sync_row ls /\ eos_ (br_ d') = false
  | Break ls' _ => ls' = ls
  | StepError d' => eos_ (br_ d') = false
  end.
Proof.
  intros ls dec code r. unfold r, DecodeSymbol.
  destruct (eos_ (br_ dec)) eqn:Eeos; [cbn; split; [apply dec_frame_refl|reflexivity]|].
  destruct (code <? NUM_LITERAL_CODES).
  { destruct (DecodeLiteral _ code (br_ dec)) as [[px|] br'] eqn:EL.
    - pose proof (AdvanceByOne_fields ls
        (set_data (set_br dec br') (upd (data_ (set_br dec br')) (src ls) px))) as A.
      destruct (AdvanceByOne _ _ _ _ _) as [ls' d'].
      destruct A as (F & Eb & Ed & En & Es). cbn [step_dec]. split.
      + eapply dec_frame_trans; [apply set_br_frame|].
        eapply dec_frame_trans; [apply set_data_frame|exact F].
      + split; [exact En|]. rewrite Eb. cbn. eapply DecodeLiteral_eos; eassumption.
    - cbn. split; [apply set_br_frame|reflexivity]. }
  destruct (code <? len_code_limit).
  { destruct (read_backref width (htree_group ls) code (br_ dec)) as [[length dist] br'].
    cbn [br_ set_br]. destruct (eos_ br') eqn:Eb'.
    { cbn. split; [apply set_br_frame|reflexivity]. }
    destruct ((src ls <? dist) || (width * height - src ls <? length)).
    { cbn. split; [apply set_br_frame|exact Eb']. }
    match goal with
    | |- context [wrap_rows ?w ?pf ?f ?c ?rw ?d] =>
        pose proof (wrap_rows_fields f c rw d) as W;
        destruct (wrap_rows w pf f c rw d) as [[c' rw'] d'] eqn:EW
    end.
    cbn [snd] in W. destruct W as (F & Eb & Ec & Ed).
    destruct (cache_present hdr); [destruct (flush_cache _ _ _ _) as [cc lc]|];
      cbn [step_dec]; (split; [|split; [reflexivity|cbn; rewrite Eb; exact Eb']]).
    all: eapply dec_frame_trans; [apply set_br_frame|];
      eapply dec_frame_trans; [apply set_data_frame|];
      eapply dec_frame_trans; [exact F|apply set_color_cache_frame]. }
  destruct (code <? color_cache_limit hdr).
  { destruct (flush_cache _ _ _ _) as [cc lc].
    match goal with
    | |- context [AdvanceByOne ?h ?w ?pf ?l ?d] =>
        pose proof (AdvanceByOne_fields l d) as A;
        destruct (AdvanceByOne h w pf l d) as [ls' d']
    end.
    destruct A as (F & Eb & Ed & En & Es). cbn [step_dec]. split.
    - eapply dec_frame_trans; [apply set_color_cache_frame|].
      eapply dec_frame_trans; [apply set_data_frame|exact F].
    - split; [exact En|]. rewrite Eb. exact Eeos. }
  cbn. split; [apply dec_frame_refl|exact Eeos].
Qed.

Lemma snapshot_inv_frame : forall s (dec0 : VP8LDecoder BR CC) first n d d',
  snapshot_inv s dec0 first n d -> dec_frame d d' -> snapshot_inv s dec0 first n d'.
Proof.
  intros s dec0 first n d d' (Hi & r & p & b & c & l & H1 & H2 & H3 & H4 & H5 & H6 & H7)
    (F1 & F2 & F3 & F4 & F5).
  split; [congruence|]. exists r, p, b, c, l.
  split; [congruence|]. split; [exact H2|]. split; [exact H3|].
  split; [congruence|]. split; [congruence|].
  split; [intros Hs; rewrite F4; auto|exact H7].
Qed.

Lemma read_green_snapshot : forall dec0 first ls dec,
  snapshot_pre (color_cache_size_ hdr) dec0 first ls dec ->
  let '(ls1, d1, _) := read_green hdr ls dec in
  snapshot_inv (color_cache_size_ hdr) dec0 first (next_sync_row ls1) d1.
Proof.
  intros dec0 first ls dec Hpre. pose proof (read_green_fields ls dec) as R.
  destruct (read_green hdr ls dec) as [[ls1 d1] code].
  destruct R as (Es & Elc & Er & Ec & Ed & Ecc & Ei & R).
  destruct (next_sync_row ls <=? row ls) eqn:E.
  - apply Z.leb_le in E. destruct R as (Sb & Sp & Sc & Ecp & En).
    destruct Hpre as [(Hi & r & p & b & c & l & H1 & H2 & H3 & H4 & H5 & H6 & H7)
                     |(Hi & H1 & H2 & H3)].
    + split; [congruence|].
      exists (row ls), (src ls), (br_ dec), (color_cache_ dec), ((r, p, b, c) :: l).
      split; [rewrite Ecp, H1; reflexivity|].
      split; [cbn [rows_spaced]; split; [unfold SYNC_EVERY_N_ROWS in *; lia|exact H2]|].
      split; [destruct H3 as [l' H3]; exists ((row ls, src ls, br_ dec, color_cache_ dec) :: l');
              rewrite H3; reflexivity|].
      split; [exact Sb|]. split; [exact Sp|]. split; [exact Sc|exact En].
    + split; [congruence|].
      exists (row ls), (src ls), (br_ dec), (color_cache_ dec), [].
      split; [rewrite Ecp, H1; reflexivity|].
      split; [exact I|].
      split; [exists []; rewrite H3; reflexivity|].
      split; [exact Sb|]. split; [exact Sp|]. split; [exact Sc|exact En].
  - apply Z.leb_gt in E. destruct R as [F En].
    destruct Hpre as [Hinv|(_ & _ & H2 & _)]; [|lia].
    rewrite En. eapply snapshot_inv_frame; eassumption.
Qed.

Lemma DecodeStep_snapshot : forall dec0 first ls dec,
  snapshot_pre (color_cache_size_ hdr) dec0 first ls dec ->
  match DecodeStep hdr width height process_func ls dec with
  | Continue ls' d' =>
      snapshot_inv (color_cache_size_ hdr) dec0 first (next_sync_row ls') d' /\
      eos_ (br_ d') = false
  | Break ls' d' =>
      snapshot_inv (color_cache_size_ hdr) dec0 first (next_sync_row ls') d' /\
      src ls' = src ls
  | StepError d' =>
      (exists n, snapshot_inv (color_cache_size_ hdr) dec0 first n d') /\
      eos_ (br_ d') = false
  end.
Proof.
  intros dec0 first ls dec Hpre. unfold DecodeStep.
  pose proof (read_green_snapshot dec0 first ls dec Hpre) as S.
  pose proof (read_green_fields ls dec) as R.
  destruct (read_green hdr ls dec) as [[ls1 d1] code].
  destruct R as (Es & _).
  pose proof (DecodeSymbol_facts ls1 d1 code) as D.
  destruct (DecodeSymbol hdr width height process_func ls1 d1 code)
    as [ls' d'|ls' d'|d']; cbn [step_dec] in D; destruct D as [F D].
  - destruct D as [En Eb]. split; [rewrite En; eapply snapshot_inv_frame; eassumption|exact Eb].
  - subst ls'. split; [eapply snapshot_inv_frame; eassumption|exact Es].
  - split; [eexists; eapply snapshot_inv_frame; eassumption|exact D].
Qed.

Lemma DecodeLoop_snapshot : forall fuel dec0 first ls dec,
  snapshot_inv (color_cache_size_ hdr) dec0 first (next_sync_row ls) dec ->
  (eos_ (br_ dec) = false \/ src ls < width * last_row) ->
  match DecodeLoop hdr width height last_row process_func fuel ls dec with
  | LoopDone ls' d' =>
      snapshot_inv (color_cache_size_ hdr) dec0 first (next_sync_row ls') d' /\
      (eos_ (br_ d') = true -> src ls' < width * last_row)
  | LoopError d' =>
      (exists n, snapshot_inv (color_cache_size_ hdr) dec0 first n d') /\
      eos_ (br_ d') = false
  end.
Proof.
  intros fuel. induction fuel as [|fuel IH]; intros dec0 first ls dec Hinv Hpos;
    cbn [DecodeLoop].
  - split; [exact Hinv|]. intros He. destruct Hpos as [Hpos|Hpos]; [congruence|exact Hpos].
  - destruct (src ls <? width * last_row) eqn:Elt.
    + apply Z.ltb_lt in Elt.
      pose proof (DecodeStep_snapshot dec0 first ls dec (or_introl Hinv)) as S.
      destruct (DecodeStep hdr width height process_func ls dec) as [ls' d'|ls' d'|d'].
      * destruct S as [S Eb]. apply IH; [exact S|left; exact Eb].
      * destruct S as [S Es]. split; [exact S|]. intros _. lia.
      * exact S.
    + split; [exact Hinv|]. intros He. apply Z.ltb_ge in Elt.
      destruct Hpos as [Hpos|Hpos]; [congruence|lia].
Qed.

Lemma DecodeImageDataEnd_snapshot : forall (dec0 : VP8LDecoder BR CC) first res r dec',
  0 <= width -> last_row <= height ->
  match res with
  | LoopDone ls' d' =>
      snapshot_inv (color_cache_size_ hdr) dec0 first (next_sync_row ls') d' /\
      (eos_ (br_ d') = true -> src ls' < width * last_row)
  | LoopError d' =>
      (exists n, snapshot_inv (color_cache_size_ hdr) dec0 first n d') /\
      eos_ (br_ d') = false
  end ->
  DecodeImageDataEnd hdr width height process_func res = (r, dec') ->
  exists rw p b c l,
    checkpoints (events_ dec') = ((rw, p, b, c) :: l) ++ checkpoints (events_ dec0) /\
    rows_spaced ((rw, p, b, c) :: l) /\
    (exists l', (rw, p, b, c) :: l = l' ++ [first]) /\
    (status_ dec' = VP8_STATUS_SUSPENDED \/ eos_ (br_ dec') = false) /\
    (status_ dec' = VP8_STATUS_SUSPENDED ->
       r = 1 /\ br_ dec' = b /\ last_pixel_ dec' = p /\
       (0 < color_cache_size_ hdr -> color_cache_ dec' = c)).
Proof.
  intros dec0 first res r dec' Hw Hh Hres. destruct res as [ls' d'|d']; unfold DecodeImageDataEnd.
  - destruct Hres as [(Hi & rw & p & b & c & l & H1 & H2 & H3 & H4 & H5 & H6 & H7) Hpos].
    destruct (incremental_ d' && eos_ (br_ d') && (src ls' <? width * height)) eqn:Eb.
    + intros E. inversion E; subst r dec'. exists rw, p, b, c, l.
      split; [exact H1|]. split; [exact H2|]. split; [exact H3|].
      split; [left; reflexivity|]. intros _. cbn.
      split; [reflexivity|]. split; [exact H4|]. split; [exact H5|].
      intros Hs. apply Z.ltb_lt in Hs as Hs'. rewrite Hs'. auto.
    + destruct (negb (eos_ (br_ d'))) eqn:En.
      * intros E. inversion E; subst r dec'. exists rw, p, b, c, l.
        destruct process_func; cbn.
        all: split; [exact H1|]; split; [exact H2|]; split; [exact H3|].
        all: split; [right; apply negb_true_iff; exact En|intros Hs; discriminate Hs].
      * exfalso. apply negb_false_iff in En. specialize (Hpos En).
        rewrite Hi, En in Eb. cbn in Eb. apply Z.ltb_ge in Eb.
        assert (width * last_row <= width * height) by (apply Z.mul_le_mono_nonneg_l; lia).
        lia.
  - destruct Hres as [[n (Hi & rw & p & b & c & l & H1 & H2 & H3 & _)] Heos].
    intros E. inversion E; subst r dec'. exists rw, p, b, c, l. cbn.
    split; [exact H1|]. split; [exact H2|]. split; [exact H3|].
    split; [right; exact Heos|intros Hs; discriminate Hs].
Qed.

Lemma DecodeStep_incremental : forall ls dec,
  incremental_ (step_dec (DecodeStep hdr width height process_func ls dec))
  = incremental_ dec.
Proof.
  intros ls dec. unfold DecodeStep.
  pose proof (read_green_fields ls dec) as R.
  destruct (read_green hdr ls dec) as [[ls1 d1] code].
  destruct R as (_ & _ & _ & _ & _ & _ & Ei & _).
  destruct (DecodeSymbol_facts ls1 d1 code) as [(F & _) _]. congruence.
Qed.

Lemma DecodeLoop_incremental : forall fuel ls dec,
  match DecodeLoop hdr width height last_row process_func fuel ls dec with
  | LoopDone _ d | LoopError d => incremental_ d = incremental_ dec
  end.
Proof.
  intros fuel. induction fuel as [|fuel IH]; intros ls dec; cbn [DecodeLoop]; [reflexivity|].
  destruct (src ls <? width * last_row); [|reflexivity].
  pose proof (DecodeStep_incremental ls dec) as E.
  destruct (DecodeStep hdr width height process_func ls dec) as [ls' d'|ls' d'|d'];
    cbn [step_dec] in E; [|exact E|exact E].
  specialize (IH ls' d'). destruct (DecodeLoop _ _ _ _ _ _ _ _); congruence.
Qed.

End DecodeProofs.

(** Claim C3: in incremental mode the loop starts with a checkpoint due
    at the first row; whenever a symbol is read at or past the row where a
    checkpoint is due, SaveState captures (bit reader, pixel position,
    colour cache) and the next checkpoint is due SYNC_EVERY_N_ROWS rows
    later.  A DecodeImageData call with pixels left to decode therefore
    takes its first checkpoint at its first symbol and further ones at
    least SYNC_EVERY_N_ROWS rows apart; it never returns with the bit
    reader at end of stream without suspending; and when it suspends it
    returns 1 with status SUSPENDED and the bit reader, last_pixel_ and
    (when a cache is configured) the colour cache equal to the latest
    checkpoint. *)
Theorem incremental_snapshot :
  forall (BR CC : Type) (HBR : VP8LBitReader BR) (HCC : VP8LColorCache CC)
         (hdr : VP8LMetadata) (width height last_row : Z) (process_func : bool),
    (forall (dec : VP8LDecoder BR CC),
       incremental_ dec = true ->
       next_sync_row (initial_loop_state hdr width dec)
       = row (initial_loop_state hdr width dec)) /\
    (forall ls (dec : VP8LDecoder BR CC),
       next_sync_row ls <= row ls ->
       let '(ls1, d1, _) := read_green hdr ls dec in
       checkpoints (events_ d1)
       = (row ls, src ls, br_ dec, color_cache_ dec) :: checkpoints (events_ dec) /\
       saved_br_ d1 = br_ dec /\ saved_last_pixel_ d1 = src ls /\
       (0 < color_cache_size_ hdr -> saved_color_cache_ d1 = color_cache_ dec) /\
       next_sync_row ls1 = row ls + SYNC_EVERY_N_ROWS) /\
    (forall (dec dec' : VP8LDecoder BR CC) (r : Z),
       incremental_ dec = true -> 0 < width -> last_row <= height ->
       last_pixel_ dec < width * last_row ->
       DecodeImageData hdr width height last_row process_func dec = (r, dec') ->
       exists rw p b c l,
         checkpoints (events_ dec') = ((rw, p, b, c) :: l) ++ checkpoints (events_ dec) /\
         rows_spaced ((rw, p, b, c) :: l) /\
         (exists l', (rw, p, b, c) :: l
                     = l' ++ [(last_pixel_ dec / width, last_pixel_ dec, br_ dec,
                               color_cache_ dec)]) /\
         (status_ dec' = VP8_STATUS_SUSPENDED \/ eos_ (br_ dec') = false) /\
         (status_ dec' = VP8_STATUS_SUSPENDED ->
            r = 1 /\ br_ dec' = b /\ last_pixel_ dec' = p /\
            (0 < color_cache_size_ hdr -> color_cache_ dec' = c))).
Proof.
  intros BR CC HBR HCC hdr width height last_row process_func.
  split; [|split].
  { intros dec Hinc. unfold initial_loop_state. rewrite Hinc. reflexivity. }
  { intros ls dec Hn. pose proof (read_green_fields hdr ls dec) as R.
    destruct (read_green hdr ls dec) as [[ls1 d1] code].
    destruct R as (_ & _ & _ & _ & _ & _ & _ & R).
    replace (next_sync_row ls <=? row ls) with true in R
      by (symmetry; apply Z.leb_le; exact Hn).
    destruct R as (Sb & Sp & Sc & Ecp & En). tauto. }
  intros dec dec' r Hinc Hw Hh Hlp E.
  unfold DecodeImageData in E.
  destruct (Z.to_nat (width * last_row - last_pixel_ dec)) as [|n] eqn:Ef.
  { exfalso. pose proof (Z2Nat.id (width * last_row - last_pixel_ dec)) as Hid.
    rewrite Ef in Hid. cbn in Hid. specialize (Hid ltac:(lia)). lia. }
  eapply (DecodeImageDataEnd_snapshot hdr width height last_row process_func);
    [lia|exact Hh| |exact E].
  set (first := (last_pixel_ dec / width, last_pixel_ dec, br_ dec, color_cache_ dec)).
  set (ls0 := initial_loop_state hdr width dec).
  assert (Hpre : snapshot_pre (color_cache_size_ hdr) dec first ls0 dec).
  { right. unfold ls0, initial_loop_state. rewrite Hinc. cbn.
    split; [reflexivity|]. split; [reflexivity|]. split; [lia|reflexivity]. }
  cbn [DecodeLoop].
  replace (src ls0 <? width * last_row) with true
    by (symmetry; apply Z.ltb_lt; exact Hlp).
  pose proof (DecodeStep_snapshot hdr width height process_func dec first ls0 dec Hpre) as S.
  destruct (DecodeStep hdr width height process_func ls0 dec) as [ls' d'|ls' d'|d'].
  - destruct S as [S Eb]. apply DecodeLoop_snapshot; [exact S|left; exact Eb].
  - destruct S as [S Es]. split; [exact S|]. intros _. rewrite Es. exact Hlp.
  - exact S.
Qed.

Lemma incremental_snapshot_witness :
  let g := BuildHTreeGroup (fun i => match i with
             | GREEN => fun _ => mkHuffmanCode 1 1
             | _ => fun _ => mkHuffmanCode 0 0 end) in
  let hdr := mkVP8LMetadata 0 (fun _ => 0) 1 0 (-1) (fun _ => g) in
  let dec := mkVP8LDecoder VP8_STATUS_OK (lbr_init [0]) (lbr_init [0]) 0 0
               ([] : list Z) [] true (fun _ => 0) [] in
  let ls := initial_loop_state hdr 16 dec in
  let res := DecodeImageData hdr 16 1 1 false dec in
  next_sync_row ls = row ls /\
  (let '(ls1, d1, _) := read_green hdr ls dec in
   checkpoints (events_ d1)
   = (row ls, src ls, br_ dec, color_cache_ dec) :: checkpoints (events_ dec) /\
   saved_br_ d1 = br_ dec /\ saved_last_pixel_ d1 = src ls /\
   (0 < color_cache_size_ hdr -> saved_color_cache_ d1 = color_cache_ dec) /\
   next_sync_row ls1 = row ls + SYNC_EVERY_N_ROWS) /\
  status_ (snd res) = VP8_STATUS_SUSPENDED /\
  exists rw p b c l,
    checkpoints (events_ (snd res)) = ((rw, p, b, c) :: l) ++ checkpoints (events_ dec) /\
    rows_spaced ((rw, p, b, c) :: l) /\
    (exists l', (rw, p, b, c) :: l
                = l' ++ [(last_pixel_ dec / 16, last_pixel_ dec, br_ dec, color_cache_ dec)]) /\
    (status_ (snd res) = VP8_STATUS_SUSPENDED \/ eos_ (br_ (snd res)) = false) /\
    (status_ (snd res) = VP8_STATUS_SUSPENDED ->
       fst res = 1 /\ br_ (snd res) = b /\ last_pixel_ (snd res) = p /\
       (0 < color_cache_size_ hdr -> color_cache_ (snd res) = c)).
Proof.
  intros g hdr dec ls res.
  destruct (incremental_snapshot LBitReader (list Z) LBitReader_ops InsertLog_cache
              hdr 16 1 1 false) as (P1 & P2 & P3).
  split; [exact (P1 dec eq_refl)|].
  split; [exact (P2 ls dec ltac:(vm_compute; discriminate))|].
  split; [vm_compute; reflexivity|].
  apply (P3 dec (snd res) (fst res));
    [reflexivity|vm_compute; reflexivity|vm_compute; discriminate
    |vm_compute; reflexivity|apply surjective_pairing].
Defined.

(** Claim C2 (amended): at any point of the loop, when the symbol just read
    is not a literal, a length code or a cache code, or is a backward
    reference with distance beyond the pixels decoded so far or length
    beyond the pixels left, and the bit reader did not reach end of stream
    while reading it, DecodeImageData returns 0 with status
    BITSTREAM_ERROR; outside incremental mode, a call that ends with the
    bit reader at end of stream also returns 0 with BITSTREAM_ERROR. *)
Theorem decode_error_paths :
  forall (BR CC : Type) (HBR : VP8LBitReader BR) (HCC : VP8LColorCache CC)
         (hdr : VP8LMetadata) (width height last_row : Z) (process_func : bool),
    0 <= color_cache_size_ hdr ->
    (forall fuel ls (dec : VP8LDecoder BR CC) ls1 dec1 code,
       src ls < width * last_row ->
       read_green hdr ls dec = (ls1, dec1, code) ->
       eos_ (br_ dec1) = false ->
       color_cache_limit hdr <= code ->
       exists dec',
         DecodeImageDataEnd hdr width height process_func
           (DecodeLoop hdr width height last_row process_func (S fuel) ls dec) = (0, dec') /\
         status_ dec' = VP8_STATUS_BITSTREAM_ERROR) /\
    (forall fuel ls (dec : VP8LDecoder BR CC) ls1 dec1 code length dist br',
       src ls < width * last_row ->
       read_green hdr ls dec = (ls1, dec1, code) ->
       eos_ (br_ dec1) = false ->
       NUM_LITERAL_CODES <= code < len_code_limit ->
       read_backref width (htree_group ls1) code (br_ dec1) = (length, dist, br') ->
       eos_ br' = false ->
       src ls < dist \/ width * height - src ls < length ->
       exists dec',
         DecodeImageDataEnd hdr width height process_func
           (DecodeLoop hdr width height last_row process_func (S fuel) ls dec) = (0, dec') /\
         status_ dec' = VP8_STATUS_BITSTREAM_ERROR) /\
    (forall (dec dec' : VP8LDecoder BR CC) r,
       incremental_ dec = false ->
       DecodeImageData hdr width height last_row process_func dec = (r, dec') ->
       eos_ (br_ dec') = true ->
       r = 0 /\ status_ dec' = VP8_STATUS_BITSTREAM_ERROR).
Proof.
  intros BR CC HBR HCC hdr width height last_row process_func Hcs.
  split; [|split].
  - intros fuel ls dec ls1 dec1 code Hlt Hrg Heos Hcode.
    cbn [DecodeLoop]. replace (src ls <? width * last_row) with true
      by (symmetry; apply Z.ltb_lt; exact Hlt).
    unfold DecodeStep. rewrite Hrg. unfold DecodeSymbol. cbv zeta. rewrite Heos.
    unfold color_cache_limit, len_code_limit, NUM_LITERAL_CODES, NUM_LENGTH_CODES in *.
    replace (code <? 256) with false by (symmetry; apply Z.ltb_ge; lia).
    replace (code <? 256 + 24) with false by (symmetry; apply Z.ltb_ge; lia).
    replace (code <? 256 + 24 + color_cache_size_ hdr) with false
      by (symmetry; apply Z.ltb_ge; lia).
    eexists. split; reflexivity.
  - intros fuel ls dec ls1 dec1 code length dist br' Hlt Hrg Heos Hcode Hrb Heos' Hbad.
    pose proof (read_green_fields hdr ls dec) as R. rewrite Hrg in R.
    destruct R as (Es & _).
    cbn [DecodeLoop]. replace (src ls <? width * last_row) with true
      by (symmetry; apply Z.ltb_lt; exact Hlt).
    unfold DecodeStep. rewrite Hrg. unfold DecodeSymbol. cbv zeta. rewrite Heos.
    replace (code <? NUM_LITERAL_CODES) with false by (symmetry; apply Z.ltb_ge; lia).
    replace (code <? len_code_limit) with true by (symmetry; apply Z.ltb_lt; lia).
    rewrite Hrb. cbn [br_ set_br]. rewrite Heos'. rewrite Es.
    replace ((src ls <? dist) || (width * height - src ls <? length)) with true
      by (symmetry; apply orb_true_iff;
          destruct Hbad; [left; apply Z.ltb_lt|right; apply Z.ltb_lt]; lia).
    eexists. split; reflexivity.
  - intros dec dec' r Hinc E Heos. unfold DecodeImageData in E.
    pose proof (DecodeLoop_incremental hdr width height last_row process_func
                  (Z.to_nat (width * last_row - last_pixel_ dec))
                  (initial_loop_state hdr width dec) dec) as Hi.
    destruct (DecodeLoop _ _ _ _ _ _ _ _) as [ls' d'|d'];
      unfold DecodeImageDataEnd in E.
    + rewrite Hi, Hinc in E. cbn [andb] in E.
      destruct (eos_ (br_ d')) eqn:Ed; cbn [negb] in E.
      * inversion E; subst r dec'. split; reflexivity.
      * inversion E; subst r dec'. exfalso.
        destruct process_func; cbn in Heos; congruence.
    + inversion E; subst r dec'. split; reflexivity.
Qed.

Lemma decode_error_paths_witness :
  let tab (c : HuffmanCode) : HuffmanTable := fun _ => c in
  let hdr (green dist : HuffmanCode) :=
    mkVP8LMetadata 0 (fun _ => 0) 1 0 (-1)
      (fun _ => BuildHTreeGroup (fun i => match i with
                  | GREEN => tab green | DIST => tab dist
                  | _ => tab (mkHuffmanCode 0 0) end)) in
  let dec (buf : list Z) (inc : bool) : VP8LDecoder LBitReader (list Z) :=
    mkVP8LDecoder VP8_STATUS_OK (lbr_init buf) (lbr_init buf) 0 0 [] [] inc
      (fun _ => 0) [] in
  let h1 := hdr (mkHuffmanCode 1 300) (mkHuffmanCode 0 0) in
  let h2 := hdr (mkHuffmanCode 8 256) (mkHuffmanCode 1 0) in
  (exists dec',
     DecodeImageDataEnd h1 4 1 false
       (DecodeLoop h1 4 1 1 false 4 (initial_loop_state h1 4 (dec [0] true))
          (dec [0] true)) = (0, dec') /\
     status_ dec' = VP8_STATUS_BITSTREAM_ERROR) /\
  (exists dec',
     DecodeImageDataEnd h2 4 1 false
       (DecodeLoop h2 4 1 1 false 4 (initial_loop_state h2 4 (dec [0; 0] true))
          (dec [0; 0] true)) = (0, dec') /\
     status_ dec' = VP8_STATUS_BITSTREAM_ERROR) /\
  (fst (DecodeImageData h2 4 1 1 false (dec [0] false)) = 0 /\
   status_ (snd (DecodeImageData h2 4 1 1 false (dec [0] false)))
   = VP8_STATUS_BITSTREAM_ERROR).
Proof.
  intros tab hdr dec h1 h2. split; [|split].
  - set (ls := initial_loop_state h1 4 (dec [0] true)).
    set (rg := read_green h1 ls (dec [0] true)).
    apply (proj1 (decode_error_paths LBitReader (list Z) LBitReader_ops InsertLog_cache
                    h1 4 1 1 false ltac:(vm_compute; discriminate))
             3%nat ls (dec [0] true) (fst (fst rg)) (snd (fst rg)) (snd rg));
      [vm_compute; reflexivity|unfold rg; destruct (read_green _ _ _) as [[? ?] ?]; reflexivity
      |vm_compute; reflexivity|vm_compute; discriminate].
  - set (ls := initial_loop_state h2 4 (dec [0; 0] true)).
    set (rg := read_green h2 ls (dec [0; 0] true)).
    set (rb := read_backref 4 (htree_group (fst (fst rg))) (snd rg) (br_ (snd (fst rg)))).
    apply (proj1 (proj2 (decode_error_paths LBitReader (list Z) LBitReader_ops InsertLog_cache
                    h2 4 1 1 false ltac:(vm_compute; discriminate)))
             3%nat ls (dec [0; 0] true) (fst (fst rg)) (snd (fst rg)) (snd rg)
             (fst (fst rb)) (snd (fst rb)) (snd rb));
      [vm_compute; reflexivity|unfold rg; destruct (read_green _ _ _) as [[? ?] ?]; reflexivity
      |vm_compute; reflexivity|vm_compute; split; [discriminate|reflexivity]
      |unfold rb; destruct (read_backref _ _ _ _) as [[? ?] ?]; reflexivity|vm_compute; reflexivity
      |left; vm_compute; reflexivity].
  - apply (proj2 (proj2 (decode_error_paths LBitReader (list Z) LBitReader_ops InsertLog_cache
                    h2 4 1 1 false ltac:(vm_compute; discriminate)))
             (dec [0] false) (snd (DecodeImageData h2 4 1 1 false (dec [0] false)))
             (fst (DecodeImageData h2 4 1 1 false (dec [0] false))));
      [reflexivity|apply surjective_pairing|vm_compute; reflexivity].
Defined.

(** Counterexample to claim C2 as stated: in incremental mode, a backward
    reference of length 1 and distance 4 at pixel 0 (distance beyond the
    pixels decoded), whose distance bits run past the end of the stream,
    and an invalid green symbol 300 read past the end of the stream, both
    make DecodeImageData return 1 with status SUSPENDED, not failure. *)
Lemma decode_error_paths_counterexample :
  let tab (c : HuffmanCode) : HuffmanTable := fun _ => c in
  let hdr (green dist : HuffmanCode) :=
    mkVP8LMetadata 0 (fun _ => 0) 1 0 (-1)
      (fun _ => BuildHTreeGroup (fun i => match i with
                  | GREEN => tab green | DIST => tab dist
                  | _ => tab (mkHuffmanCode 0 0) end)) in
  let dec (buf : list Z) : VP8LDecoder LBitReader (list Z) :=
    mkVP8LDecoder VP8_STATUS_OK (lbr_init buf) (lbr_init buf) 0 0 [] [] true
      (fun _ => 0) [] in
  let h2 := hdr (mkHuffmanCode 8 256) (mkHuffmanCode 1 0) in
  let h1 := hdr (mkHuffmanCode 1 300) (mkHuffmanCode 0 0) in
  (let ls := initial_loop_state h2 4 (dec [0]) in
   let '(ls1, dec1, code) := read_green h2 ls (dec [0]) in
   let '(length, dist, _) := read_backref 4 (htree_group ls1) code (br_ dec1) in
   NUM_LITERAL_CODES <= code < len_code_limit /\ length = 1 /\ dist = 4 /\
   src ls = 0 /\
   fst (DecodeImageData h2 4 1 1 false (dec [0])) = 1 /\
   status_ (snd (DecodeImageData h2 4 1 1 false (dec [0]))) = VP8_STATUS_SUSPENDED) /\
  (let '(_, _, code) := read_green h1 (initial_loop_state h1 4 (dec [])) (dec []) in
   color_cache_limit h1 <= code /\
   fst (DecodeImageData h1 4 1 1 false (dec [])) = 1 /\
   status_ (snd (DecodeImageData h1 4 1 1 false (dec []))) = VP8_STATUS_SUSPENDED).
Proof.
  split; vm_compute; repeat split; discriminate.
Qed.

Lemma upd_other : forall m a v q, q <> a -> upd m a v q = m q.
Proof. intros m a v q H. unfold upd. destruct (Z.eqb_spec q a); [lia|reflexivity]. Qed.

Lemma copy_elems_below : forall n m dst s q,
  q < dst -> copy_elems m dst s n q = m q.
Proof.
  intros n. induction n as [|n IH]; intros m dst s q Hq; cbn [copy_elems]; [reflexivity|].
  rewrite IH by lia. apply upd_other. lia.
Qed.

Lemma store_pattern64_below : forall n m dst pat q,
  q < dst -> store_pattern64 m dst pat n q = m q.
Proof.
  intros n. induction n as [|n IH]; intros m dst pat q Hq; cbn [store_pattern64];
    [reflexivity|].
  rewrite IH by lia. unfold store64. rewrite !upd_other by lia. reflexivity.
Qed.

(** The copy engine writes nothing below its destination. *)
Lemma CopyBlock32b_below : forall m dst dist length q,
  q < dst -> CopyBlock32b m dst dist length q = m q.
Proof.
  intros m dst dist length q Hq. unfold CopyBlock32b.
  destruct ((dist <=? 2) && (4 <=? length) && (Z.land (4 * dst) 3 =? 0)) eqn:Ef.
  - apply andb_true_iff in Ef as [Ef _]. apply andb_true_iff in Ef as [_ Hl].
    apply Z.leb_le in Hl. unfold CopySmallPattern32b.
    destruct (negb (Z.land (4 * dst) 4 =? 0)); cbv iota beta.
    + assert (0 <= Z.shiftl (Z.shiftr (length - 1) 1) 1)
        by (apply Z.shiftl_nonneg, Z.shiftr_nonneg; lia).
      destruct (negb (Z.land (length - 1) 1 =? 0));
        [rewrite upd_other by lia|];
        rewrite store_pattern64_below by lia; apply upd_other; lia.
    + assert (0 <= Z.shiftl (Z.shiftr length 1) 1)
        by (apply Z.shiftl_nonneg, Z.shiftr_nonneg; lia).
      destruct (negb (Z.land length 1 =? 0));
        [rewrite upd_other by lia|];
        apply store_pattern64_below; lia.
  - destruct (length <=? dist).
    + unfold memcpy_elems. replace ((dst <=? q) && (q <? dst + length)) with false;
        [reflexivity|]. symmetry. apply andb_false_iff. left. apply Z.leb_gt. lia.
    + apply copy_elems_below. exact Hq.
Qed.

Section CacheProofs.
Context {BR CC : Type} `{HBR : VP8LBitReader BR} `{HCC : VP8LColorCache CC}.
Variables (hdr : VP8LMetadata) (width height : Z) (process_func : bool).

Lemma insert_pixels_ext : forall n (c : CC) m m' p,
  (forall q, p <= q < p + Z.of_nat n -> m q = m' q) ->
  insert_pixels c m p n = insert_pixels c m' p n.
Proof.
  intros n. induction n as [|n IH]; intros c m m' p Hm; cbn [insert_pixels]; [reflexivity|].
  rewrite Hm by lia. apply IH. intros q Hq. apply Hm. lia.
Qed.

Lemma insert_pixels_app : forall n1 n2 (c : CC) m p,
  insert_pixels c m p (n1 + n2) = insert_pixels (insert_pixels c m p n1) m (p + Z.of_nat n1) n2.
Proof.
  intros n1. induction n1 as [|n1 IH]; intros n2 c m p; cbn [insert_pixels Nat.add].
  - rewrite Z.add_0_r. reflexivity.
  - rewrite IH. f_equal. lia.
Qed.

Lemma flush_cache_prefix : forall (c0 : CC) m start lc s,
  start <= lc <= s ->
  flush_cache (insert_pixels c0 m start (Z.to_nat (lc - start))) m lc s
  = (insert_pixels c0 m start (Z.to_nat (s - start)), s).
Proof.
  intros c0 m start lc s Hr. unfold flush_cache.
  destruct (lc <? s) eqn:E.
  - apply Z.ltb_lt in E.
    replace (Z.to_nat (s - start)) with (Z.to_nat (lc - start) + Z.to_nat (s - lc))%nat
      by lia.
    rewrite insert_pixels_app. rewrite Z2Nat.id by lia.
    replace (start + (lc - start)) with lc by lia. reflexivity.
  - apply Z.ltb_ge in E. replace s with lc by lia. reflexivity.
Qed.

Lemma cache_holds_upd : forall (c0 : CC) start ls (dec : VP8LDecoder BR CC) m,
  cache_holds c0 start ls dec ->
  (forall q, q < src ls -> m q = data_ dec q) ->
  cache_holds c0 start ls (set_data dec m).
Proof.
  intros c0 start ls dec m [Hc Hr] Hm. split; [|exact Hr]. cbn.
  rewrite Hc. apply insert_pixels_ext. intros q Hq. symmetry. apply Hm. lia.
Qed.

Lemma AdvanceByOne_cache : forall (c0 : CC) start ls (dec : VP8LDecoder BR CC),
  cache_present hdr = true ->
  cache_holds c0 start ls dec ->
  let '(ls', d') := AdvanceByOne hdr width process_func ls dec in
  cache_holds c0 start ls' d' /\
  (last_cached ls' = src ls' \/
   (src ls' = src ls + 1 /\ col ls' = col ls + 1 /\ col ls' < width)).
Proof.
  intros c0 start ls dec Hp [Hc Hr]. unfold AdvanceByOne. cbv zeta. rewrite Hp.
  destruct (width <=? col ls + 1) eqn:Ew.
  - destruct (process_rows_fields process_func dec (row ls + 1)) as (_ & _ & Ec & Ed).
    rewrite Ec, Ed, Hc. rewrite flush_cache_prefix by lia. cbn.
    split; [split; [cbn; rewrite Ed; reflexivity|cbn; lia]|left; reflexivity].
    - apply Z.leb_gt in Ew. cbn. split; [split; [exact Hc|cbn; lia]|right; cbn; lia].
Qed.

Lemma GetCopyDistance_pos : forall sym (br : BR),
  0 <= sym -> 1 <= fst (GetCopyDistance sym br).
Proof.
  intros sym br Hs. unfold GetCopyDistance.
  destruct (sym <? 4); [cbn; lia|].
  pose proof (VP8LReadBits_unsigned br (Z.shiftr (sym - 2) 1)) as Hv.
  destruct (VP8LReadBits br _) as [v br']. cbn [fst] in *.
  assert (0 <= Z.shiftl (2 + Z.land sym 1) (Z.shiftr (sym - 2) 1)).
  { apply Z.shiftl_nonneg. assert (0 <= Z.land sym 1) by (apply Z.land_nonneg; lia). lia. }
  lia.
Qed.

Lemma read_backref_length : forall g code (br : BR),
  NUM_LITERAL_CODES <= code ->
  1 <= fst (fst (read_backref width g code br)).
Proof.
  intros g code br Hc. unfold read_backref, GetCopyLength.
  pose proof (GetCopyDistance_pos (code - NUM_LITERAL_CODES) br ltac:(lia)) as H.
  destruct (GetCopyDistance (code - NUM_LITERAL_CODES) br) as [length br1].
  destruct (ReadSymbol _ br1) as [ds br2].
  destruct (GetCopyDistance ds _) as [dc br3]. exact H.
Qed.

Lemma DecodeSymbol_cache_continue : forall (c0 : CC) start ls (dec : VP8LDecoder BR CC) code,
  cache_present hdr = true ->
  cache_holds c0 start ls dec ->
  forall ls' d',
    DecodeSymbol hdr width height process_func ls dec code = Continue ls' d' ->
    cache_holds c0 start ls' d' /\
    (NUM_LITERAL_CODES <= code < len_code_limit -> last_cached ls' = src ls') /\
    (last_cached ls' = src ls' \/
     ((code < NUM_LITERAL_CODES \/ len_code_limit <= code) /\
      src ls' = src ls + 1 /\ col ls' = col ls + 1 /\ col ls' < width)).
Proof.
  intros c0 start ls dec code Hp Hh ls' d'. pose proof Hh as [Hc Hr].
  unfold DecodeSymbol. cbv zeta.
  destruct (eos_ (br_ dec)); [discriminate|].
  destruct (code <? NUM_LITERAL_CODES) eqn:Elit.
  { destruct (DecodeLiteral (htree_group ls) code (br_ dec)) as [[px|] br']; [|discriminate].
    pose proof (AdvanceByOne_cache c0 start ls
                  (set_data (set_br dec br') (upd (data_ (set_br dec br')) (src ls) px)) Hp
                  (cache_holds_upd c0 start ls (set_br dec br')
                     (upd (data_ (set_br dec br')) (src ls) px) Hh
                     ltac:(intros q Hq; apply upd_other; lia))) as A.
    destruct (AdvanceByOne _ _ _ _ _) as [l d]. intros E; inversion E; subst.
    apply Z.ltb_lt in Elit. destruct A as [A1 A2].
    split; [exact A1|]. split; [intros; lia|].
    destruct A2 as [A2|A2]; [left; exact A2|right; split; [left; exact Elit|exact A2]]. }
  apply Z.ltb_ge in Elit.
  destruct (code <? len_code_limit) eqn:Elen.
  { pose proof (read_backref_length (htree_group ls) code (br_ dec) Elit) as Hl.
    destruct (read_backref width (htree_group ls) code (br_ dec)) as [[length dist] br'].
    cbn [fst] in Hl. cbn [br_ set_br].
    destruct (eos_ br'); [discriminate|].
    destruct ((src ls <? dist) || (width * height - src ls <? length)); [discriminate|].
    match goal with
    | |- context [wrap_rows ?w ?pf ?f ?c ?rw ?d] =>
        pose proof (wrap_rows_fields w pf f c rw d) as W;
        destruct (wrap_rows w pf f c rw d) as [[c' rw'] d3]
    end.
    cbn [snd] in W. destruct W as (_ & _ & Ec & Ed). rewrite Hp, Ec, Ed.
    cbn [color_cache_ data_ set_data set_br]. rewrite Hc.
    rewrite (insert_pixels_ext _ c0 (data_ dec)
               (CopyBlock32b (data_ dec) (src ls) dist length) start)
      by (intros q Hq; symmetry; apply CopyBlock32b_below; lia).
    rewrite flush_cache_prefix by lia.
    intros E; inversion E; subst. split; [|split; [intros _; reflexivity|left; reflexivity]].
    split; [cbn; rewrite Ed; reflexivity|cbn; lia]. }
  destruct (code <? color_cache_limit hdr); [|discriminate].
  rewrite Hc, flush_cache_prefix by lia.
  match goal with
  | |- context [AdvanceByOne ?h ?w ?pf ?l ?d] =>
      pose proof (AdvanceByOne_cache c0 start l d Hp) as A;
      destruct (AdvanceByOne h w pf l d) as [l' d'']
  end.
  intros E; inversion E; subst. apply Z.ltb_ge in Elen.
  match type of A with
  | ?P -> _ =>
      assert (Hh' : P)
        by (apply cache_holds_upd; [split; cbn; [reflexivity|lia]|];
            intros q Hq; apply upd_other; cbn in Hq; lia)
  end.
  destruct (A Hh') as [A1 A2].
  split; [exact A1|]. split; [intros; lia|].
  destruct A2 as [A2|A2]; [left; exact A2|right; split; [right; exact Elen|exact A2]].
Qed.

Lemma DecodeSymbol_cache_lookup : forall (c0 : CC) start ls (dec : VP8LDecoder BR CC) code,
  cache_holds c0 start ls dec ->
  eos_ (br_ dec) = false ->
  len_code_limit <= code < color_cache_limit hdr ->
  exists ls' d',
    DecodeSymbol hdr width height process_func ls dec code = Continue ls' d' /\
    data_ d' (src ls) =
    VP8LColorCacheLookup (insert_pixels c0 (data_ dec) start (Z.to_nat (src ls - start)))
      (code - len_code_limit).
Proof.
  intros c0 start ls dec code [Hc Hr] Heos Hcode.
  unfold DecodeSymbol. cbv zeta. rewrite Heos.
  unfold color_cache_limit, len_code_limit, NUM_LITERAL_CODES, NUM_LENGTH_CODES in *.
  replace (code <? 256) with false by (symmetry; apply Z.ltb_ge; lia).
  replace (code <? 256 + 24) with false by (symmetry; apply Z.ltb_ge; lia).
  replace (code <? 256 + 24 + color_cache_size_ hdr) with true
    by (symmetry; apply Z.ltb_lt; lia).
  rewrite Hc, flush_cache_prefix by lia.
  match goal with
  | |- context [AdvanceByOne ?h ?w ?pf ?l ?d] =>
      pose proof (AdvanceByOne_fields h w pf l d) as A;
      destruct (AdvanceByOne h w pf l d) as [l' d'']
  end.
  destruct A as (_ & _ & Ed & _). exists l', d''. split; [reflexivity|].
  rewrite Ed. cbn. unfold upd. rewrite Z.eqb_refl. reflexivity.
Qed.

End CacheProofs.

(** Claim C9 (amended): when a colour cache is configured, the cache holds,
    in raster order, the raster pixels from a start offset up to
    [last_cached], and [last_cached <= src].  Each iteration that goes on
    keeps this.  It catches up ([last_cached = src]) after every backward
    reference and whenever the row ends; otherwise it read a literal or a
    cache code, advanced by one pixel in the middle of the row, and left
    the pixels written so far in that row pending.  A cache-code symbol first
    inserts every pending pixel, so it looks up a cache holding every
    pixel written so far, in raster order. *)
Theorem color_cache_lazy_insertion :
  forall (BR CC : Type) (HBR : VP8LBitReader BR) (HCC : VP8LColorCache CC)
         (hdr : VP8LMetadata) (width height : Z) (process_func : bool)
         (c0 : CC) (start : Z) (ls : LoopState) (dec : VP8LDecoder BR CC),
    cache_present hdr = true ->
    cache_holds c0 start ls dec ->
    (forall ls1 dec1 code,
       read_green hdr ls dec = (ls1, dec1, code) ->
       forall ls' dec',
       DecodeStep hdr width height process_func ls dec = Continue ls' dec' ->
       cache_holds c0 start ls' dec' /\
       (NUM_LITERAL_CODES <= code < len_code_limit -> last_cached ls' = src ls') /\
       (width <= col ls + 1 -> last_cached ls' = src ls') /\
       (last_cached ls' = src ls' \/
        ((code < NUM_LITERAL_CODES \/ len_code_limit <= code) /\
         src ls' = src ls + 1 /\ col ls' = col ls + 1 /\ col ls' < width))) /\
    (forall ls1 dec1 code,
       read_green hdr ls dec = (ls1, dec1, code) ->
       eos_ (br_ dec1) = false ->
       len_code_limit <= code < color_cache_limit hdr ->
       exists ls' dec',
         DecodeStep hdr width height process_func ls dec = Continue ls' dec' /\
         data_ dec' (src ls) =
         VP8LColorCacheLookup
           (insert_pixels c0 (data_ dec) start (Z.to_nat (src ls - start)))
           (code - len_code_limit)).
Proof.
  intros BR CC HBR HCC hdr width height process_func c0 start ls dec Hp Hh.
  pose proof (read_green_fields hdr ls dec) as R. unfold DecodeStep.
  destruct (read_green hdr ls dec) as [[ls1 d1] code] eqn:Erg.
  destruct R as (Es & Elc & _ & Ecol & Ed & Ecc & _).
  assert (H1 : cache_holds c0 start ls1 d1).
  { destruct Hh as [Hc Hr]. split; [rewrite Ecc, Ed, Elc; exact Hc|rewrite Elc, Es; exact Hr]. }
  split.
  - intros ls1' dec1' code' Er ls' dec' E. inversion Er; subst ls1' dec1' code'.
    rewrite <- Es, <- Ecol.
    destruct (DecodeSymbol_cache_continue hdr width height process_func c0 start ls1 d1 code
                Hp H1 ls' dec' E) as (C1 & C2 & C3).
    split; [exact C1|]. split; [exact C2|]. split; [|exact C3].
    intros Hc. destruct C3 as [C3|(_ & _ & C4 & C5)]; [exact C3|lia].
  - intros ls1' dec1' code' E Heos Hcode. inversion E; subst ls1' dec1' code'.
    rewrite <- Es, <- Ed.
    exact (DecodeSymbol_cache_lookup hdr width height process_func c0 start ls1 d1 code
             H1 Heos Hcode).
Qed.

Lemma color_cache_lazy_insertion_witness :
  let g := BuildHTreeGroup (fun i => match i with
             | GREEN => fun _ => mkHuffmanCode 1 281
             | _ => fun _ => mkHuffmanCode 0 0 end) in
  let hdr := mkVP8LMetadata 2 (fun _ => 0) 1 0 (-1) (fun _ => g) in
  let px := fun q => if q =? 0 then 0xAA else if q =? 1 then 0xBB else 0 in
  let dec := mkVP8LDecoder VP8_STATUS_OK (lbr_init [0]) (lbr_init [0]) 2 0
               [0xAA] [] false px [] in
  let ls := mkLoopState 2 1 0 2 g (Z.shiftl 1 24) in
  ((forall ls1 dec1 code,
     read_green hdr ls dec = (ls1, dec1, code) ->
     forall ls' dec',
     DecodeStep hdr 4 1 false ls dec = Continue ls' dec' ->
     cache_holds [] 0 ls' dec' /\
     (NUM_LITERAL_CODES <= code < len_code_limit -> last_cached ls' = src ls') /\
     (4 <= col ls + 1 -> last_cached ls' = src ls') /\
     (last_cached ls' = src ls' \/
      ((code < NUM_LITERAL_CODES \/ len_code_limit <= code) /\
       src ls' = src ls + 1 /\ col ls' = col ls + 1 /\ col ls' < 4))) /\
   (forall ls1 dec1 code,
     read_green hdr ls dec = (ls1, dec1, code) ->
     eos_ (br_ dec1) = false ->
     len_code_limit <= code < color_cache_limit hdr ->
     exists ls' dec',
       DecodeStep hdr 4 1 false ls dec = Continue ls' dec' /\
       data_ dec' (src ls) =
       VP8LColorCacheLookup (insert_pixels [] (data_ dec) 0 (Z.to_nat (src ls - 0)))
         (code - len_code_limit))) /\
  (let '(_, dec1, code) := read_green hdr ls dec in
   code = 281 /\ eos_ (br_ dec1) = false /\ len_code_limit <= code < color_cache_limit hdr) /\
  match DecodeStep hdr 4 1 false ls dec with
  | Continue ls' dec' => data_ dec' 2 = 0xBB /\ last_cached ls' = 2
  | _ => False
  end.
Proof.
  intros g hdr px dec ls.
  assert (Hh : cache_holds [] 0 ls dec)
    by (split; vm_compute; [reflexivity|split; discriminate]).
  pose proof (color_cache_lazy_insertion LBitReader (list Z) LBitReader_ops InsertLog_cache
                hdr 4 1 false [] 0 ls dec eq_refl Hh) as T.
  split; [exact T|]. split; vm_compute; repeat split; discriminate.
Defined.

(** Counterexample to claim C9 as stated: with a two-entry cache and a
    two-pixel row, after the first literal the pixel 0x100 is in the raster
    but not in the cache, and the next green symbol is read with the
    cache still empty. *)
Lemma color_cache_lazy_insertion_counterexample :
  let g := BuildHTreeGroup (fun i => match i with
             | GREEN => fun _ => mkHuffmanCode 1 1
             | _ => fun _ => mkHuffmanCode 0 0 end) in
  let hdr := mkVP8LMetadata 2 (fun _ => 0) 1 0 (-1) (fun _ => g) in
  let dec := mkVP8LDecoder VP8_STATUS_OK (lbr_init [0]) (lbr_init [0]) 0 0
               ([] : list Z) [] false (fun _ => 0) [] in
  match DecodeStep hdr 2 1 false (initial_loop_state hdr 2 dec) dec with
  | Continue ls' dec' =>
      src ls' = 1 /\ data_ dec' 0 = 0x100 /\
      (let '(_, dec2, code) := read_green hdr ls' dec' in
       code = 1 /\ eos_ (br_ dec2) = false /\ color_cache_ dec2 = [])
  | _ => False
  end.
Proof. vm_compute. repeat split. Qed.

(* ------------------------------------------------------------------------ *)
(** * The image header, tiles and the loop cursor *)

Lemma mod_double (x m : Z) :
  0 < m -> x mod (2 * m) = x mod 2 + 2 * ((x / 2) mod m).
Proof.
  intros Hm.
  pose proof (Z.div_mod x 2 ltac:(lia)) as E1.
  pose proof (Z.div_mod (x / 2) m ltac:(lia)) as E2.
  pose proof (Z.mod_pos_bound x 2 ltac:(lia)).
  pose proof (Z.mod_pos_bound (x / 2) m Hm).
  symmetry. apply Z.mod_unique with (q := x / 2 / m); [left; nia | nia].
Qed.

Lemma testbit_byte_cons (b t k : Z) :
  is_byte b -> 0 <= k ->
  Z.testbit (b + 256 * t) k =
  if k <? 8 then Z.testbit b k else Z.testbit t (k - 8).
Proof.
  unfold is_byte; intros Hb Hk. destruct (Z.ltb_spec k 8).
  - rewrite <- (Z.mod_pow2_bits_low (b + 256 * t) 8 k) by lia.
    f_equal. change (2 ^ 8) with 256.
    rewrite (Z.mul_comm 256 t), Z.mod_add by lia. apply Z.mod_small; lia.
  - replace k with ((k - 8) + 8) at 1 by lia.
    rewrite <- Z.div_pow2_bits by lia. f_equal. change (2 ^ 8) with 256.
    rewrite (Z.mul_comm 256 t), Z.div_add by lia.
    rewrite (Z.div_small b) by lia. lia.
Qed.

Lemma stream_bit_le (buf : list Z) (k : Z) :
  is_byte_list buf -> 0 <= k ->
  stream_bit buf k = Z.b2z (Z.testbit (le_value buf) k).
Proof.
  revert k. induction buf as [|b t IH]; intros k Hbuf Hk; unfold stream_bit.
  - cbn [le_value]. rewrite Z.testbit_0_l.
    replace (nth (Z.to_nat (k / 8)) [] 0) with 0 by (destruct (Z.to_nat (k / 8)); reflexivity).
    rewrite Z.testbit_0_l. reflexivity.
  - inversion Hbuf as [|? ? Hb Ht]; subst. cbn [le_value].
    rewrite testbit_byte_cons by assumption.
    destruct (Z.ltb_spec k 8).
    + rewrite (Z.div_small k 8) by lia. rewrite (Z.mod_small k 8) by lia.
      cbn [Z.to_nat nth]. destruct (Z.testbit b k); reflexivity.
    + specialize (IH (k - 8) Ht ltac:(lia)). unfold stream_bit in IH.
      rewrite <- IH.
      replace (k / 8) with ((k - 8) / 8 + 1)
        by (replace k with ((k - 8) + 1 * 8) at 2 by lia; rewrite Z.div_add; lia).
      replace (k mod 8) with ((k - 8) mod 8)
        by (replace k with ((k - 8) + 1 * 8) at 2 by lia; rewrite Z.mod_add; lia).
      assert (0 <= (k - 8) / 8) by (apply Z.div_pos; lia).
      rewrite Z2Nat.inj_add by lia. rewrite Nat.add_comm. reflexivity.
Qed.

Lemma le_value_nonneg (buf : list Z) : is_byte_list buf -> 0 <= le_value buf.
Proof.
  induction 1 as [|b t Hb Ht IH]; cbn [le_value]; unfold is_byte in *; lia.
Qed.

Lemma bits_from_le (buf : list Z) (k : Z) (n : nat) :
  is_byte_list buf -> 0 <= k ->
  bits_from buf k n = (le_value buf / 2 ^ k) mod 2 ^ Z.of_nat n.
Proof.
  intros Hbuf. revert k. induction n as [|n IH]; intros k Hk.
  - cbn. rewrite Z.mod_1_r. reflexivity.
  - cbn [bits_from]. rewrite IH by lia. rewrite stream_bit_le by assumption.
    rewrite Z.testbit_spec' by assumption.
    rewrite Nat2Z.inj_succ, Z.pow_succ_r by lia.
    rewrite mod_double by (apply Z.pow_pos_nonneg; lia).
    rewrite Z.div_div by (try apply Z.pow_pos_nonneg; lia).
    rewrite Z.pow_add_r by lia. reflexivity.
Qed.

Lemma field_extract (lo f hi k n : Z) :
  0 <= k -> 0 <= n -> 0 <= lo < 2 ^ k -> 0 <= f < 2 ^ n ->
  ((lo + 2 ^ k * (f + 2 ^ n * hi)) / 2 ^ k) mod 2 ^ n = f.
Proof.
  intros Hk Hn Hlo Hf.
  assert (0 < 2 ^ k) by (apply Z.pow_pos_nonneg; lia).
  assert (0 < 2 ^ n) by (apply Z.pow_pos_nonneg; lia).
  rewrite (Z.mul_comm (2 ^ k)), Z.div_add by lia.
  rewrite (Z.div_small lo) by lia. rewrite Z.add_0_l.
  rewrite (Z.mul_comm (2 ^ n)), Z.mod_add by lia. apply Z.mod_small; lia.
Qed.

Ltac pow_num :=
  repeat match goal with
         | |- context [2 ^ ?k] =>
             let v := eval vm_compute in (2 ^ k) in change (2 ^ k) with v
         end.

Lemma field_of (V lo f hi k n : Z) :
  0 <= k -> 0 <= n -> 0 <= lo < 2 ^ k -> 0 <= f < 2 ^ n ->
  V = lo + 2 ^ k * (f + 2 ^ n * hi) -> (V / 2 ^ k) mod 2 ^ n = f.
Proof. intros; subst; apply field_extract; assumption. Qed.

(** Reading [n] bits inside the buffer. *)
Lemma lbr_read_bits_in (buf : list Z) (pos n : Z) :
  0 <= pos -> 0 <= n <= 24 -> pos + n <= 8 * Z.of_nat (length buf) ->
  lbr_read_bits (mkLBR buf pos false) n =
  (bits_from buf pos (Z.to_nat n), mkLBR buf (pos + n) false).
Proof.
  intros Hp Hn Hl. unfold lbr_read_bits, lbr_set_bit_pos. cbn [lbr_eos lbr_buf lbr_pos orb].
  destruct (Z.ltb_spec 24 n); [lia|]. cbn [orb].
  destruct (Z.ltb_spec (8 * Z.of_nat (length buf)) (pos + n)); [lia|].
  reflexivity.
Qed.

(** VP8LGetInfo on a byte buffer of at least five bytes succeeds exactly
    when VP8LCheckSignature accepts it, and then returns the dimensions and
    alpha bit packed in bytes 1..4. *)
Lemma VP8LGetInfo_bytes (b0 b1 b2 b3 b4 : Z) (rest : list Z) :
  is_byte_list (b0 :: b1 :: b2 :: b3 :: b4 :: rest) ->
  VP8LGetInfo (Some (b0 :: b1 :: b2 :: b3 :: b4 :: rest))
    (Z.of_nat (length (b0 :: b1 :: b2 :: b3 :: b4 :: rest))) =
  if VP8LCheckSignature (b0 :: b1 :: b2 :: b3 :: b4 :: rest)
       (Z.of_nat (length (b0 :: b1 :: b2 :: b3 :: b4 :: rest)))
  then Some (1 + b1 + 256 * (b2 mod 64),
             1 + b2 / 64 + 4 * b3 + 1024 * (b4 mod 16),
             (b4 / 16) mod 2)
  else None.
Proof.
  intros Hb.
  set (buf := b0 :: b1 :: b2 :: b3 :: b4 :: rest) in *.
  assert (Hlen : 5 <= Z.of_nat (length buf)) by (cbn [buf length]; lia).
  unfold VP8LGetInfo.
  destruct (Z.ltb_spec (Z.of_nat (length buf)) VP8L_FRAME_HEADER_SIZE) as [Hs|_];
    [unfold VP8L_FRAME_HEADER_SIZE in Hs; lia|].
  destruct (VP8LCheckSignature buf (Z.of_nat (length buf))) eqn:Hsig;
    [|reflexivity].
  cbn [negb]. rewrite Nat2Z.id, firstn_all.
  unfold VP8LCheckSignature in Hsig. cbn [buf nth] in Hsig.
  apply andb_true_iff in Hsig as [Hsig Hver]. apply andb_true_iff in Hsig as [_ Hmagic].
  apply Z.eqb_eq in Hmagic, Hver. unfold VP8L_MAGIC_BYTE in Hmagic.
  rewrite Z.shiftr_div_pow2 in Hver by lia. change (2 ^ 5) with 32 in Hver.
  pose proof Hb as Hb'. unfold is_byte_list in Hb'.
  apply Forall_cons_iff in Hb' as [Hy0 Hb'].
  apply Forall_cons_iff in Hb' as [Hy1 Hb'].
  apply Forall_cons_iff in Hb' as [Hy2 Hb'].
  apply Forall_cons_iff in Hb' as [Hy3 Hb'].
  apply Forall_cons_iff in Hb' as [Hy4 Hrest]. unfold is_byte in *.
  pose proof (le_value_nonneg rest Hrest) as HR.
  assert (HV : le_value buf = b0 + 256 * b1 + 65536 * b2 + 16777216 * b3
                 + 4294967296 * b4 + 1099511627776 * le_value rest)
    by (cbn [buf le_value]; lia).
  clearbody buf.
  pose proof (Z.div_mod b2 64 ltac:(lia)). pose proof (Z.mod_pos_bound b2 64 ltac:(lia)).
  pose proof (Z.div_mod b4 16 ltac:(lia)). pose proof (Z.mod_pos_bound b4 16 ltac:(lia)).
  pose proof (Z.div_mod (b4 / 16) 2 ltac:(lia)). pose proof (Z.mod_pos_bound (b4 / 16) 2 ltac:(lia)).
  rewrite Z.div_div in * by lia. change (16 * 2) with 32 in *.
  assert (0 <= b2 / 64 < 4) by (split; [apply Z.div_pos|apply Z.div_lt_upper_bound]; lia).
  unfold ReadImageInfo, lbr_init. cbn [VP8LReadBits LBitReader_ops eos_].
  unfold VP8L_IMAGE_SIZE_BITS, VP8L_VERSION_BITS.
  rewrite lbr_read_bits_in by lia.
  rewrite lbr_read_bits_in by lia.
  rewrite lbr_read_bits_in by lia.
  rewrite lbr_read_bits_in by lia.
  rewrite lbr_read_bits_in by lia.
  cbn [lbr_eos fst].
  rewrite !bits_from_le by (assumption || lia).
  change (Z.of_nat (Z.to_nat 8)) with 8. change (Z.of_nat (Z.to_nat 14)) with 14.
  change (Z.of_nat (Z.to_nat 1)) with 1. change (Z.of_nat (Z.to_nat 3)) with 3.
  change (0 + 8) with 8. change (8 + 14) with 22. change (22 + 14) with 36.
  change (36 + 1) with 37.
  rewrite (field_of (le_value buf) 0 b0 (b1 + 256 * b2 + 65536 * b3 + 16777216 * b4
             + 4294967296 * le_value rest) 0 8) by (pow_num; lia).
  rewrite (field_of (le_value buf) b0 (b1 + 256 * (b2 mod 64))
             (b2 / 64 + 4 * b3 + 1024 * b4 + 262144 * le_value rest) 8 14) by (pow_num; lia).
  rewrite (field_of (le_value buf) (b0 + 256 * b1 + 65536 * (b2 mod 64))
             (b2 / 64 + 4 * b3 + 1024 * (b4 mod 16))
             (b4 / 16 + 16 * le_value rest) 22 14) by (pow_num; lia).
  rewrite (field_of (le_value buf)
             (b0 + 256 * b1 + 65536 * b2 + 16777216 * b3 + 4294967296 * (b4 mod 16))
             ((b4 / 16) mod 2) (b4 / 32 + 8 * le_value rest) 36 1) by (pow_num; lia).
  rewrite (field_of (le_value buf)
             (b0 + 256 * b1 + 65536 * b2 + 16777216 * b3 + 4294967296 * (b4 mod 16)
              + 68719476736 * ((b4 / 16) mod 2))
             (b4 / 32) (le_value rest) 37 3) by (pow_num; lia).
  rewrite Hmagic, Hver. unfold VP8L_MAGIC_BYTE. rewrite !Z.eqb_refl.
  cbn [negb fst]. apply f_equal. apply (f_equal2 pair); [apply (f_equal2 pair)|]; lia.
Qed.

Lemma le_value_app (l1 l2 : list Z) :
  le_value (l1 ++ l2) = le_value l1 + 256 ^ Z.of_nat (length l1) * le_value l2.
Proof.
  induction l1 as [|b l1 IH]; cbn [app le_value length].
  - lia.
  - rewrite IH, Nat2Z.inj_succ, Z.pow_succ_r by lia. lia.
Qed.

Lemma vp8l_header_le (width height has_alpha : Z) :
  1 <= width <= 16384 -> 1 <= height <= 16384 -> 0 <= has_alpha <= 1 ->
  is_byte_list (vp8l_header width height has_alpha) /\
  le_value (vp8l_header width height has_alpha) =
  VP8L_MAGIC_BYTE + 256 * ((width - 1) + 16384 * ((height - 1) + 16384 * has_alpha)).
Proof.
  intros Hw Hh Ha. unfold vp8l_header.
  set (f := (width - 1) + 2 ^ 14 * ((height - 1) + 2 ^ 14 * has_alpha)).
  assert (Hfv : f = width - 1 + 16384 * (height - 1 + 16384 * has_alpha))
    by reflexivity.
  clearbody f.
  assert (Hf : 0 <= f < 2 ^ 29) by (pow_num; lia).
  change (2 ^ 8) with 256. change (2 ^ 16) with (256 * 256).
  change (2 ^ 24) with (256 * 256 * 256). change (2 ^ 29) with (256 * 256 * 256 * 32) in Hf.
  rewrite <- !Z.div_div by lia.
  pose proof (Z.div_mod f 256 ltac:(lia)).
  pose proof (Z.div_mod (f / 256) 256 ltac:(lia)).
  pose proof (Z.div_mod (f / 256 / 256) 256 ltac:(lia)).
  pose proof (Z.mod_pos_bound f 256 ltac:(lia)).
  pose proof (Z.mod_pos_bound (f / 256) 256 ltac:(lia)).
  pose proof (Z.mod_pos_bound (f / 256 / 256) 256 ltac:(lia)).
  assert (0 <= f / 256 / 256 / 256 < 32).
  { rewrite !Z.div_div by lia. split; [apply Z.div_pos|apply Z.div_lt_upper_bound]; lia. }
  split.
  - unfold is_byte_list, is_byte, VP8L_MAGIC_BYTE.
    repeat constructor; lia.
  - cbn [le_value]. unfold VP8L_MAGIC_BYTE. lia.
Qed.

(** The header of any [width] x [height] image with 1 <= width, height
    <= 16384, followed by any bytes, is read back by VP8LGetInfo. *)
Lemma VP8LGetInfo_header_roundtrip (width height has_alpha : Z) (rest : list Z) :
  1 <= width <= 16384 -> 1 <= height <= 16384 -> 0 <= has_alpha <= 1 ->
  is_byte_list rest ->
  VP8LGetInfo (Some (vp8l_header width height has_alpha ++ rest))
    (Z.of_nat (length (vp8l_header width height has_alpha ++ rest))) =
  Some (width, height, has_alpha).
Proof.
  intros Hw Hh Ha Hrest.
  destruct (vp8l_header_le width height has_alpha Hw Hh Ha) as [Hbytes Hle].
  pose proof (le_value_nonneg rest Hrest) as HR.
  assert (Hsig : VP8LCheckSignature (vp8l_header width height has_alpha ++ rest)
                   (Z.of_nat (length (vp8l_header width height has_alpha ++ rest))) = true).
  { unfold VP8LCheckSignature, vp8l_header. cbn [app nth length].
    rewrite Z.shiftr_div_pow2 by lia. rewrite Z.div_div by lia.
    rewrite Z.div_small by (pow_num; lia). unfold VP8L_FRAME_HEADER_SIZE.
    apply andb_true_iff; split; [apply andb_true_iff; split; [apply Z.leb_le; lia|]|];
      apply Z.eqb_eq; reflexivity. }
  set (buf := vp8l_header width height has_alpha ++ rest) in *.
  assert (HV : le_value buf = 47 + 256 * ((width - 1) + 16384 * ((height - 1)
                 + 16384 * has_alpha)) + 1099511627776 * le_value rest).
  { subst buf. rewrite le_value_app, Hle. reflexivity. }
  assert (Hlen : 5 <= Z.of_nat (length buf))
    by (subst buf; rewrite length_app; cbn [vp8l_header length]; lia).
  assert (Hb : is_byte_list buf) by (apply Forall_app; split; assumption).
  clearbody buf.
  unfold VP8LGetInfo.
  destruct (Z.ltb_spec (Z.of_nat (length buf)) VP8L_FRAME_HEADER_SIZE) as [Hs|_];
    [unfold VP8L_FRAME_HEADER_SIZE in Hs; lia|].
  rewrite Hsig. cbn [negb]. rewrite Nat2Z.id, firstn_all.
  unfold ReadImageInfo, lbr_init. cbn [VP8LReadBits LBitReader_ops eos_].
  unfold VP8L_IMAGE_SIZE_BITS, VP8L_VERSION_BITS.
  do 5 (rewrite lbr_read_bits_in by lia).
  cbn [lbr_eos fst].
  rewrite !bits_from_le by (assumption || lia).
  change (Z.of_nat (Z.to_nat 8)) with 8. change (Z.of_nat (Z.to_nat 14)) with 14.
  change (Z.of_nat (Z.to_nat 1)) with 1. change (Z.of_nat (Z.to_nat 3)) with 3.
  change (0 + 8) with 8. change (8 + 14) with 22. change (22 + 14) with 36.
  change (36 + 1) with 37.
  rewrite (field_of (le_value buf) 0 47
             ((width - 1) + 16384 * ((height - 1) + 16384 * (has_alpha
              + 16 * le_value rest))) 0 8) by (pow_num; lia).
  rewrite (field_of (le_value buf) 47 (width - 1)
             ((height - 1) + 16384 * (has_alpha + 16 * le_value rest)) 8 14)
    by (pow_num; lia).
  rewrite (field_of (le_value buf) (47 + 256 * (width - 1)) (height - 1)
             (has_alpha + 16 * le_value rest) 22 14) by (pow_num; lia).
  rewrite (field_of (le_value buf) (47 + 256 * (width - 1) + 4194304 * (height - 1))
             has_alpha (8 * le_value rest) 36 1) by (pow_num; lia).
  rewrite (field_of (le_value buf)
             (47 + 256 * (width - 1) + 4194304 * (height - 1)
              + 68719476736 * has_alpha) 0 (le_value rest) 37 3) by (pow_num; lia).
  unfold VP8L_MAGIC_BYTE. rewrite !Z.eqb_refl. cbn [negb fst].
  apply f_equal. apply (f_equal2 pair); [apply (f_equal2 pair)|]; lia.
Qed.

Lemma tile_col_same (x b : Z) :
  0 <= b -> Z.land x (Z.shiftl 1 b - 1) <> 0 ->
  Z.shiftr x b = Z.shiftr (x - 1) b.
Proof.
  intros Hb Hx. rewrite Z.shiftl_1_l in Hx.
  replace (2 ^ b - 1) with (Z.ones b) in Hx by (rewrite Z.ones_equiv; lia).
  rewrite Z.land_ones in Hx by lia.
  rewrite !Z.shiftr_div_pow2 by lia.
  assert (Hp : 0 < 2 ^ b) by (apply Z.pow_pos_nonneg; lia).
  pose proof (Z.div_mod x (2 ^ b) ltac:(lia)).
  pose proof (Z.mod_pos_bound x (2 ^ b) Hp).
  apply Z.div_unique with (r := x mod 2 ^ b - 1); [left; lia|lia].
Qed.

(** After UpdateDecoder, a column whose low bits under the mask are not
    zero lies in the same tile, hence the same group, as the column before. *)
Lemma UpdateDecoder_tile_group (hdr0 : VP8LMetadata) (width height x y : Z) :
  0 <= huffman_subsample_bits_ hdr0 ->
  Z.land x (huffman_mask_ (snd (UpdateDecoder hdr0 width height))) <> 0 ->
  GetHtreeGroupForPos (snd (UpdateDecoder hdr0 width height)) x y =
  GetHtreeGroupForPos (snd (UpdateDecoder hdr0 width height)) (x - 1) y.
Proof.
  intros Hb Hx. unfold UpdateDecoder, GetHtreeGroupForPos, GetMetaIndex in *.
  cbn [snd huffman_mask_ htree_groups_ huffman_image_ huffman_xsize_
       huffman_subsample_bits_] in *.
  destruct (Z.eqb_spec (huffman_subsample_bits_ hdr0) 0); [reflexivity|].
  rewrite (tile_col_same x) by assumption. reflexivity.
Qed.

Section LoopInvariants.
Context {BR CC : Type} `{VP8LBitReader BR} `{VP8LColorCache CC}.

Lemma wrap_rows_cursor : forall width pf fuel c r (dec : VP8LDecoder BR CC),
  0 < width -> 0 <= c -> c / width < Z.of_nat fuel ->
  fst (wrap_rows width pf fuel c r dec) = (c mod width, r + c / width).
Proof.
  intros width pf fuel. induction fuel as [|fuel IH]; intros c r dec Hw Hc Hf.
  - cbn in Hf. pose proof (Z.div_pos c width Hc Hw). lia.
  - cbn [wrap_rows]. destruct (Z.leb_spec width c).
    + assert (Emod : c mod width = (c - width) mod width).
      { replace c with ((c - width) + 1 * width) at 1 by lia.
        apply Z.mod_add; lia. }
      assert (Ediv : c / width = (c - width) / width + 1).
      { replace c with ((c - width) + 1 * width) at 1 by lia.
        apply Z.div_add; lia. }
      rewrite IH by lia. rewrite Emod, Ediv. f_equal; lia.
    + cbn [fst]. rewrite Z.mod_small, Z.div_small by lia. f_equal; lia.
Qed.

Lemma AdvanceByOne_shape : forall hdr width pf ls (dec : VP8LDecoder BR CC),
  let '(ls', _) := AdvanceByOne hdr width pf ls dec in
  src ls' = src ls + 1 /\
  ((col ls + 1 < width /\ col ls' = col ls + 1 /\ row ls' = row ls /\
    htree_group ls' = htree_group ls) \/
   (width <= col ls + 1 /\ col ls' = 0 /\ row ls' = row ls + 1)).
Proof.
  intros hdr width pf ls dec. unfold AdvanceByOne.
  destruct (Z.leb_spec width (col ls + 1)).
  - destruct (if cache_present hdr then _ else _) as [cc lc]. cbn. split; [lia|right; lia].
  - cbn. split; [lia|left; repeat split; try lia; reflexivity].
Qed.

Lemma read_green_group : forall hdr ls (dec : VP8LDecoder BR CC),
  group_ok hdr ls ->
  htree_group (fst (fst (read_green hdr ls dec))) =
  GetHtreeGroupForPos hdr (col ls) (row ls).
Proof.
  intros hdr ls dec Hg. unfold read_green.
  destruct (next_sync_row ls <=? row ls); cbv iota beta;
  match goal with |- context [Z.land (col ?l) (mask hdr) =? 0] =>
    destruct (Z.eqb_spec (Z.land (col l) (mask hdr)) 0) as [E|E] end;
    destruct (ReadSymbol _ _) as [code br]; cbn; try reflexivity;
    apply Hg; exact E.
Qed.

End LoopInvariants.

(** The loop's [row] and [col] always satisfy [src = width * row + col]
    with [0 <= col < width]. *)
Theorem decode_cursor_invariant {BR CC : Type} `{VP8LBitReader BR} `{VP8LColorCache CC}
    (hdr : VP8LMetadata) (width height : Z) (process_func : bool)
    (dec : VP8LDecoder BR CC) :
  0 < width ->
  cursor_ok width (initial_loop_state hdr width dec) /\
  forall ls d ls' d',
    cursor_ok width ls ->
    DecodeStep hdr width height process_func ls d = Continue ls' d' ->
    cursor_ok width ls'.
Proof.
  intros Hw. split.
  { unfold cursor_ok, initial_loop_state; cbn.
    pose proof (Z.div_mod (last_pixel_ dec) width ltac:(lia)).
    pose proof (Z.mod_pos_bound (last_pixel_ dec) width Hw). lia. }
  intros ls d ls' d' [Hs Hc]. unfold DecodeStep.
  pose proof (read_green_fields hdr ls d) as F.
  destruct (read_green hdr ls d) as [[ls1 d1] code].
  destruct F as (Fs & Fl & Fr & Fc & _).
  unfold DecodeSymbol. cbv zeta.
  destruct (eos_ (br_ d1)); [discriminate|].
  destruct (code <? NUM_LITERAL_CODES) eqn:Elit.
  { destruct (DecodeLiteral _ code (br_ d1)) as [[px|] br'];
      [|discriminate].
    pose proof (AdvanceByOne_shape hdr width process_func ls1
        (set_data (set_br d1 br') (upd (data_ (set_br d1 br')) (src ls1) px))) as A.
    destruct (AdvanceByOne _ _ _ _ _) as [ls2 d2].
    intros E; inversion E; subst. unfold cursor_ok. lia. }
  destruct (code <? len_code_limit) eqn:Elen.
  { pose proof (read_backref_length width (htree_group ls1) code (br_ d1)) as Hlen.
    apply Z.ltb_ge in Elit. specialize (Hlen Elit).
    destruct (read_backref width (htree_group ls1) code (br_ d1))
      as [[length dist] br'].
    cbn [fst] in Hlen. cbn [br_ set_br].
    destruct (eos_ br'); [discriminate|].
    destruct ((src ls1 <? dist) || (width * height - src ls1 <? length));
      [discriminate|].
    pose proof (wrap_rows_cursor width process_func
      (Z.to_nat ((col ls1 + length) / width) + 1) (col ls1 + length) (row ls1)
      (set_data (set_br d1 br') (CopyBlock32b (data_ (set_br d1 br')) (src ls1) dist length))
      Hw ltac:(lia) ltac:(pose proof (Z.div_pos (col ls1 + length) width ltac:(lia) Hw); lia))
      as W.
    destruct (wrap_rows _ _ _ _ _ _) as [[c2 r2] d2]. cbn [fst] in W.
    inversion W; subst c2 r2.
    destruct (if cache_present hdr then _ else _) as [cc lc].
    intros E; inversion E; subst. unfold cursor_ok; cbn.
    pose proof (Z.div_mod (col ls1 + length) width ltac:(lia)).
    pose proof (Z.mod_pos_bound (col ls1 + length) width Hw). nia. }
  destruct (code <? color_cache_limit hdr); [|discriminate].
  destruct (flush_cache _ _ _ _) as [cc lc].
  pose proof (AdvanceByOne_shape hdr width process_func (set_last_cached ls1 lc)
      (set_data (set_color_cache d1 cc)
         (upd (data_ (set_color_cache d1 cc)) (src ls1)
            (VP8LColorCacheLookup cc (code - len_code_limit))))) as A.
  destruct (AdvanceByOne _ _ _ _ _) as [ls2 d2].
  intros E; inversion E; subst. unfold cursor_ok. cbn in A. lia.
Qed.

(** With the mask set by UpdateDecoder, each green symbol is read with the
    group of the tile of the current pixel [src]. *)
Theorem decode_group_invariant {BR CC : Type} `{VP8LBitReader BR} `{VP8LColorCache CC}
    (hdr0 : VP8LMetadata) (width height : Z) (process_func : bool)
    (dec : VP8LDecoder BR CC) :
  0 <= huffman_subsample_bits_ hdr0 ->
  let hdr := snd (UpdateDecoder hdr0 width height) in
  group_ok hdr (initial_loop_state hdr width dec) /\
  (forall ls (d : VP8LDecoder BR CC), group_ok hdr ls -> cursor_ok width ls ->
     htree_group (fst (fst (read_green hdr ls d))) =
     GetHtreeGroupForPos hdr (src ls mod width) (src ls / width)) /\
  (forall ls (d : VP8LDecoder BR CC) ls' d', group_ok hdr ls ->
     DecodeStep hdr width height process_func ls d = Continue ls' d' ->
     group_ok hdr ls').
Proof.
  intros Hb hdr. split; [|split].
  - intros _. reflexivity.
  - intros ls d Hg [Hs Hc]. rewrite read_green_group by exact Hg.
    assert (Hw : 0 < width) by lia.
    rewrite Hs. rewrite Z.mul_comm, Z.add_comm, Z.mod_add, Z.div_add by lia.
    rewrite Z.mod_small, Z.div_small by lia. f_equal; lia.
  - intros ls d ls' d' Hg. unfold DecodeStep.
    pose proof (read_green_fields hdr ls d) as F.
    pose proof (read_green_group hdr ls d Hg) as G.
    destruct (read_green hdr ls d) as [[ls1 d1] code]. cbn [fst] in G.
    destruct F as (Fs & Fl & Fr & Fc & _). rewrite <- Fr, <- Fc in G.
    assert (Tile : forall x y, Z.land x (huffman_mask_ hdr) <> 0 ->
              GetHtreeGroupForPos hdr x y = GetHtreeGroupForPos hdr (x - 1) y)
      by (intros; apply UpdateDecoder_tile_group; assumption).
    clearbody hdr.
    assert (Adv : forall ls2 (d2 : VP8LDecoder BR CC),
              htree_group ls2 = GetHtreeGroupForPos hdr (col ls2) (row ls2) ->
              group_ok hdr (fst (AdvanceByOne hdr width process_func ls2 d2))).
    { intros ls2 d2 G2. pose proof (AdvanceByOne_shape hdr width process_func ls2 d2) as A.
      destruct (AdvanceByOne _ _ _ _ _) as [ls3 d3]. cbn [fst].
      destruct A as (_ & [(_ & Ec & Er & Eg) | (_ & Ec & _)]); intros Hm.
      - rewrite Eg, G2, Ec, Er. rewrite Ec in Hm.
        rewrite (Tile (col ls2 + 1)) by exact Hm. f_equal; lia.
      - rewrite Ec in Hm. rewrite Z.land_0_l in Hm. congruence. }
    unfold DecodeSymbol. cbv zeta.
    destruct (eos_ (br_ d1)); [discriminate|].
    destruct (code <? NUM_LITERAL_CODES).
    { destruct (DecodeLiteral _ code (br_ d1)) as [[px|] br'];
        [|discriminate].
      specialize (Adv ls1 (set_data (set_br d1 br') (upd (data_ (set_br d1 br')) (src ls1) px)) G).
      destruct (AdvanceByOne _ _ _ _ _) as [ls2 d2].
      intros E; inversion E; subst. exact Adv. }
    destruct (code <? len_code_limit).
    { destruct (read_backref width (htree_group ls1) code (br_ d1))
        as [[length dist] br'].
      cbn [br_ set_br].
      destruct (eos_ br'); [discriminate|].
      destruct ((src ls1 <? dist) || (width * height - src ls1 <? length));
        [discriminate|].
      destruct (wrap_rows _ _ _ _ _ _) as [[c2 r2] d2].
      destruct (if cache_present hdr then _ else _) as [cc lc].
      intros E; inversion E; subst. intros Hm. cbn [htree_group col row] in *.
      unfold mask. destruct (Z.eqb_spec (Z.land c2 (huffman_mask_ hdr)) 0);
        [contradiction|reflexivity]. }
    destruct (code <? color_cache_limit hdr); [|discriminate].
    destruct (flush_cache _ _ _ _) as [cc lc].
    specialize (Adv (set_last_cached ls1 lc)
      (set_data (set_color_cache d1 cc)
         (upd (data_ (set_color_cache d1 cc)) (src ls1)
            (VP8LColorCacheLookup cc (code - len_code_limit)))) G).
    destruct (AdvanceByOne _ _ _ _ _) as [ls2 d2].
    intros E; inversion E; subst. exact Adv.
Qed.

Lemma shiftr_lt_subsample (x n b : Z) :
  0 <= b -> 0 <= x < n -> 0 <= Z.shiftr x b < VP8LSubSampleSize n b.
Proof.
  intros Hb Hx. unfold VP8LSubSampleSize.
  rewrite Z.shiftl_1_l, !Z.shiftr_div_pow2 by lia.
  assert (Hp : 0 < 2 ^ b) by (apply Z.pow_pos_nonneg; lia).
  split; [apply Z.div_pos; lia|].
  pose proof (Z.mul_div_le x (2 ^ b) Hp).
  assert (x / 2 ^ b + 1 <= (n + 2 ^ b - 1) / 2 ^ b); [|lia].
  apply Z.div_le_lower_bound; lia.
Qed.

(** GetMetaIndex reads the meta-Huffman image only inside its
    subsampled width x height bounds. *)
Theorem GetMetaIndex_reads_image (hdr0 : VP8LMetadata) (width height x y : Z)
    (image image' : mem) :
  0 <= huffman_subsample_bits_ hdr0 -> 0 <= x < width -> 0 <= y < height ->
  let hdr := snd (UpdateDecoder hdr0 width height) in
  let bits := huffman_subsample_bits_ hdr in
  (forall i, 0 <= i < VP8LSubSampleSize width bits * VP8LSubSampleSize height bits ->
     image i = image' i) ->
  GetMetaIndex image (huffman_xsize_ hdr) bits x y =
  GetMetaIndex image' (huffman_xsize_ hdr) bits x y.
Proof.
  intros Hb Hx Hy hdr bits Himg. subst hdr bits.
  cbn [UpdateDecoder snd huffman_xsize_ huffman_subsample_bits_] in *.
  unfold GetMetaIndex.
  destruct (huffman_subsample_bits_ hdr0 =? 0); [reflexivity|]. apply Himg.
  pose proof (shiftr_lt_subsample x width _ Hb Hx).
  pose proof (shiftr_lt_subsample y height _ Hb Hy). nia.
Qed.

Lemma VP8LGetInfo_bytes_witness :
  is_byte_list [47; 63; 0; 0; 16] /\
  VP8LGetInfo (Some [47; 63; 0; 0; 16]) 5 = Some (64, 1, 1).
Proof.
  assert (Hb : is_byte_list [47; 63; 0; 0; 16])
    by (unfold is_byte_list, is_byte; repeat constructor; lia).
  split; [exact Hb|].
  etransitivity; [exact (VP8LGetInfo_bytes 47 63 0 0 16 [] Hb)|reflexivity].
Defined.

Lemma VP8LGetInfo_header_roundtrip_witness :
  vp8l_header 100 200 1 ++ [7] = [47; 99; 192; 49; 16; 7] /\
  VP8LGetInfo (Some (vp8l_header 100 200 1 ++ [7])) 6 = Some (100, 200, 1).
Proof.
  split; [reflexivity|].
  exact (VP8LGetInfo_header_roundtrip 100 200 1 [7] ltac:(lia) ltac:(lia) ltac:(lia)
           ltac:(unfold is_byte_list, is_byte; repeat constructor; lia)).
Defined.

Lemma UpdateDecoder_tile_group_witness :
  let hdr0 := mkVP8LMetadata 0 (fun i => i) 0 2 0 witness_groups in
  0 <= huffman_subsample_bits_ hdr0 /\
  GetHtreeGroupForPos (snd (UpdateDecoder hdr0 10 10)) 5 4 =
  GetHtreeGroupForPos (snd (UpdateDecoder hdr0 10 10)) 4 4.
Proof.
  intros hdr0. split; [cbn; lia|].
  exact (UpdateDecoder_tile_group hdr0 10 10 5 4 ltac:(cbn; lia)
           ltac:(vm_compute; discriminate)).
Defined.

Lemma decode_cursor_invariant_witness :
  let hdr := mkVP8LMetadata 0 (fun i => i) 3 2 3 witness_groups in
  let dec := mkVP8LDecoder VP8_STATUS_OK (lbr_init [0]) (lbr_init [0]) 13 0
               ([] : list Z) [] false (fun _ => 0) [] in
  0 < 5 /\ cursor_ok 5 (initial_loop_state hdr 5 dec) /\
  row (initial_loop_state hdr 5 dec) = 2 /\ col (initial_loop_state hdr 5 dec) = 3.
Proof.
  intros hdr dec. split; [lia|]. split; [|split; reflexivity].
  exact (proj1 (decode_cursor_invariant (BR := LBitReader) (CC := list Z)
                  hdr 5 5 false dec ltac:(lia))).
Defined.

Lemma decode_group_invariant_witness :
  let hdr0 := mkVP8LMetadata 0 (fun i => i) 0 2 0 witness_groups in
  let dec := mkVP8LDecoder VP8_STATUS_OK (lbr_init [0]) (lbr_init [0]) 24 0
               ([] : list Z) [] false (fun _ => 0) [] in
  let hdr := snd (UpdateDecoder hdr0 5 5) in
  0 <= huffman_subsample_bits_ hdr0 /\
  group_ok hdr (initial_loop_state hdr 5 dec) /\
  htree_group (initial_loop_state hdr 5 dec) = witness_groups 3.
Proof.
  intros hdr0 dec hdr. split; [cbn; lia|]. split; [|reflexivity].
  exact (proj1 (decode_group_invariant (BR := LBitReader) (CC := list Z)
                  hdr0 5 5 false dec ltac:(cbn; lia))).
Defined.

Lemma GetMetaIndex_reads_image_witness :
  let hdr0 := mkVP8LMetadata 0 (fun i => i) 0 2 0 witness_groups in
  0 <= huffman_subsample_bits_ hdr0 /\
  GetMetaIndex (fun i => i) 2 2 4 4 = 3 /\
  GetMetaIndex (fun i => i) 2 2 4 4 = GetMetaIndex (fun i => if i <? 4 then i else 0) 2 2 4 4.
Proof.
  intros hdr0. split; [cbn; lia|]. split; [reflexivity|].
  exact (GetMetaIndex_reads_image hdr0 5 5 4 4 (fun i => i)
           (fun i => if i <? 4 then i else 0) ltac:(cbn; lia) ltac:(lia) ltac:(lia)
           (fun i Hi => ltac:(cbn in Hi; cbv beta; rewrite (proj2 (Z.ltb_lt i 4)) by lia; reflexivity))).
Defined.

(* ------------------------------------------------------------------------ *)
(** * The write frame of the copy engine and of DecodeImageData *)

Lemma writes_within_refl (m : mem) lo hi : writes_within m m lo hi.
Proof. intros q _. reflexivity. Qed.

Lemma writes_within_trans (m1 m2 m3 : mem) lo hi :
  writes_within m1 m2 lo hi -> writes_within m2 m3 lo hi -> writes_within m1 m3 lo hi.
Proof. intros A B q Hq. rewrite B by exact Hq. apply A, Hq. Qed.

Lemma writes_within_widen (m m' : mem) lo hi lo' hi' :
  lo' <= lo -> hi <= hi' -> writes_within m m' lo hi -> writes_within m m' lo' hi'.
Proof. intros H1 H2 A q Hq. apply A. lia. Qed.

Lemma writes_within_upd (m : mem) a v lo hi :
  lo <= a < hi -> writes_within m (upd m a v) lo hi.
Proof. intros Ha q Hq. apply upd_other. lia. Qed.

Lemma writes_within_upd_after (m m1 : mem) a v lo hi :
  writes_within m m1 lo hi -> lo <= a < hi -> writes_within m (upd m1 a v) lo hi.
Proof. intros W Ha q Hq. rewrite upd_other by lia. apply W, Hq. Qed.

Lemma writes_within_upd_before (m m' : mem) a v lo hi :
  lo <= a < hi -> writes_within (upd m a v) m' lo hi -> writes_within m m' lo hi.
Proof. intros Ha W q Hq. rewrite W by exact Hq. apply upd_other. lia. Qed.

Lemma copy_elems_within : forall n m dst s,
  writes_within m (copy_elems m dst s n) dst (dst + Z.of_nat n).
Proof.
  induction n as [|n IH]; intros m dst s; cbn [copy_elems].
  - apply writes_within_refl.
  - apply (writes_within_trans _ (upd m dst (m s))).
    + apply writes_within_upd. lia.
    + eapply writes_within_widen; [| |apply IH]; lia.
Qed.

Lemma memcpy_elems_within (m : mem) dst s n :
  writes_within m (memcpy_elems m dst s n) dst (dst + n).
Proof.
  intros q Hq. unfold memcpy_elems.
  replace ((dst <=? q) && (q <? dst + n)) with false; [reflexivity|].
  symmetry. apply andb_false_iff. destruct Hq; [left; apply Z.leb_gt|right; apply Z.ltb_ge]; lia.
Qed.

Lemma store_pattern64_within : forall n m dst pat,
  writes_within m (store_pattern64 m dst pat n) dst (dst + 2 * Z.of_nat n).
Proof.
  induction n as [|n IH]; intros m dst pat; cbn [store_pattern64].
  - apply writes_within_refl.
  - apply (writes_within_trans _ (store64 m dst pat)).
    + unfold store64. apply writes_within_upd_after; [|lia].
      apply writes_within_upd; lia.
    + eapply writes_within_widen; [| |apply IH]; lia.
Qed.

Lemma store_pattern32_within : forall n m dst pat,
  writes_within m (store_pattern32 m dst pat n) dst (dst + 4 * Z.of_nat n).
Proof.
  induction n as [|n IH]; intros m dst pat; cbn [store_pattern32].
  - apply writes_within_refl.
  - apply (writes_within_trans _ (store32_bytes m dst pat)).
    + unfold store32_bytes.
      do 3 (apply writes_within_upd_after; [|lia]).
      apply writes_within_upd; lia.
    + eapply writes_within_widen; [| |apply IH]; lia.
Qed.

Lemma align_pattern8b_within : forall fuel m s dst len pat m' s' dst' len' pat',
  align_pattern8b fuel m s dst len pat = (m', s', dst', len', pat') ->
  exists k, 0 <= k <= Z.of_nat fuel /\ dst' = dst + k /\ len' = len - k /\
    s' = s + k /\ writes_within m m' dst (dst + k).
Proof.
  induction fuel as [|fuel IH]; intros m s dst len pat m' s' dst' len' pat' E;
    cbn [align_pattern8b] in E.
  - inversion E; subst. exists 0. repeat split; try lia; try apply writes_within_refl.
  - destruct (Z.land dst 3 =? 0).
    + inversion E; subst. exists 0. repeat split; try lia; try apply writes_within_refl.
    + apply IH in E. destruct E as (k & Hk & -> & -> & -> & W).
      exists (k + 1). repeat split; try lia.
      apply (writes_within_trans _ (upd m dst (m s))).
      * apply writes_within_upd. lia.
      * eapply writes_within_widen; [| |exact W]; lia.
Qed.

Lemma shiftl_shiftr_le (x b : Z) :
  0 <= x -> 0 <= b -> 0 <= Z.shiftl (Z.shiftr x b) b <= x.
Proof.
  intros Hx Hb. rewrite Z.shiftl_mul_pow2, Z.shiftr_div_pow2 by lia.
  assert (0 < 2 ^ b) by (apply Z.pow_pos_nonneg; lia).
  split; [apply Z.mul_nonneg_nonneg; [apply Z.div_pos|]; lia|].
  rewrite Z.mul_comm. apply Z.mul_div_le. lia.
Qed.

(** The copy engine writes only its destination run [[dst, dst + length)]. *)
Lemma CopyBlock32b_within (m : mem) dst dist length :
  0 <= length -> writes_within m (CopyBlock32b m dst dist length) dst (dst + length).
Proof.
  intros Hl. unfold CopyBlock32b.
  destruct ((dist <=? 2) && (4 <=? length) && (Z.land (4 * dst) 3 =? 0)) eqn:Ef.
  - apply andb_true_iff in Ef as [Ef _]. apply andb_true_iff in Ef as [_ H4].
    apply Z.leb_le in H4. unfold CopySmallPattern32b.
    destruct (negb (Z.land (4 * dst) 4 =? 0)); cbv iota beta zeta.
    + pose proof (shiftl_shiftr_le (length - 1) 1 ltac:(lia) ltac:(lia)) as Hs.
      rewrite Z.shiftl_mul_pow2, Z.shiftr_div_pow2 in Hs by lia.
      change (2 ^ 1) with 2 in Hs.
      assert (Hi : 0 <= Z.shiftr (length - 1) 1) by (apply Z.shiftr_nonneg; lia).
      assert (Ei : Z.shiftl (Z.shiftr (length - 1) 1) 1 = 2 * Z.shiftr (length - 1) 1)
        by (rewrite Z.shiftl_mul_pow2, Z.shiftr_div_pow2 by lia; lia).
      assert (Hodd : Z.land (length - 1) 1 <> 0 ->
                     2 * Z.shiftr (length - 1) 1 + 1 <= length - 1).
      { rewrite Z.shiftr_div_pow2 by lia. change (2 ^ 1) with 2.
        intros Hn. replace (Z.land (length - 1) 1) with (Z.land (length - 1) (Z.ones 1))
          in Hn by reflexivity. rewrite Z.land_ones in Hn by lia.
        change (2 ^ 1) with 2 in Hn.
        pose proof (Z.div_mod (length - 1) 2 ltac:(lia)).
        pose proof (Z.mod_pos_bound (length - 1) 2 ltac:(lia)). lia. }
      assert (Hle : 2 * Z.shiftr (length - 1) 1 <= length - 1).
      { rewrite Z.shiftr_div_pow2 by lia. change (2 ^ 1) with 2.
        apply Z.mul_div_le. lia. }
      set (i := Z.shiftr (length - 1) 1) in *.
      match goal with |- writes_within m (if _ then upd ?M _ _ else _) _ _ =>
        assert (W1 : writes_within m M dst (dst + length)) end.
      { match goal with |- writes_within m (store_pattern64 ?M0 _ _ _) _ _ =>
          apply (writes_within_trans _ M0) end; [apply writes_within_upd; lia|].
        eapply writes_within_widen; [| |apply store_pattern64_within].
        - lia.
        - rewrite Z2Nat.id by lia. lia. }
      destruct (Z.eqb_spec (Z.land (length - 1) 1) 0); cbn [negb];
        [exact W1|].
      eapply writes_within_trans; [exact W1|].
      apply writes_within_upd. rewrite Ei. specialize (Hodd n). lia.
    + assert (Hi : 0 <= Z.shiftr length 1) by (apply Z.shiftr_nonneg; lia).
      assert (Ei : Z.shiftl (Z.shiftr length 1) 1 = 2 * Z.shiftr length 1)
        by (rewrite Z.shiftl_mul_pow2, Z.shiftr_div_pow2 by lia; lia).
      assert (Hle : 2 * Z.shiftr length 1 <= length).
      { rewrite Z.shiftr_div_pow2 by lia. change (2 ^ 1) with 2.
        apply Z.mul_div_le. lia. }
      assert (Hodd : Z.land length 1 <> 0 -> 2 * Z.shiftr length 1 + 1 <= length).
      { rewrite Z.shiftr_div_pow2 by lia. change (2 ^ 1) with 2.
        intros Hn. replace (Z.land length 1) with (Z.land length (Z.ones 1))
          in Hn by reflexivity. rewrite Z.land_ones in Hn by lia.
        change (2 ^ 1) with 2 in Hn.
        pose proof (Z.div_mod length 2 ltac:(lia)).
        pose proof (Z.mod_pos_bound length 2 ltac:(lia)). lia. }
      match goal with |- writes_within m (if _ then upd ?M _ _ else _) _ _ =>
        assert (W1 : writes_within m M dst (dst + length)) end.
      { eapply writes_within_widen; [| |apply store_pattern64_within].
        - lia.
        - rewrite Z2Nat.id by lia. lia. }
      destruct (Z.eqb_spec (Z.land length 1) 0); cbn [negb]; [exact W1|].
      eapply writes_within_trans; [exact W1|].
      apply writes_within_upd. rewrite Ei. specialize (Hodd n). lia.
  - destruct (length <=? dist).
    + apply memcpy_elems_within.
    + pose proof (copy_elems_within (Z.to_nat length) m dst (dst - dist)) as W.
      rewrite Z2Nat.id in W by lia. exact W.
Qed.

Section LoopBounds.
Context {BR CC : Type} `{VP8LBitReader BR} `{VP8LColorCache CC}.
Variables (hdr : VP8LMetadata) (width height last_row : Z) (process_func : bool).

Lemma DecodeLiteral_none_eos : forall g code (br br' : BR),
  DecodeLiteral g code br = (None, br') -> eos_ br' = true.
Proof.
  intros g code br br'. unfold DecodeLiteral.
  destruct (is_trivial_literal g); [intros E; inversion E|].
  destruct (ReadSymbol _ br) as [red b1].
  destruct (ReadSymbol _ (VP8LFillBitWindow b1)) as [blue b2].
  destruct (ReadSymbol _ b2) as [alpha b3].
  destruct (eos_ b3) eqn:E3; intros E; inversion E; subst; tauto.
Qed.

Lemma DecodeSymbol_bounds : forall ls (dec : VP8LDecoder BR CC) code,
  0 < width -> 0 <= src ls < width * height ->
  match DecodeSymbol hdr width height process_func ls dec code with
  | Continue ls' d' =>
      src ls < src ls' <= width * height /\
      writes_within (data_ dec) (data_ d') (src ls) (width * height)
  | Break ls' d' => ls' = ls /\ eos_ (br_ d') = true /\ data_ d' = data_ dec
  | StepError d' => data_ d' = data_ dec
  end.
Proof.
  intros ls dec code Hw Hs. unfold DecodeSymbol.
  destruct (eos_ (br_ dec)) eqn:Eeos; [auto|].
  destruct (Z.ltb_spec code NUM_LITERAL_CODES) as [Hlit|Hlit].
  { destruct (DecodeLiteral _ code (br_ dec)) as [[px|] br'] eqn:EL.
    - pose proof (AdvanceByOne_fields hdr width process_func ls
        (set_data (set_br dec br') (upd (data_ (set_br dec br')) (src ls) px))) as A.
      destruct (AdvanceByOne _ _ _ _ _) as [ls' d'].
      destruct A as (F & Eb & Ed & En & Es). split; [lia|].
      rewrite Ed. cbn. apply writes_within_upd. lia.
    - cbn. split; [reflexivity|split; [eapply DecodeLiteral_none_eos; eassumption|reflexivity]]. }
  destruct (code <? len_code_limit).
  { pose proof (read_backref_length width (htree_group ls) code (br_ dec) Hlit) as Hlen.
    destruct (read_backref width (htree_group ls) code (br_ dec)) as [[length dist] br'].
    cbn [fst] in Hlen. cbn [br_ set_br]. destruct (eos_ br') eqn:Eb'.
    { cbn. auto. }
    destruct ((src ls <? dist) || (width * height - src ls <? length)) eqn:Eck.
    { reflexivity. }
    apply orb_false_iff in Eck as [_ Eck]. apply Z.ltb_ge in Eck.
    match goal with
    | |- context [wrap_rows ?w ?pf ?f ?c ?rw ?d] =>
        pose proof (wrap_rows_fields w pf f c rw d) as W;
        destruct (wrap_rows w pf f c rw d) as [[c' rw'] d'] eqn:EW
    end.
    cbn [snd] in W. destruct W as (F & Eb & Ec & Ed).
    destruct (cache_present hdr); [destruct (flush_cache _ _ _ _) as [cc lc]|];
      cbn [src data_ set_color_cache]; (split; [lia|]); rewrite Ed; cbn [data_ set_data set_br];
      (eapply writes_within_widen; [| |apply CopyBlock32b_within]; lia). }
  destruct (code <? color_cache_limit hdr).
  { destruct (flush_cache _ _ _ _) as [cc lc].
    match goal with
    | |- context [AdvanceByOne ?h ?w ?pf ?l ?d] =>
        pose proof (AdvanceByOne_fields h w pf l d) as A;
        destruct (AdvanceByOne h w pf l d) as [ls' d']
    end.
    destruct A as (F & Eb & Ed & En & Es). cbn [src set_last_cached] in Es.
    split; [lia|]. rewrite Ed. cbn. apply writes_within_upd. lia. }
  reflexivity.
Qed.

Lemma DecodeStep_bounds : forall ls (dec : VP8LDecoder BR CC),
  0 < width -> 0 <= src ls < width * height ->
  match DecodeStep hdr width height process_func ls dec with
  | Continue ls' d' =>
      src ls < src ls' <= width * height /\
      writes_within (data_ dec) (data_ d') (src ls) (width * height)
  | Break ls' d' => src ls' = src ls /\ eos_ (br_ d') = true /\ data_ d' = data_ dec
  | StepError d' => data_ d' = data_ dec
  end.
Proof.
  intros ls dec Hw Hs. unfold DecodeStep.
  pose proof (read_green_fields hdr ls dec) as R.
  destruct (read_green hdr ls dec) as [[ls1 d1] code].
  destruct R as (Es & _ & _ & _ & Ed & _).
  pose proof (DecodeSymbol_bounds ls1 d1 code Hw ltac:(lia)) as D.
  destruct (DecodeSymbol hdr width height process_func ls1 d1 code) as [ls' d'|ls' d'|d'].
  - rewrite <- Es, <- Ed. exact D.
  - destruct D as (-> & Ee & Ed'). split; [exact Es|split; [exact Ee|congruence]].
  - congruence.
Qed.

Lemma DecodeLoop_bounds : forall fuel ls (dec : VP8LDecoder BR CC) data0 lp0,
  0 < width -> last_row <= height -> 0 <= lp0 <= src ls -> src ls <= width * height ->
  width * last_row - src ls <= Z.of_nat fuel ->
  writes_within data0 (data_ dec) lp0 (width * height) ->
  match DecodeLoop hdr width height last_row process_func fuel ls dec with
  | LoopDone ls' d' =>
      lp0 <= src ls' <= width * height /\
      (width * last_row <= src ls' \/ eos_ (br_ d') = true) /\
      writes_within data0 (data_ d') lp0 (width * height)
  | LoopError d' => writes_within data0 (data_ d') lp0 (width * height)
  end.
Proof.
  induction fuel as [|fuel IH]; intros ls dec data0 lp0 Hw Hl Hs Hs' Hf W;
    cbn [DecodeLoop].
  - split; [lia|split; [left; lia|exact W]].
  - destruct (Z.ltb_spec (src ls) (width * last_row)) as [Hlt|Hge];
      [|split; [lia|split; [left; lia|exact W]]].
    assert (Hlh : width * last_row <= width * height) by (apply Z.mul_le_mono_nonneg_l; lia).
    pose proof (DecodeStep_bounds ls dec Hw ltac:(lia)) as D.
    destruct (DecodeStep hdr width height process_func ls dec) as [ls' d'|ls' d'|d'].
    + destruct D as [Hs2 W2]. apply IH; try lia.
      eapply writes_within_trans; [exact W|].
      eapply writes_within_widen; [| |exact W2]; lia.
    + destruct D as (E1 & E2 & E3). rewrite E3. split; [lia|split; [right; exact E2|exact W]].
    + rewrite D. exact W.
Qed.

End LoopBounds.

(** DecodeImageData, started at a pixel [last_pixel_ dec] inside the
    image, only reports success (status OK) with return value 1, and the
    [last_pixel_] it then records lies at or after the start, at or past
    the end of row [last_row], and within the image. *)
Theorem DecodeImageData_ok_bounds {BR CC : Type} `{VP8LBitReader BR} `{VP8LColorCache CC}
    (hdr : VP8LMetadata) (width height last_row : Z) (process_func : bool)
    (dec : VP8LDecoder BR CC) :
  0 < width -> last_row <= height -> 0 <= last_pixel_ dec <= width * height ->
  let res := DecodeImageData hdr width height last_row process_func dec in
  status_ (snd res) = VP8_STATUS_OK ->
  fst res = 1 /\ last_pixel_ dec <= last_pixel_ (snd res) /\
  width * last_row <= last_pixel_ (snd res) <= width * height.
Proof.
  intros Hw Hl Hlp res Hok. unfold res, DecodeImageData in *. clear res.
  pose proof (DecodeLoop_bounds hdr width height last_row process_func
    (Z.to_nat (width * last_row - last_pixel_ dec)) (initial_loop_state hdr width dec)
    dec (data_ dec) (last_pixel_ dec) Hw Hl ltac:(cbn; lia) ltac:(cbn; lia)
    ltac:(cbn [src initial_loop_state]; lia) (writes_within_refl _ _ _)) as L.
  destruct (DecodeLoop _ _ _ _ _ _ _ _) as [ls' d'|d']; cbn [DecodeImageDataEnd] in *.
  - destruct L as (B & E & _).
    destruct (incremental_ d' && eos_ (br_ d') && (src ls' <? width * height));
      [cbn in Hok; discriminate|].
    destruct (eos_ (br_ d')) eqn:Ee; cbn [negb] in *; [cbn in Hok; discriminate|].
    destruct E as [E|E]; [|discriminate].
    destruct process_func; cbn; lia.
  - cbn in Hok. discriminate.
Qed.

(** Called without a row-processing function ([process_func == NULL],
    as DecodeImageStream does for the entropy image, the transform data
    and the colour map), DecodeImageData changes the pixel buffer only at
    offsets from the start pixel [last_pixel_ dec] up to the end of the
    image [width * height], whatever the outcome. *)
Theorem DecodeImageData_writes_within {BR CC : Type} `{VP8LBitReader BR} `{VP8LColorCache CC}
    (hdr : VP8LMetadata) (width height last_row : Z)
    (dec : VP8LDecoder BR CC) :
  0 < width -> last_row <= height -> 0 <= last_pixel_ dec <= width * height ->
  writes_within (data_ dec)
    (data_ (snd (DecodeImageData hdr width height last_row false dec)))
    (last_pixel_ dec) (width * height).
Proof.
  intros Hw Hl Hlp. unfold DecodeImageData.
  pose proof (DecodeLoop_bounds hdr width height last_row false
    (Z.to_nat (width * last_row - last_pixel_ dec)) (initial_loop_state hdr width dec)
    dec (data_ dec) (last_pixel_ dec) Hw Hl ltac:(cbn; lia) ltac:(cbn; lia)
    ltac:(cbn [src initial_loop_state]; lia) (writes_within_refl _ _ _)) as L.
  destruct (DecodeLoop _ _ _ _ _ _ _ _) as [ls' d'|d']; cbn [DecodeImageDataEnd].
  - destruct L as (_ & _ & W).
    destruct (incremental_ d' && eos_ (br_ d') && (src ls' <? width * height));
      [exact W|].
    destruct (negb (eos_ (br_ d'))); exact W.
  - exact L.
Qed.

Lemma DecodeImageData_ok_bounds_witness :
  let hdr := mkVP8LMetadata 0 (fun _ => 0) 1 0 0 witness_groups in
  let dec := mkVP8LDecoder VP8_STATUS_OK (lbr_init [0]) (lbr_init [0]) 0 0
               ([] : list Z) [] false (fun _ => 0) [] in
  let res := DecodeImageData hdr 2 2 2 false dec in
  status_ (snd res) = VP8_STATUS_OK /\
  fst res = 1 /\ last_pixel_ dec <= last_pixel_ (snd res) /\
  2 * 2 <= last_pixel_ (snd res) <= 2 * 2.
Proof.
  intros hdr dec res. split; [vm_compute; reflexivity|].
  pose proof (DecodeImageData_ok_bounds (BR := LBitReader) (CC := list Z)
           hdr 2 2 2 false dec ltac:(lia) ltac:(lia) ltac:(cbn; lia)) as T.
  cbv zeta in T.
  assert (S : status_ (snd (DecodeImageData hdr 2 2 2 false dec)) = VP8_STATUS_OK)
    by (vm_compute; reflexivity).
  exact (T S).
Defined.

Lemma DecodeImageData_writes_within_witness :
  let hdr := mkVP8LMetadata 0 (fun _ => 0) 1 0 0 witness_groups in
  let dec := mkVP8LDecoder VP8_STATUS_OK (lbr_init [0]) (lbr_init [0]) 1 0
               ([] : list Z) [] false (fun _ => 7) [] in
  writes_within (data_ dec)
    (data_ (snd (DecodeImageData hdr 2 2 2 false dec))) (last_pixel_ dec) (2 * 2) /\
  data_ (snd (DecodeImageData hdr 2 2 2 false dec)) 0 = 7.
Proof.
  intros hdr dec. split; [|vm_compute; reflexivity].
  exact (DecodeImageData_writes_within (BR := LBitReader) (CC := list Z)
           hdr 2 2 2 dec ltac:(lia) ltac:(lia) ltac:(cbn; lia)).
Defined.

(* ------------------------------------------------------------------------ *)
(** * DecodeAlphaData: outcome, write frame and extracted rows *)

Lemma CopySmallPattern8b_within (m : mem) s dst length pat :
  8 <= length ->
  writes_within m (CopySmallPattern8b m s dst length pat) dst (dst + length).
Proof.
  intros Hl. unfold CopySmallPattern8b.
  destruct (align_pattern8b 4 m s dst length pat) as [[[[m1 s1] d1] l1] p1] eqn:EA.
  apply align_pattern8b_within in EA. destruct EA as (k & Hk & -> & -> & -> & W1).
  change (Z.of_nat 4) with 4 in Hk.
  assert (Hi : 0 <= Z.shiftr (length - k) 2) by (apply Z.shiftr_nonneg; lia).
  assert (Ei : Z.shiftl (Z.shiftr (length - k) 2) 2 = 4 * Z.shiftr (length - k) 2)
    by (rewrite Z.shiftl_mul_pow2 by lia; change (2 ^ 2) with 4; lia).
  assert (Hle : 4 * Z.shiftr (length - k) 2 <= length - k).
  { rewrite Z.shiftr_div_pow2 by lia. change (2 ^ 2) with 4. apply Z.mul_div_le. lia. }
  rewrite Ei.
  apply (writes_within_trans _ m1); [eapply writes_within_widen; [| |exact W1]; lia|].
  apply (writes_within_trans _ (store_pattern32 m1 (dst + k) p1
                                  (Z.to_nat (Z.shiftr (length - k) 2)))).
  - eapply writes_within_widen; [| |apply store_pattern32_within]; rewrite ?Z2Nat.id; lia.
  - eapply writes_within_widen; [| |apply copy_elems_within]; rewrite ?Z2Nat.id; lia.
Qed.

(** The byte copy engine writes only its destination run. *)
Lemma CopyBlock8b_within (m : mem) dst dist length :
  0 <= length -> writes_within m (CopyBlock8b m dst dist length) dst (dst + length).
Proof.
  intros Hl.
  assert (Hc : writes_within m
    (if length <=? dist then memcpy_elems m dst (dst - dist) length
     else copy_elems m dst (dst - dist) (Z.to_nat length)) dst (dst + length)).
  { destruct (length <=? dist); [apply memcpy_elems_within|].
    pose proof (copy_elems_within (Z.to_nat length) m dst (dst - dist)) as W.
    rewrite Z2Nat.id in W by lia. exact W. }
  unfold CopyBlock8b. cbv zeta.
  destruct (Z.leb_spec 8 length); [|exact Hc].
  destruct (dist =? 1); [apply CopySmallPattern8b_within; lia|].
  destruct (dist =? 2); [apply CopySmallPattern8b_within; lia|].
  destruct (dist =? 4); [apply CopySmallPattern8b_within; lia|exact Hc].
Qed.

Section AlphaBounds.
Context {BR : Type} `{VP8LBitReader BR}.
Variables (hdr : VP8LMetadata) (width height last_row : Z).
Implicit Type dec : Alpha.VP8LDecoder BR.

Lemma Extract_blocks : forall r0 rows0 dec row row',
  blocks_ok r0 rows0 dec row -> row <= row' ->
  blocks_ok r0 rows0 (Alpha.ExtractPalettedAlphaRows dec row') row'.
Proof.
  intros r0 rows0 dec row row' (Hr & blocks & E & B) Hle.
  unfold Alpha.ExtractPalettedAlphaRows. cbv zeta. cbn [Alpha.last_row_ Alpha.alpha_rows].
  unfold blocks_ok. cbn [Alpha.last_row_ Alpha.alpha_rows]. split; [lia|].
  destruct (Z.ltb_spec 0 (row' - Alpha.last_row_ dec)).
  - exists ((Alpha.last_row_ dec, row' - Alpha.last_row_ dec) :: blocks).
    rewrite E. split; [reflexivity|]. cbn [row_blocks]. split; [lia|split; [lia|exact B]].
  - exists blocks. split; [exact E|].
    replace row' with (Alpha.last_row_ dec) by lia. exact B.
Qed.

Lemma extract_at_block_blocks : forall r0 rows0 dec row row',
  blocks_ok r0 rows0 dec row -> row <= row' ->
  blocks_ok r0 rows0 (Alpha.extract_at_block dec row') row'.
Proof.
  intros r0 rows0 dec row row' B Hle. unfold Alpha.extract_at_block.
  destruct (_ =? 0); [eapply Extract_blocks; eassumption|].
  destruct B as (Hr & B). split; [lia|exact B].
Qed.

Lemma extract_at_block_fields : forall dec row,
  let d := Alpha.extract_at_block dec row in
  Alpha.br_ d = Alpha.br_ dec /\ Alpha.status_ d = Alpha.status_ dec /\
  Alpha.last_pixel_ d = Alpha.last_pixel_ dec.
Proof.
  intros dec row d. unfold d, Alpha.extract_at_block.
  destruct (_ =? 0); cbn; auto.
Qed.

Lemma alpha_wrap_rows_spec : forall fuel c r dec r0 rows0,
  0 < width -> 0 <= c -> c / width < Z.of_nat fuel ->
  let '(c', r', d') := Alpha.wrap_rows width fuel c r dec in
  c' = c mod width /\ r' = r + c / width /\
  Alpha.br_ d' = Alpha.br_ dec /\ Alpha.status_ d' = Alpha.status_ dec /\
  Alpha.last_pixel_ d' = Alpha.last_pixel_ dec /\
  (blocks_ok r0 rows0 dec r -> blocks_ok r0 rows0 d' r').
Proof.
  induction fuel as [|fuel IH]; intros c r dec r0 rows0 Hw Hc Hf.
  - cbn in Hf. pose proof (Z.div_pos c width Hc Hw). lia.
  - cbn [Alpha.wrap_rows]. destruct (Z.leb_spec width c).
    + assert (Emod : c mod width = (c - width) mod width).
      { replace c with ((c - width) + 1 * width) at 1 by lia. apply Z.mod_add; lia. }
      assert (Ediv : c / width = (c - width) / width + 1).
      { replace c with ((c - width) + 1 * width) at 1 by lia. apply Z.div_add; lia. }
      pose proof (IH (c - width) (r + 1) (Alpha.extract_at_block dec (r + 1)) r0 rows0
                    Hw ltac:(lia) ltac:(lia)) as W.
      destruct (Alpha.wrap_rows width fuel (c - width) (r + 1) _) as [[c' r'] d'].
      destruct (extract_at_block_fields dec (r + 1)) as (E1 & E2 & E3).
      destruct W as (-> & -> & F1 & F2 & F3 & B).
      split; [symmetry; exact Emod|]. split; [lia|].
      split; [congruence|]. split; [congruence|]. split; [congruence|].
      intros B0. apply B. eapply extract_at_block_blocks; [exact B0|lia].
    + rewrite Z.mod_small, Z.div_small by lia.
      rewrite Z.add_0_r. split; [lia|split; [lia|split; [reflexivity|split; [reflexivity|split; [reflexivity|exact (fun B => B)]]]]].
Qed.

Lemma alpha_set_br_blocks : forall r0 rows0 dec (br : BR) row,
  blocks_ok r0 rows0 dec row -> blocks_ok r0 rows0 (Alpha.set_br dec br) row.
Proof. intros r0 rows0 dec br row B. exact B. Qed.

Lemma cursor_div : forall w pos row col,
  0 < w -> pos = w * row + col -> 0 <= col < w -> row = pos / w.
Proof.
  intros w pos row col Hw E Hc. subst pos.
  apply Z.div_unique with col; [left; lia|ring].
Qed.

Lemma alpha_loop_bounds : forall fuel pos col row g data dec data0 lp0 r0 rows0,
  0 < width -> last_row <= height -> 0 <= lp0 <= pos -> pos <= width * height ->
  pos = width * row + col -> 0 <= col < width ->
  width * last_row - pos <= Z.of_nat fuel ->
  writes_within data0 data lp0 (width * height) ->
  match Alpha.DecodeLoop hdr width height last_row fuel pos col row g data dec with
  | Alpha.LoopDone pos' row' data' dec' =>
      lp0 <= pos' <= width * height /\
      (width * last_row <= pos' \/ eos_ (Alpha.br_ dec') = true) /\
      row' = pos' / width /\ writes_within data0 data' lp0 (width * height) /\
      Alpha.status_ dec' = Alpha.status_ dec /\
      Alpha.last_pixel_ dec' = Alpha.last_pixel_ dec /\
      (blocks_ok r0 rows0 dec row -> blocks_ok r0 rows0 dec' row')
  | Alpha.LoopError pos' data' dec' =>
      writes_within data0 data' lp0 (width * height) /\
      Alpha.status_ dec' = Alpha.status_ dec /\
      Alpha.last_pixel_ dec' = Alpha.last_pixel_ dec /\
      (blocks_ok r0 rows0 dec row -> exists r, blocks_ok r0 rows0 dec' r)
  end.
Proof.
  induction fuel as [|fuel IH];
    intros pos col row g data dec data0 lp0 r0 rows0 Hw Hlr Hp Hp' Ec Hc Hf W;
    cbn [Alpha.DecodeLoop].
  - split; [lia|]. split; [left; lia|]. split; [eapply cursor_div; eassumption|].
    split; [exact W|]. split; [reflexivity|]. split; [reflexivity|]. tauto.
  - assert (Hlh : width * last_row <= width * height) by (apply Z.mul_le_mono_nonneg_l; lia).
    destruct (negb (eos_ (Alpha.br_ dec)) && (pos <? width * last_row)) eqn:Eg.
    2: { split; [lia|]. split.
         { apply andb_false_iff in Eg as [Eg|Eg].
           - right. destruct (eos_ (Alpha.br_ dec)); [reflexivity|discriminate].
           - left. apply Z.ltb_ge in Eg. exact Eg. }
         split; [eapply cursor_div; eassumption|].
         split; [exact W|]. split; [reflexivity|]. split; [reflexivity|]. tauto. }
    apply andb_true_iff in Eg as [_ Hlt]. apply Z.ltb_lt in Hlt.
    set (g' := if Z.land col (huffman_mask_ hdr) =? 0
               then GetHtreeGroupForPos hdr col row else g).
    destruct (ReadSymbol (htrees g' GREEN) (VP8LFillBitWindow (Alpha.br_ dec)))
      as [code br].
    destruct (Z.ltb_spec code NUM_LITERAL_CODES) as [Hlit|Hlit].
    + assert (W' : writes_within data0 (upd data pos code) lp0 (width * height)).
      { apply writes_within_upd_after; [exact W|lia]. }
      destruct (Z.leb_spec width (col + 1)).
      * pose proof (IH (pos + 1) 0 (row + 1) g' (upd data pos code)
          (Alpha.extract_at_block (Alpha.set_br dec br) (row + 1)) data0 lp0 r0 rows0
          Hw Hlr ltac:(lia) ltac:(lia) ltac:(lia) ltac:(lia) ltac:(lia) W') as R.
        destruct (extract_at_block_fields (Alpha.set_br dec br) (row + 1)) as (_ & E2 & E3).
        cbn [Alpha.status_ Alpha.last_pixel_ Alpha.set_br] in E2, E3.
        destruct (Alpha.DecodeLoop _ _ _ _ _ _ _ _ _ _ _) as [p' r' d' dc'|p' d' dc'].
        -- destruct R as (R1 & R2 & R3 & R4 & R5 & R6 & R7).
           do 4 (split; [assumption|]). split; [congruence|]. split; [congruence|].
           intros B. apply R7. eapply extract_at_block_blocks;
             [apply alpha_set_br_blocks; exact B|lia].
        -- destruct R as (R1 & R5 & R6 & R7).
           split; [assumption|]. split; [congruence|]. split; [congruence|].
           intros B. apply R7. eapply extract_at_block_blocks;
             [apply alpha_set_br_blocks; exact B|lia].
      * pose proof (IH (pos + 1) (col + 1) row g' (upd data pos code)
          (Alpha.set_br dec br) data0 lp0 r0 rows0
          Hw Hlr ltac:(lia) ltac:(lia) ltac:(lia) ltac:(lia) ltac:(lia) W') as R.
        destruct (Alpha.DecodeLoop _ _ _ _ _ _ _ _ _ _ _) as [p' r' d' dc'|p' d' dc'].
        -- destruct R as (R1 & R2 & R3 & R4 & R5 & R6 & R7).
           do 6 (split; [assumption|]).
           intros B. apply R7. apply alpha_set_br_blocks; exact B.
        -- destruct R as (R1 & R5 & R6 & R7).
           do 3 (split; [assumption|]).
           intros B. apply R7. apply alpha_set_br_blocks; exact B.
    + destruct (code <? len_code_limit).
      2: { split; [exact W|]. split; [reflexivity|]. split; [reflexivity|].
           intros B. exists row. exact B. }
      pose proof (read_backref_length width g' code
                    (Alpha.br_ (Alpha.set_br dec br)) Hlit) as Hlen.
      destruct (read_backref width g' code (Alpha.br_ (Alpha.set_br dec br)))
        as [[length dist] br'].
      cbn [fst] in Hlen.
      destruct ((dist <=? pos) && (length <=? width * height - pos)) eqn:Eck.
      2: { split; [exact W|]. split; [reflexivity|]. split; [reflexivity|].
           intros B. exists row. exact B. }
      apply andb_true_iff in Eck as [_ Eck]. apply Z.leb_le in Eck.
      assert (W' : writes_within data0 (CopyBlock8b data pos dist length) lp0
                     (width * height)).
      { eapply writes_within_trans; [exact W|].
        eapply writes_within_widen; [| |apply CopyBlock8b_within]; lia. }
      pose proof (alpha_wrap_rows_spec (Z.to_nat ((col + length) / width) + 1)
        (col + length) row (Alpha.set_br (Alpha.set_br dec br) br') r0 rows0
        Hw ltac:(lia) ltac:(rewrite Nat2Z.inj_add, Z2Nat.id; [lia|];
                            apply Z.div_pos; lia)) as S.
      destruct (Alpha.wrap_rows _ _ _ _ _) as [[c' r'] d1].
      destruct S as (-> & -> & S1 & S2 & S3 & S4).
      cbn [Alpha.status_ Alpha.last_pixel_ Alpha.set_br] in S2, S3.
      assert (Hcur : pos + length = width * (row + (col + length) / width)
                                    + (col + length) mod width).
      { pose proof (Z.div_mod (col + length) width ltac:(lia)). lia. }
      pose proof (Z.mod_pos_bound (col + length) width Hw).
      match goal with
      | |- match Alpha.DecodeLoop _ _ _ _ _ _ _ _ ?gg _ _ with _ => _ end =>
        pose proof (IH (pos + length) ((col + length) mod width)
          (row + (col + length) / width) gg (CopyBlock8b data pos dist length) d1
          data0 lp0 r0 rows0 Hw Hlr ltac:(lia) ltac:(lia) Hcur ltac:(lia) ltac:(lia) W')
          as R
      end.
      destruct (Alpha.DecodeLoop _ _ _ _ _ _ _ _ _ _ _) as [p' r'' d' dc'|p' d' dc'].
      * destruct R as (R1 & R2 & R3 & R4 & R5 & R6 & R7).
        do 4 (split; [assumption|]). split; [congruence|]. split; [congruence|].
        intros B. apply R7, S4. exact B.
      * destruct R as (R1 & R5 & R6 & R7).
        split; [assumption|]. split; [congruence|]. split; [congruence|].
        intros B. apply R7, S4. exact B.
Qed.

End AlphaBounds.

Lemma Extract_fields {BR : Type} (dec : Alpha.VP8LDecoder BR) row :
  Alpha.br_ (Alpha.ExtractPalettedAlphaRows dec row) = Alpha.br_ dec /\
  Alpha.status_ (Alpha.ExtractPalettedAlphaRows dec row) = Alpha.status_ dec /\
  Alpha.last_pixel_ (Alpha.ExtractPalettedAlphaRows dec row) = Alpha.last_pixel_ dec /\
  Alpha.last_row_ (Alpha.ExtractPalettedAlphaRows dec row) = row.
Proof. unfold Alpha.ExtractPalettedAlphaRows. cbn. auto. Qed.

Lemma alpha_loop_start {BR : Type} `{VP8LBitReader BR}
    (hdr : VP8LMetadata) (width height last_row : Z)
    (dec : Alpha.VP8LDecoder BR) (data : mem) r0 rows0 :
  0 < width -> last_row <= height -> 0 <= Alpha.last_pixel_ dec <= width * height ->
  let lp := Alpha.last_pixel_ dec in
  let row := lp / width in
  let col := lp mod width in
  match Alpha.DecodeLoop hdr width height last_row (Z.to_nat (width * last_row - lp))
          lp col row (GetHtreeGroupForPos hdr col row) data dec with
  | Alpha.LoopDone pos' row' data' dec' =>
      lp <= pos' <= width * height /\
      (width * last_row <= pos' \/ eos_ (Alpha.br_ dec') = true) /\
      row' = pos' / width /\ writes_within data data' lp (width * height) /\
      Alpha.status_ dec' = Alpha.status_ dec /\
      Alpha.last_pixel_ dec' = Alpha.last_pixel_ dec /\
      (blocks_ok r0 rows0 dec row -> blocks_ok r0 rows0 dec' row')
  | Alpha.LoopError pos' data' dec' =>
      writes_within data data' lp (width * height) /\
      Alpha.status_ dec' = Alpha.status_ dec /\
      Alpha.last_pixel_ dec' = Alpha.last_pixel_ dec /\
      (blocks_ok r0 rows0 dec row -> exists r, blocks_ok r0 rows0 dec' r)
  end.
Proof.
  intros Hw Hl Hlp lp row col.
  apply alpha_loop_bounds; try lia.
  - unfold row, col. apply Z.div_mod. lia.
  - apply Z.mod_pos_bound. exact Hw.
  - apply writes_within_refl.
Qed.

(** DecodeAlphaData, started at a pixel [last_pixel_] inside the plane,
    either returns 1, keeps the status, and records a [last_pixel_] at or
    after the start and between the end of row [last_row] and the end of
    the plane, with [last_row_] the row of that pixel; or returns 0,
    keeps [last_pixel_], and sets the status to SUSPENDED when the bit
    reader hit the end of the stream and to BITSTREAM_ERROR otherwise. *)
Theorem DecodeAlphaData_result {BR : Type} `{VP8LBitReader BR}
    (hdr : VP8LMetadata) (width height last_row : Z)
    (dec : Alpha.VP8LDecoder BR) (data : mem) :
  0 < width -> last_row <= height -> 0 <= Alpha.last_pixel_ dec <= width * height ->
  let '(ok, _, dec') := Alpha.DecodeAlphaData hdr width height last_row dec data in
  (ok = 1 /\ Alpha.status_ dec' = Alpha.status_ dec /\
   Alpha.last_pixel_ dec <= Alpha.last_pixel_ dec' /\
   width * last_row <= Alpha.last_pixel_ dec' <= width * height /\
   Alpha.last_row_ dec' = Alpha.last_pixel_ dec' / width) \/
  (ok = 0 /\ Alpha.last_pixel_ dec' = Alpha.last_pixel_ dec /\
   ((eos_ (Alpha.br_ dec') = true /\ Alpha.status_ dec' = VP8_STATUS_SUSPENDED) \/
    (eos_ (Alpha.br_ dec') = false /\
     Alpha.status_ dec' = VP8_STATUS_BITSTREAM_ERROR))).
Proof.
  intros Hw Hl Hlp.
  pose proof (alpha_loop_start hdr width height last_row dec data 0 [] Hw Hl Hlp) as L.
  cbv zeta in L. unfold Alpha.DecodeAlphaData. cbv zeta.
  destruct (Alpha.DecodeLoop _ _ _ _ _ _ _ _ _ _ _) as [p' r' d' dc'|p' d' dc'].
  - destruct L as (L1 & L2 & L3 & _ & L5 & L6 & _).
    destruct (Extract_fields dc' r') as (X1 & X2 & X3 & X4).
    rewrite X1. cbn [negb orb].
    destruct (eos_ (Alpha.br_ dc') && (p' <? width * height)) eqn:Ee.
    + right. apply andb_true_iff in Ee as [Ee _].
      unfold Alpha.set_status. cbn. rewrite Ee. split; [reflexivity|]. split; [exact L6|left; auto].
    + left. unfold Alpha.set_last_pixel. cbn [Alpha.status_ Alpha.last_pixel_ Alpha.last_row_].
      rewrite X2, X4. split; [reflexivity|]. split; [congruence|].
      split; [lia|]. split; [|exact L3].
      destruct L2 as [L2|L2]; [lia|]. rewrite L2 in Ee. cbn in Ee.
      apply Z.ltb_ge in Ee.
      assert (width * last_row <= width * height) by (apply Z.mul_le_mono_nonneg_l; lia).
      lia.
  - destruct L as (_ & L5 & L6 & _). right. cbn [negb orb].
    unfold Alpha.set_status. cbn.
    split; [reflexivity|]. split; [exact L6|].
    destruct (eos_ (Alpha.br_ dc')); auto.
Qed.

(** DecodeAlphaData writes the byte plane only from the start pixel
    [last_pixel_] up to the end of the plane [width * height]. *)
Theorem DecodeAlphaData_writes_within {BR : Type} `{VP8LBitReader BR}
    (hdr : VP8LMetadata) (width height last_row : Z)
    (dec : Alpha.VP8LDecoder BR) (data : mem) :
  0 < width -> last_row <= height -> 0 <= Alpha.last_pixel_ dec <= width * height ->
  writes_within data
    (snd (fst (Alpha.DecodeAlphaData hdr width height last_row dec data)))
    (Alpha.last_pixel_ dec) (width * height).
Proof.
  intros Hw Hl Hlp.
  pose proof (alpha_loop_start hdr width height last_row dec data 0 [] Hw Hl Hlp) as L.
  cbv zeta in L. unfold Alpha.DecodeAlphaData. cbv zeta.
  destruct (Alpha.DecodeLoop _ _ _ _ _ _ _ _ _ _ _) as [p' r' d' dc'|p' d' dc'].
  - destruct L as (_ & _ & _ & L4 & _).
    destruct (negb true || _); exact L4.
  - destruct L as (L4 & _). exact L4.
Qed.

(** When [last_row_] is not past the start pixel's row, the row blocks
    that DecodeAlphaData hands to ApplyInverseTransformsAlpha are
    non-empty, consecutive, and cover exactly the rows from the old
    [last_row_] to the new one. *)
Theorem DecodeAlphaData_alpha_rows {BR : Type} `{VP8LBitReader BR}
    (hdr : VP8LMetadata) (width height last_row : Z)
    (dec : Alpha.VP8LDecoder BR) (data : mem) :
  0 < width -> last_row <= height -> 0 <= Alpha.last_pixel_ dec <= width * height ->
  Alpha.last_row_ dec <= Alpha.last_pixel_ dec / width ->
  let dec' := snd (Alpha.DecodeAlphaData hdr width height last_row dec data) in
  exists blocks, Alpha.alpha_rows dec' = blocks ++ Alpha.alpha_rows dec /\
    row_blocks (Alpha.last_row_ dec) (Alpha.last_row_ dec') blocks.
Proof.
  intros Hw Hl Hlp Hr dec'.
  pose proof (alpha_loop_start hdr width height last_row dec data
                (Alpha.last_row_ dec) (Alpha.alpha_rows dec) Hw Hl Hlp) as L.
  cbv zeta in L.
  assert (B0 : blocks_ok (Alpha.last_row_ dec) (Alpha.alpha_rows dec) dec
                 (Alpha.last_pixel_ dec / width)).
  { split; [exact Hr|]. exists []. split; reflexivity. }
  unfold dec', Alpha.DecodeAlphaData. cbv zeta.
  destruct (Alpha.DecodeLoop _ _ _ _ _ _ _ _ _ _ _) as [p' r' d' dc'|p' d' dc'].
  - destruct L as (_ & _ & _ & _ & _ & _ & L7).
    pose proof (Extract_blocks _ _ dc' r' r' (L7 B0) ltac:(lia)) as (_ & B).
    destruct (negb true || _); cbn [snd]; exact B.
  - destruct L as (_ & _ & _ & L7). destruct (L7 B0) as (r & _ & B).
    cbn [snd negb orb]. exact B.
Qed.

Lemma DecodeAlphaData_result_witness :
  let hdr := mkVP8LMetadata 0 (fun _ => 0) 1 0 0 witness_groups in
  let dec := Alpha.mkVP8LDecoder VP8_STATUS_OK (lbr_init [0]) 1 0 0 [] in
  let '(ok, _, dec') := Alpha.DecodeAlphaData hdr 2 2 2 dec (fun _ => 9) in
  (ok = 1 /\ Alpha.status_ dec' = Alpha.status_ dec /\
   Alpha.last_pixel_ dec <= Alpha.last_pixel_ dec' /\
   2 * 2 <= Alpha.last_pixel_ dec' <= 2 * 2 /\
   Alpha.last_row_ dec' = Alpha.last_pixel_ dec' / 2) \/
  (ok = 0 /\ Alpha.last_pixel_ dec' = Alpha.last_pixel_ dec /\
   ((eos_ (Alpha.br_ dec') = true /\ Alpha.status_ dec' = VP8_STATUS_SUSPENDED) \/
    (eos_ (Alpha.br_ dec') = false /\
     Alpha.status_ dec' = VP8_STATUS_BITSTREAM_ERROR))).
Proof.
  intros hdr dec.
  exact (DecodeAlphaData_result (BR := LBitReader) hdr 2 2 2 dec (fun _ => 9)
           ltac:(lia) ltac:(lia) ltac:(cbn; lia)).
Defined.

Lemma DecodeAlphaData_writes_within_witness :
  let hdr := mkVP8LMetadata 0 (fun _ => 0) 1 0 0 witness_groups in
  let dec := Alpha.mkVP8LDecoder VP8_STATUS_OK (lbr_init [0]) 1 0 0 [] in
  writes_within (fun _ => 9)
    (snd (fst (Alpha.DecodeAlphaData hdr 2 2 2 dec (fun _ => 9))))
    (Alpha.last_pixel_ dec) (2 * 2) /\
  snd (fst (Alpha.DecodeAlphaData hdr 2 2 2 dec (fun _ => 9))) 0 = 9 /\
  snd (fst (Alpha.DecodeAlphaData hdr 2 2 2 dec (fun _ => 9))) 1 = 0.
Proof.
  intros hdr dec. split; [|split; vm_compute; reflexivity].
  exact (DecodeAlphaData_writes_within (BR := LBitReader) hdr 2 2 2 dec (fun _ => 9)
           ltac:(lia) ltac:(lia) ltac:(cbn; lia)).
Defined.

Lemma DecodeAlphaData_alpha_rows_witness :
  let hdr := mkVP8LMetadata 0 (fun _ => 0) 1 0 0 witness_groups in
  let dec := Alpha.mkVP8LDecoder VP8_STATUS_OK (lbr_init [0]) 0 0 0 [] in
  let dec' := snd (Alpha.DecodeAlphaData hdr 2 2 2 dec (fun _ => 9)) in
  (exists blocks, Alpha.alpha_rows dec' = blocks ++ Alpha.alpha_rows dec /\
    row_blocks (Alpha.last_row_ dec) (Alpha.last_row_ dec') blocks) /\
  Alpha.alpha_rows dec' = [(0, 2)].
Proof.
  intros hdr dec dec'. split; [|vm_compute; reflexivity].
  exact (DecodeAlphaData_alpha_rows (BR := LBitReader) hdr 2 2 2 dec (fun _ => 9)
           ltac:(lia) ltac:(lia) ltac:(cbn; lia) ltac:(cbn; lia)).
Defined.

(* ------------------------------------------------------------------------ *)
(** * ReadTransform and the transform loop: bookkeeping and success cases *)

Lemma seen_count_bound (s : Z) : 0 <= seen_count s <= 4.
Proof.
  unfold seen_count.
  destruct (Z.testbit s 0), (Z.testbit s 1), (Z.testbit s 2), (Z.testbit s 3);
    cbn; lia.
Qed.

Lemma seen_step (seen t : Z) :
  0 <= seen < 16 -> 0 <= t < 4 -> Z.land seen (Z.shiftl 1 t) = 0 ->
  let s' := Z.lor seen (Z.shiftl 1 t) in
  0 <= s' < 16 /\ seen_count s' = seen_count seen + 1 /\
  Z.testbit s' t = true /\ Z.testbit seen t = false.
Proof.
  intros Hs Ht Hl s'. unfold s'.
  assert (Et : t = 0 \/ t = 1 \/ t = 2 \/ t = 3) by lia.
  assert (Es : seen = 0 \/ seen = 1 \/ seen = 2 \/ seen = 3 \/ seen = 4 \/ seen = 5 \/
               seen = 6 \/ seen = 7 \/ seen = 8 \/ seen = 9 \/ seen = 10 \/ seen = 11 \/
               seen = 12 \/ seen = 13 \/ seen = 14 \/ seen = 15) by lia.
  destruct Et as [-> | [-> | [-> | ->]]];
    repeat (destruct Es as [->|Es]; [vm_compute in Hl; try discriminate Hl;
                                      vm_compute; repeat split; congruence|]);
    subst seen; vm_compute in Hl; try discriminate Hl; vm_compute; repeat split; congruence.
Qed.

Lemma testbit_lor_mono (s x u : Z) :
  Z.testbit s u = true -> Z.testbit (Z.lor s x) u = true.
Proof. intros E. rewrite Z.lor_spec, E. reflexivity. Qed.

Section TransformProofs.
Context {BR : Type} `{VP8LBitReader BR}.
Variable DecodeImageStream : Z -> Z -> BR -> bool * mem * BR.
Variables (color_map_alloc_ok : bool) (fresh : mem).
Hypothesis ReadBits_range : forall br n, 0 <= n -> fst (VP8LReadBits br n) < 2 ^ n.

Lemma ReadTransform_step : forall xsize ysize (dec : Transforms.VP8LDecoder BR),
  transforms_inv dec ->
  let '(ok, _, dec') :=
    Transforms.ReadTransform DecodeImageStream color_map_alloc_ok fresh xsize ysize dec in
  transforms_inv dec' /\
  ((Transforms.next_transform_ dec' = Transforms.next_transform_ dec + 1 /\
    Transforms.next_transform_ dec < NUM_TRANSFORMS /\
    forall q, q <> Transforms.next_transform_ dec ->
      Transforms.transforms_ dec' q = Transforms.transforms_ dec q) \/
   (ok = false /\ Transforms.next_transform_ dec' = Transforms.next_transform_ dec /\
    Transforms.transforms_seen_ dec' = Transforms.transforms_seen_ dec /\
    Transforms.transforms_ dec' = Transforms.transforms_ dec)).
Proof.
  intros xsize ysize dec Hinv. unfold Transforms.ReadTransform.
  pose proof (ReadBits_range (Transforms.br_ dec) 2 ltac:(lia)) as Hr.
  pose proof (VP8LReadBits_unsigned (Transforms.br_ dec) 2) as Hu.
  destruct (VP8LReadBits (Transforms.br_ dec) 2) as [type br] eqn:ER.
  cbn [fst] in Hr, Hu. change (2 ^ 2) with 4 in Hr.
  destruct (Z.eqb_spec (Z.land (Transforms.transforms_seen_ dec) (Z.shiftl 1 type)) 0)
    as [Hnew|Hold]; cbn [negb].
  2: { split; [exact Hinv|right; cbn; auto]. }
  destruct Hinv as (Hs & Hn & Hent & Hdist).
  change (2 ^ NUM_TRANSFORMS) with 16 in Hs.
  pose proof (seen_step _ type Hs ltac:(lia) Hnew) as (Hs' & Hc' & Hb' & Hb0).
  set (seen := Transforms.transforms_seen_ dec) in *.
  set (n := Transforms.next_transform_ dec) in *.
  set (seen' := Z.lor seen (Z.shiftl 1 type)) in *.
  pose proof (seen_count_bound seen').
  assert (Gen : forall t, Transforms.type_ t = type ->
    transforms_inv (Transforms.mkVP8LDecoder (BR := BR) br (n + 1) seen'
      (Transforms.set_transform (Transforms.transforms_ dec) n t)) /\
    (n + 1 = n + 1 /\ n < NUM_TRANSFORMS /\
     forall q, q <> n ->
       Transforms.set_transform (Transforms.transforms_ dec) n t q =
       Transforms.transforms_ dec q)).
  { intros t Et. split.
    - unfold transforms_inv. cbn [Transforms.transforms_seen_ Transforms.next_transform_
                                  Transforms.transforms_].
      change (2 ^ NUM_TRANSFORMS) with 16. split; [exact Hs'|]. split; [lia|].
      unfold Transforms.set_transform. split.
      + intros i Hi. destruct (Z.eqb_spec i n) as [->|Hne].
        * rewrite Et. unfold NUM_TRANSFORMS. split; [lia|exact Hb'].
        * destruct (Hent i ltac:(lia)) as [R1 R2]. split; [exact R1|].
          apply testbit_lor_mono, R2.
      + intros i j Hi Hij Hj. destruct (Z.eqb_spec j n) as [->|Hne].
        * destruct (Z.eqb_spec i n) as [->|Hne']; [lia|]. rewrite Et.
          destruct (Hent i ltac:(lia)) as [_ R2]. intros E. rewrite E in R2. congruence.
        * destruct (Z.eqb_spec i n) as [->|Hne']; [lia|]. apply Hdist; lia.
    - split; [reflexivity|]. split; [unfold NUM_TRANSFORMS; lia|].
      intros q Hq. unfold Transforms.set_transform.
      destruct (Z.eqb_spec q n); [contradiction|reflexivity]. }
  destruct ((type =? PREDICTOR_TRANSFORM) || (type =? CROSS_COLOR_TRANSFORM)).
  - destruct (VP8LReadBits br 3) as [b br1].
    destruct (DecodeImageStream _ _ br1) as [[ok data] br2].
    destruct (Gen (Transforms.mkVP8LTransform type (b + 2) xsize ysize
                    (if ok then Some data else None)) eq_refl) as [G1 G2].
    split; [exact G1|left; exact G2].
  - destruct (type =? COLOR_INDEXING_TRANSFORM).
    + destruct (VP8LReadBits br 8) as [c br1].
      destruct (DecodeImageStream _ 1 br1) as [[ok data] br2].
      destruct (if ok then _ else _) as [ok' data_].
      destruct (Gen (Transforms.mkVP8LTransform type (color_indexing_bits (c + 1))
                      xsize ysize data_) eq_refl) as [G1 G2].
      split; [exact G1|left; exact G2].
    + destruct (Gen (Transforms.mkVP8LTransform type
                      (Transforms.bits_ (Transforms.transforms_ dec n)) xsize ysize None)
                    eq_refl) as [G1 G2].
      split; [exact G1|left; exact G2].
Qed.

Lemma read_transforms_false : forall fuel xs ys (dec : Transforms.VP8LDecoder BR),
  Transforms.read_transforms DecodeImageStream color_map_alloc_ok fresh fuel false xs ys dec
  = (false, xs, dec).
Proof. intros [|fuel] xs ys dec; reflexivity. Qed.

Lemma transforms_inv_next (dec : Transforms.VP8LDecoder BR) :
  transforms_inv dec -> 0 <= Transforms.next_transform_ dec <= NUM_TRANSFORMS.
Proof.
  intros (_ & Hn & _). rewrite Hn. pose proof (seen_count_bound (Transforms.transforms_seen_ dec)).
  unfold NUM_TRANSFORMS. lia.
Qed.

Lemma read_transforms_fuel : forall n m ok xs ys (dec : Transforms.VP8LDecoder BR),
  transforms_inv dec -> 5 - Transforms.next_transform_ dec <= Z.of_nat n -> (n <= m)%nat ->
  Transforms.read_transforms DecodeImageStream color_map_alloc_ok fresh m ok xs ys dec =
  Transforms.read_transforms DecodeImageStream color_map_alloc_ok fresh n ok xs ys dec.
Proof.
  induction n as [|n IH]; intros m ok xs ys dec Hinv Hf Hm.
  - pose proof (transforms_inv_next dec Hinv). unfold NUM_TRANSFORMS in *. change (Z.of_nat 0) with 0 in Hf. lia.
  - destruct m as [|m]; [lia|]. cbn [Transforms.read_transforms].
    destruct ok; [|reflexivity].
    destruct (VP8LReadBits (Transforms.br_ dec) 1) as [bit br].
    destruct (bit =? 0); [reflexivity|].
    match goal with |- context [Transforms.ReadTransform _ _ _ xs ys ?d] =>
      pose proof (ReadTransform_step xs ys d Hinv) as S;
      destruct (Transforms.ReadTransform DecodeImageStream color_map_alloc_ok fresh xs ys d)
        as [[ok' xs'] dec'] end.
    destruct S as (Hinv' & [(Hn & _ & _)|(-> & _)]).
    + cbn [Transforms.next_transform_] in Hn. apply IH; [exact Hinv'|lia|lia].
    + rewrite !read_transforms_false. reflexivity.
Qed.

Lemma read_transforms_inv : forall n ok xs ys (dec : Transforms.VP8LDecoder BR),
  transforms_inv dec ->
  let d' := snd (Transforms.read_transforms DecodeImageStream color_map_alloc_ok fresh
                   n ok xs ys dec) in
  transforms_inv d' /\
  Transforms.next_transform_ dec <= Transforms.next_transform_ d' /\
  forall q, q < Transforms.next_transform_ dec \/ NUM_TRANSFORMS <= q ->
    Transforms.transforms_ d' q = Transforms.transforms_ dec q.
Proof.
  induction n as [|n IH]; intros ok xs ys dec Hinv d'; unfold d'; clear d';
    cbn [Transforms.read_transforms].
  - cbn [snd]. split; [exact Hinv|split; [lia|reflexivity]].
  - destruct ok; [|cbn [snd]; split; [exact Hinv|split; [lia|reflexivity]]].
    destruct (VP8LReadBits (Transforms.br_ dec) 1) as [bit br].
    destruct (bit =? 0); [cbn [snd]; split; [exact Hinv|split; [cbn; lia|reflexivity]]|].
    match goal with |- context [Transforms.ReadTransform _ _ _ xs ys ?d] =>
      pose proof (ReadTransform_step xs ys d Hinv) as S;
      destruct (Transforms.ReadTransform DecodeImageStream color_map_alloc_ok fresh xs ys d)
        as [[ok' xs'] dec'] end.
    cbn [Transforms.next_transform_ Transforms.transforms_] in S.
    destruct (IH ok' xs' ys dec' (proj1 S)) as (I1 & I2 & I3).
    destruct S as (Hinv' & [(Hn & Hlt & Hq)|(_ & Hn & _ & Ht)]).
    + split; [exact I1|]. split; [lia|].
      intros q Hq'. rewrite I3 by lia. apply Hq. unfold NUM_TRANSFORMS in *. lia.
    + split; [exact I1|]. split; [lia|].
      intros q Hq'. rewrite I3 by lia. rewrite Ht. reflexivity.
Qed.

End TransformProofs.

(** From a transform state that satisfies the bookkeeping invariant (as
    after VP8LClear: nothing seen, no transform), the transform loop of
    DecodeImageStream makes at most five ReadTransform calls: with any
    fuel of five or more it ends in the same state.  That state keeps the
    invariant (each type at most once, [next_transform_] at most
    NUM_TRANSFORMS), and the loop writes [transforms_] only at indices
    from the old [next_transform_] up to NUM_TRANSFORMS. *)
Theorem read_transforms_bounded {BR : Type} `{VP8LBitReader BR}
    (DecodeImageStream : Z -> Z -> BR -> bool * mem * BR)
    (color_map_alloc_ok : bool) (fresh : mem)
    (ReadBits_range : forall br n, 0 <= n -> fst (VP8LReadBits br n) < 2 ^ n)
    (ok : bool) (xsize ysize : Z) (dec : Transforms.VP8LDecoder BR) :
  transforms_inv dec ->
  let r := Transforms.read_transforms DecodeImageStream color_map_alloc_ok fresh
             5 ok xsize ysize dec in
  (forall fuel, (5 <= fuel)%nat ->
     Transforms.read_transforms DecodeImageStream color_map_alloc_ok fresh
       fuel ok xsize ysize dec = r) /\
  transforms_inv (snd r) /\
  Transforms.next_transform_ dec <= Transforms.next_transform_ (snd r) <= NUM_TRANSFORMS /\
  forall q, q < Transforms.next_transform_ dec \/ NUM_TRANSFORMS <= q ->
    Transforms.transforms_ (snd r) q = Transforms.transforms_ dec q.
Proof.
  intros Hinv r.
  destruct (read_transforms_inv DecodeImageStream color_map_alloc_ok fresh ReadBits_range
              5 ok xsize ysize dec Hinv) as (I1 & I2 & I3).
  split.
  - intros fuel Hf. apply (read_transforms_fuel DecodeImageStream color_map_alloc_ok fresh
      ReadBits_range); [exact Hinv| |exact Hf].
    pose proof (transforms_inv_next dec Hinv). unfold NUM_TRANSFORMS in *. change (Z.of_nat 5) with 5. lia.
  - split; [exact I1|]. split; [|exact I3].
    split; [exact I2|apply (transforms_inv_next (snd r) I1)].
Qed.

Lemma color_indexing_bits_range (n : Z) : 0 <= color_indexing_bits n <= 3.
Proof.
  unfold color_indexing_bits.
  destruct (16 <? n); [lia|]. destruct (4 <? n); [lia|]. destruct (2 <? n); lia.
Qed.

(** When ReadTransform succeeds, the entry it filled at the old
    [next_transform_] records the given sizes and a type among the four;
    a predictor or cross-colour transform gets tile bits ReadBits(3) + 2,
    from 2 to 9, and its decoded sub-image, and leaves [*xsize] alone; a
    colour-indexing transform gets bits from 0 to 3, its colour map, and
    shrinks [*xsize] to VP8LSubSampleSize(xsize, bits); subtract-green has
    no data and leaves [*xsize] alone. *)
Theorem ReadTransform_success {BR : Type} `{VP8LBitReader BR}
    (DecodeImageStream : Z -> Z -> BR -> bool * mem * BR)
    (color_map_alloc_ok : bool) (fresh : mem)
    (ReadBits_range : forall br n, 0 <= n -> fst (VP8LReadBits br n) < 2 ^ n)
    (xsize ysize : Z) (dec : Transforms.VP8LDecoder BR) :
  let '(ok, xsize', dec') :=
    Transforms.ReadTransform DecodeImageStream color_map_alloc_ok fresh xsize ysize dec in
  ok = true ->
  let t := Transforms.transforms_ dec' (Transforms.next_transform_ dec) in
  Transforms.xsize_ t = xsize /\ Transforms.ysize_ t = ysize /\
  0 <= Transforms.type_ t < NUM_TRANSFORMS /\
  ((Transforms.type_ t = PREDICTOR_TRANSFORM \/
    Transforms.type_ t = CROSS_COLOR_TRANSFORM) ->
   2 <= Transforms.bits_ t <= 9 /\ xsize' = xsize /\ Transforms.data_ t <> None) /\
  (Transforms.type_ t = COLOR_INDEXING_TRANSFORM ->
   0 <= Transforms.bits_ t <= 3 /\
   xsize' = VP8LSubSampleSize xsize (Transforms.bits_ t) /\ Transforms.data_ t <> None) /\
  (Transforms.type_ t = SUBTRACT_GREEN -> xsize' = xsize /\ Transforms.data_ t = None).
Proof.
  unfold Transforms.ReadTransform.
  pose proof (ReadBits_range (Transforms.br_ dec) 2 ltac:(lia)) as Hr.
  pose proof (VP8LReadBits_unsigned (Transforms.br_ dec) 2) as Hu.
  destruct (VP8LReadBits (Transforms.br_ dec) 2) as [type br].
  cbn [fst] in Hr, Hu. change (2 ^ 2) with 4 in Hr.
  destruct (negb (Z.land (Transforms.transforms_seen_ dec) (Z.shiftl 1 type) =? 0));
    [discriminate|].
  assert (Eself : forall ts n (t : Transforms.VP8LTransform),
             Transforms.set_transform ts n t n = t).
  { intros ts n t. unfold Transforms.set_transform. rewrite Z.eqb_refl. reflexivity. }
  unfold PREDICTOR_TRANSFORM, CROSS_COLOR_TRANSFORM, COLOR_INDEXING_TRANSFORM,
    SUBTRACT_GREEN, NUM_TRANSFORMS.
  destruct (Z.eqb_spec type 0) as [E0|E0]; [|destruct (Z.eqb_spec type 1) as [E1|E1]];
    cbn [orb].
  1,2: pose proof (ReadBits_range br 3 ltac:(lia)) as Hb;
       pose proof (VP8LReadBits_unsigned br 3) as Hb';
       destruct (VP8LReadBits br 3) as [b br1]; cbn [fst] in Hb, Hb';
       change (2 ^ 3) with 8 in Hb;
       destruct (DecodeImageStream _ _ br1) as [[ok data] br2];
       intros Hok; subst ok; cbn [Transforms.transforms_ Transforms.next_transform_];
       rewrite Eself; cbn;
       (split; [reflexivity|]); (split; [reflexivity|]); (split; [lia|]);
       (split; [intros _; split; [lia|split; [reflexivity|discriminate]]|]);
       split; intros; lia.
  destruct (Z.eqb_spec type 3) as [E3|E3].
  - destruct (VP8LReadBits br 8) as [c br1].
    destruct (DecodeImageStream _ 1 br1) as [[ok data] br2].
    destruct ok; [|intros Hok; discriminate].
    destruct color_map_alloc_ok; [|intros Hok; discriminate].
    intros _. cbn [Transforms.transforms_ Transforms.next_transform_]. rewrite Eself. cbn.
    pose proof (color_indexing_bits_range (c + 1)).
    split; [reflexivity|]. split; [reflexivity|]. split; [lia|].
    split; [intros; lia|]. split; [intros _; split; [lia|split; [reflexivity|discriminate]]|].
    intros; lia.
  - intros _. cbn [Transforms.transforms_ Transforms.next_transform_]. rewrite Eself. cbn.
    split; [reflexivity|]. split; [reflexivity|].
    assert (type = 2) by lia. subst type.
    split; [lia|]. split; [intros; lia|]. split; [intros; lia|].
    intros _. split; reflexivity.
Qed.

Lemma bits_from_lt : forall n buf k, bits_from buf k n < 2 ^ Z.of_nat n.
Proof.
  induction n as [|n IH]; intros buf k; cbn [bits_from]; [cbn; lia|].
  specialize (IH buf (k + 1)).
  assert (stream_bit buf k <= 1) by (unfold stream_bit; destruct (Z.testbit _ _); lia).
  rewrite Nat2Z.inj_succ, Z.pow_succ_r by lia. lia.
Qed.

Lemma lbr_read_bits_lt (br : LBitReader) (n : Z) :
  0 <= n -> fst (VP8LReadBits br n) < 2 ^ n.
Proof.
  intros Hn. cbn [VP8LReadBits LBitReader_ops]. unfold lbr_read_bits.
  assert (0 < 2 ^ n) by (apply Z.pow_pos_nonneg; lia).
  destruct (lbr_eos br || (24 <? n)); [cbn; lia|].
  destruct (lbr_eos (lbr_set_bit_pos br (lbr_pos br + n))); [cbn; lia|].
  cbn [fst]. pose proof (bits_from_lt (Z.to_nat n) (lbr_buf br) (lbr_pos br)) as B.
  rewrite Z2Nat.id in B by lia. exact B.
Qed.

Lemma read_transforms_bounded_witness :
  let dis := fun (_ _ : Z) (br : LBitReader) => (true, (fun _ => 0) : mem, br) in
  let dec := Transforms.mkVP8LDecoder (lbr_init [45]) 0 0
               (fun _ => Transforms.mkVP8LTransform 0 0 0 0 None) in
  let r := Transforms.read_transforms dis true (fun _ => 0) 5 true 4 4 dec in
  transforms_inv dec /\
  ((forall fuel, (5 <= fuel)%nat ->
     Transforms.read_transforms dis true (fun _ => 0) fuel true 4 4 dec = r) /\
   transforms_inv (snd r) /\
   Transforms.next_transform_ dec <= Transforms.next_transform_ (snd r) <= NUM_TRANSFORMS /\
   forall q, q < Transforms.next_transform_ dec \/ NUM_TRANSFORMS <= q ->
     Transforms.transforms_ (snd r) q = Transforms.transforms_ dec q) /\
  fst (fst r) = false /\ Transforms.next_transform_ (snd r) = 1.
Proof.
  intros dis dec r.
  assert (Hinv : transforms_inv dec).
  { unfold transforms_inv. cbn. split; [lia|]. split; [reflexivity|].
    split; intros; lia. }
  split; [exact Hinv|]. split; [|split; vm_compute; reflexivity].
  exact (read_transforms_bounded dis true (fun _ => 0) lbr_read_bits_lt true 4 4 dec Hinv).
Defined.

Lemma ReadTransform_success_witness :
  let dis := fun (_ _ : Z) (br : LBitReader) => (true, (fun _ => 0) : mem, br) in
  let dec := Transforms.mkVP8LDecoder (lbr_init [2]) 0 0
               (fun _ => Transforms.mkVP8LTransform 0 0 0 0 None) in
  let '(ok, xsize', dec') := Transforms.ReadTransform dis true (fun _ => 0) 7 5 dec in
  ok = true /\
  (ok = true ->
   let t := Transforms.transforms_ dec' (Transforms.next_transform_ dec) in
   Transforms.xsize_ t = 7 /\ Transforms.ysize_ t = 5 /\
   0 <= Transforms.type_ t < NUM_TRANSFORMS /\
   ((Transforms.type_ t = PREDICTOR_TRANSFORM \/
     Transforms.type_ t = CROSS_COLOR_TRANSFORM) ->
    2 <= Transforms.bits_ t <= 9 /\ xsize' = 7 /\ Transforms.data_ t <> None) /\
   (Transforms.type_ t = COLOR_INDEXING_TRANSFORM ->
    0 <= Transforms.bits_ t <= 3 /\
    xsize' = VP8LSubSampleSize 7 (Transforms.bits_ t) /\ Transforms.data_ t <> None) /\
   (Transforms.type_ t = SUBTRACT_GREEN -> xsize' = 7 /\ Transforms.data_ t = None)).
Proof.
  intros dis dec.
  pose proof (ReadTransform_success dis true (fun _ => 0) lbr_read_bits_lt 7 5 dec) as T.
  destruct (Transforms.ReadTransform dis true (fun _ => 0) 7 5 dec) as [[ok xs'] d'] eqn:E.
  split; [|exact T].
  vm_compute in E. inversion E. reflexivity.
Defined.

(* ------------------------------------------------------------------------ *)
(** * ReadHuffmanCodeLengths, ReadHuffmanCode and SetCropWindow: properties *)

Lemma fill_lengths_spec : forall n cl s len q,
  fill_lengths cl s n len q =
  if (s <=? q) && (q <? s + Z.of_nat n) then len else cl q.
Proof.
  induction n as [|n IH]; intros cl s len q; cbn [fill_lengths].
  - destruct (s <=? q) eqn:E1, (q <? s + Z.of_nat 0) eqn:E2; cbn; try reflexivity.
    apply Z.leb_le in E1; apply Z.ltb_lt in E2; lia.
  - rewrite IH. unfold upd.
    destruct (s + 1 <=? q) eqn:E1, (q <? s + 1 + Z.of_nat n) eqn:E2,
             (s <=? q) eqn:E3, (q <? s + Z.of_nat (S n)) eqn:E4, (q =? s) eqn:E5;
      cbn; try reflexivity;
      repeat match goal with
             | H : (_ <=? _) = _ |- _ => first [apply Z.leb_le in H | apply Z.leb_gt in H]
             | H : (_ <? _) = _ |- _ => first [apply Z.ltb_lt in H | apply Z.ltb_ge in H]
             | H : (_ =? _) = _ |- _ => first [apply Z.eqb_eq in H | apply Z.eqb_neq in H]
             end; lia.
Qed.

(** Code lengths that are unchanged or in [0, 16) below [num_symbols]. *)
Definition lengths_frame (num_symbols : Z) (cl cl' : mem) : Prop :=
  forall q, cl' q = cl q \/ (0 <= q < num_symbols /\ 0 <= cl' q < 16).

Lemma lengths_frame_refl n cl : lengths_frame n cl cl.
Proof. intros q; left; reflexivity. Qed.

Lemma lengths_frame_trans n c1 c2 c3 :
  lengths_frame n c1 c2 -> lengths_frame n c2 c3 -> lengths_frame n c1 c3.
Proof.
  intros A B q. destruct (B q) as [E|R]; [|right; exact R].
  destruct (A q) as [E'|R']; [left; congruence|right; rewrite E; exact R'].
Qed.

Section CodeLengthProofs.
Context {BR : Type} `{VP8LBitReader BR}.
Variable build : Z -> mem -> Z -> Z * HuffmanTable.

Lemma code_lengths_loop_frame : forall ms table num_symbols symbol prev cl (br : BR),
  (forall i, 0 <= value (table i) < 19) ->
  0 <= symbol -> 1 <= prev < 16 ->
  let '(ok, cl', br') := code_lengths_loop table num_symbols ms symbol prev cl br in
  lengths_frame num_symbols cl cl'.
Proof.
  induction ms as [|ms IH]; intros table num_symbols symbol prev cl br Ht Hs Hp;
    cbn [code_lengths_loop].
  - destruct (symbol <? num_symbols); apply lengths_frame_refl.
  - destruct (symbol <? num_symbols) eqn:Hlt; [|apply lengths_frame_refl].
    apply Z.ltb_lt in Hlt.
    set (br1 := VP8LFillBitWindow br).
    set (p := table (Z.land (VP8LPrefetchBits br1) LENGTHS_TABLE_MASK)).
    set (br2 := VP8LSetBitPos br1 (bit_pos_ br1 + bits p)).
    pose proof (Ht (Z.land (VP8LPrefetchBits br1) LENGTHS_TABLE_MASK)) as Hv.
    fold p in Hv.
    destruct (value p <? kCodeLengthLiterals) eqn:Hlit.
    + apply Z.ltb_lt in Hlit. unfold kCodeLengthLiterals in Hlit.
      match goal with
      | |- context [code_lengths_loop ?t ?n ?m ?s ?pv ?c ?b] =>
          pose proof (IH t n s pv c b Ht) as IH'
      end.
      destruct (code_lengths_loop _ _ _ _ _ _ _) as [[ok cl'] br'].
      apply (lengths_frame_trans _ _ (upd cl symbol (value p))).
      * intros q. unfold upd. destruct (q =? symbol) eqn:E; [|left; reflexivity].
        apply Z.eqb_eq in E. right. lia.
      * apply IH'; [lia|]. destruct (value p =? 0) eqn:E0; [lia|apply Z.eqb_neq in E0; lia].
    + apply Z.ltb_ge in Hlit. unfold kCodeLengthLiterals in Hlit.
      assert (Hslot : value p - 16 = 0 \/ value p - 16 = 1 \/ value p - 16 = 2) by lia.
      destruct (VP8LReadBits br2 (nth (Z.to_nat (value p - kCodeLengthLiterals))
                                    kCodeLengthExtraBits 0)) as [r br3] eqn:Er.
      pose proof (VP8LReadBits_unsigned br2
                    (nth (Z.to_nat (value p - kCodeLengthLiterals)) kCodeLengthExtraBits 0))
        as Hr. rewrite Er in Hr. cbn [fst] in Hr.
      set (off := nth (Z.to_nat (value p - kCodeLengthLiterals)) kCodeLengthRepeatOffsets 0).
      assert (Hoff : 3 <= off).
      { unfold off, kCodeLengthLiterals.
        destruct Hslot as [E|[E|E]]; rewrite E; vm_compute; congruence. }
      destruct (num_symbols <? symbol + (r + off)) eqn:Hrep; [apply lengths_frame_refl|].
      apply Z.ltb_ge in Hrep.
      set (len := if value p =? kCodeLengthRepeatCode then prev else 0).
      assert (Hlen : 0 <= len < 16) by (unfold len; destruct (_ =? _); lia).
      match goal with
      | |- context [code_lengths_loop ?t ?n ?m ?s ?pv ?c ?b] =>
          pose proof (IH t n s pv c b Ht) as IH'
      end.
      destruct (code_lengths_loop _ _ _ _ _ _ _) as [[ok cl'] br'].
      apply (lengths_frame_trans _ _ (fill_lengths cl symbol (Z.to_nat (r + off)) len)).
      * intros q. rewrite fill_lengths_spec.
        destruct (symbol <=? q) eqn:E1, (q <? symbol + Z.of_nat (Z.to_nat (r + off))) eqn:E2;
          cbn; try (left; reflexivity).
        apply Z.leb_le in E1; apply Z.ltb_lt in E2. rewrite Z2Nat.id in E2 by lia.
        right; lia.
      * apply IH'; lia.
Qed.

Lemma read_code_lengths_frame : forall status cll num_symbols cl (br : BR),
  (fst (build LENGTHS_TABLE_BITS cll NUM_CODE_LENGTH_CODES) <> 0 ->
   forall i, 0 <= value (snd (build LENGTHS_TABLE_BITS cll NUM_CODE_LENGTH_CODES) i) < 19) ->
  let '(ok, st, cl', br') := ReadHuffmanCodeLengths build status cll num_symbols cl br in
  lengths_frame num_symbols cl cl'.
Proof.
  intros status cll num_symbols cl br Hb. unfold ReadHuffmanCodeLengths.
  destruct (build LENGTHS_TABLE_BITS cll NUM_CODE_LENGTH_CODES) as [size table] eqn:Eb.
  cbn [fst snd] in Hb.
  destruct (size =? 0) eqn:Hs; [apply lengths_frame_refl|].
  apply Z.eqb_neq in Hs. specialize (Hb Hs).
  destruct (VP8LReadBits br 1) as [use_length br1].
  destruct (negb (use_length =? 0)).
  - destruct (VP8LReadBits br1 3) as [x br2].
    destruct (VP8LReadBits br2 (2 + 2 * x)) as [y br3].
    destruct (num_symbols <? 2 + y); [apply lengths_frame_refl|].
    match goal with
    | |- context [code_lengths_loop ?t ?n ?m ?s ?pv ?c ?b] =>
        pose proof (code_lengths_loop_frame m t n s pv c b Hb) as L
    end.
    destruct (code_lengths_loop _ _ _ _ _ _ _) as [[ok cl'] br']. apply L; unfold DEFAULT_CODE_LENGTH; lia.
  - match goal with
    | |- context [code_lengths_loop ?t ?n ?m ?s ?pv ?c ?b] =>
        pose proof (code_lengths_loop_frame m t n s pv c b Hb) as L
    end.
    destruct (code_lengths_loop _ _ _ _ _ _ _) as [[ok cl'] br']. apply L; unfold DEFAULT_CODE_LENGTH; lia.
Qed.

(** ReadHuffmanCodeLengths writes code lengths only at indices below
    [num_symbols], and every length it writes is in [[0, 16)]; this holds
    whether it succeeds or fails. *)
Lemma ReadHuffmanCodeLengths_frame : forall status cll num_symbols cl (br : BR),
  (fst (build LENGTHS_TABLE_BITS cll NUM_CODE_LENGTH_CODES) <> 0 ->
   forall i, 0 <= value (snd (build LENGTHS_TABLE_BITS cll NUM_CODE_LENGTH_CODES) i) < 19) ->
  let '(ok, st, cl', br') := ReadHuffmanCodeLengths build status cll num_symbols cl br in
  forall q, cl' q = cl q \/ (0 <= q < num_symbols /\ 0 <= cl' q < 16).
Proof.
  intros status cll num_symbols cl br Hb.
  pose proof (read_code_lengths_frame status cll num_symbols cl br Hb) as F.
  destruct (ReadHuffmanCodeLengths build status cll num_symbols cl br)
    as [[[ok st] cl'] br']. exact F.
Qed.

Lemma ReadHuffmanCodeLengths_status : forall status cll num_symbols cl (br : BR),
  let '(ok, st, cl', br') := ReadHuffmanCodeLengths build status cll num_symbols cl br in
  st = if ok then status else VP8_STATUS_BITSTREAM_ERROR.
Proof.
  intros. unfold ReadHuffmanCodeLengths.
  destruct (build LENGTHS_TABLE_BITS cll NUM_CODE_LENGTH_CODES) as [size table].
  set (X := if size =? 0 then _ else _).
  destruct X as [[ok cl'] br']. reflexivity.
Qed.

Lemma memset_lengths alphabet_size cl q :
  0 <= q < alphabet_size -> fill_lengths cl 0 (Z.to_nat alphabet_size) 0 q = 0.
Proof.
  intros Hq. rewrite fill_lengths_spec, Z2Nat.id by lia.
  destruct (0 <=? q) eqn:E1, (q <? 0 + alphabet_size) eqn:E2; cbn; try reflexivity;
    [apply Z.ltb_ge in E2|apply Z.leb_gt in E1|apply Z.leb_gt in E1]; lia.
Qed.

(** Every code length ReadHuffmanCode leaves in [[0, alphabet_size)] is in
    [[0, 16)], on success or failure. *)
Lemma ReadHuffmanCode_lengths_range : forall alphabet_size status cl (br : BR),
  (forall cll, fst (build LENGTHS_TABLE_BITS cll NUM_CODE_LENGTH_CODES) <> 0 ->
   forall i, 0 <= value (snd (build LENGTHS_TABLE_BITS cll NUM_CODE_LENGTH_CODES) i) < 19) ->
  let '(size, st, cl', tbl, br') := ReadHuffmanCode build alphabet_size status cl br in
  forall q, 0 <= q < alphabet_size -> 0 <= cl' q < 16.
Proof.
  intros alphabet_size status cl br Hb. unfold ReadHuffmanCode.
  destruct (VP8LReadBits br 1) as [sc br1].
  pose proof (memset_lengths alphabet_size cl) as M.
  set (cl0 := fill_lengths cl 0 (Z.to_nat alphabet_size) 0) in *.
  destruct (negb (sc =? 0)).
  - destruct (VP8LReadBits br1 1) as [ns br2].
    destruct (VP8LReadBits br2 1) as [f br3].
    destruct (VP8LReadBits br3 (if f =? 0 then 1 else 8)) as [s1 br4].
    assert (P1 : forall q, 0 <= q < alphabet_size -> 0 <= upd cl0 s1 1 q < 16).
    { intros q Hq. unfold upd. destruct (q =? s1); [lia|rewrite M; lia]. }
    assert (P2 : exists cl', (forall q, 0 <= q < alphabet_size -> 0 <= cl' q < 16) /\
              exists br', (if ns + 1 =? 2 then let '(symbol, br) := VP8LReadBits br4 8 in
                           (upd (upd cl0 s1 1) symbol 1, br) else (upd cl0 s1 1, br4))
                          = (cl', br')).
    { destruct (ns + 1 =? 2).
      - destruct (VP8LReadBits br4 8) as [s2 br5]. exists (upd (upd cl0 s1 1) s2 1).
        split; [|exists br5; reflexivity].
        intros q Hq. unfold upd. destruct (q =? s2); [lia|]. destruct (q =? s1); [lia|rewrite M by exact Hq; lia].
      - exists (upd cl0 s1 1). split; [exact P1|exists br4; reflexivity]. }
    destruct P2 as (cl' & Pcl & br' & E). rewrite E.
    destruct (true && negb (eos_ br')); [|exact Pcl].
    destruct (build HUFFMAN_TABLE_BITS cl' alphabet_size) as [size t].
    destruct (size =? 0); exact Pcl.
  - destruct (VP8LReadBits br1 4) as [nc br2].
    destruct (NUM_CODE_LENGTH_CODES <? nc + 4); [intros q Hq; rewrite M; lia|].
    destruct (read_code_length_code_lengths (fun _ => 0) 0 (Z.to_nat (nc + 4)) br2)
      as [cll br3].
    pose proof (read_code_lengths_frame status cll alphabet_size cl0 br3 (Hb cll)) as F.
    destruct (ReadHuffmanCodeLengths build status cll alphabet_size cl0 br3)
      as [[[ok st] cl'] br'].
    assert (Pcl : forall q, 0 <= q < alphabet_size -> 0 <= cl' q < 16).
    { intros q Hq. destruct (F q) as [E|[_ R]]; [rewrite E, M; lia|exact R]. }
    destruct (ok && negb (eos_ br')); [|exact Pcl].
    destruct (build HUFFMAN_TABLE_BITS cl' alphabet_size) as [size t].
    destruct (size =? 0); exact Pcl.
Qed.

(** ReadHuffmanCode either fails, returning 0 with BITSTREAM_ERROR, or
    returns the nonzero size of the table VP8LBuildHuffmanTable built from
    the final code lengths, with the status left alone and the bit reader
    not past the end of the stream. *)
Lemma ReadHuffmanCode_result : forall alphabet_size status cl (br : BR),
  let '(size, st, cl', tbl, br') := ReadHuffmanCode build alphabet_size status cl br in
  (size = 0 /\ st = VP8_STATUS_BITSTREAM_ERROR) \/
  (size <> 0 /\ st = status /\ eos_ br' = false /\
   build HUFFMAN_TABLE_BITS cl' alphabet_size = (size, match tbl with Some t => t | None => fun _ => mkHuffmanCode 0 0 end) /\
   tbl <> None).
Proof.
  intros alphabet_size status cl br. unfold ReadHuffmanCode.
  destruct (VP8LReadBits br 1) as [sc br1].
  set (cl0 := fill_lengths cl 0 (Z.to_nat alphabet_size) 0).
  assert (Fin : forall ok st cl' br',
    (ok = true -> st = status) ->
    let '(size, st0, cl'', tbl, br'') :=
      (let ok := ok && negb (eos_ br') in
       if ok then
         let '(size, table) := build HUFFMAN_TABLE_BITS cl' alphabet_size in
         if size =? 0 then (0, VP8_STATUS_BITSTREAM_ERROR, cl', Some table, br')
         else (size, st, cl', Some table, br')
       else (0, VP8_STATUS_BITSTREAM_ERROR, cl', None, br')) in
    (size = 0 /\ st0 = VP8_STATUS_BITSTREAM_ERROR) \/
    (size <> 0 /\ st0 = status /\ eos_ br'' = false /\
     build HUFFMAN_TABLE_BITS cl'' alphabet_size = (size, match tbl with Some t => t | None => fun _ => mkHuffmanCode 0 0 end) /\
     tbl <> None)).
  { intros ok st cl' br' Hst. cbv zeta.
    destruct ok; [|left; split; reflexivity].
    destruct (eos_ br') eqn:Ee; cbn [andb negb]; [left; split; reflexivity|].
    destruct (build HUFFMAN_TABLE_BITS cl' alphabet_size) as [size t] eqn:Eb.
    destruct (size =? 0) eqn:Es; [left; split; reflexivity|].
    apply Z.eqb_neq in Es. right. repeat split; try assumption; [apply Hst; reflexivity|discriminate]. }
  destruct (negb (sc =? 0)).
  - destruct (VP8LReadBits br1 1) as [ns br2].
    destruct (VP8LReadBits br2 1) as [f br3].
    destruct (VP8LReadBits br3 (if f =? 0 then 1 else 8)) as [s1 br4].
    destruct (if ns + 1 =? 2 then let '(symbol, br) := VP8LReadBits br4 8 in
              (upd (upd cl0 s1 1) symbol 1, br) else (upd cl0 s1 1, br4)) as [cl' br'].
    exact (Fin true status cl' br' (fun _ => eq_refl)).
  - destruct (VP8LReadBits br1 4) as [nc br2].
    destruct (NUM_CODE_LENGTH_CODES <? nc + 4); [left; split; reflexivity|].
    destruct (read_code_length_code_lengths (fun _ => 0) 0 (Z.to_nat (nc + 4)) br2)
      as [cll br3].
    pose proof (ReadHuffmanCodeLengths_status status cll alphabet_size cl0 br3) as S.
    destruct (ReadHuffmanCodeLengths build status cll alphabet_size cl0 br3)
      as [[[ok st] cl'] br'].
    apply (Fin ok st cl' br'). intros ->. exact S.
Qed.

(** With a simple code (first bit read nonzero), ReadHuffmanCode reads
    the number of symbols, the length flag of the first symbol and that
    symbol [s1] (1 or 8 bits), and, for two symbols, an 8-bit second symbol
    [s2] ([s2 = s1] for one symbol).  The code lengths it hands to
    VP8LBuildHuffmanTable are 1 at exactly these symbols read, both below
    256, and 0 everywhere else in [[0, alphabet_size)]. *)
Lemma ReadHuffmanCode_simple : forall alphabet_size status cl (br : BR)
    simple_code br1 ns br2 first_symbol_len_code br3 s1 br4 s2,
  (forall br n, 0 <= n -> fst (VP8LReadBits br n) < 2 ^ n) ->
  VP8LReadBits br 1 = (simple_code, br1) -> simple_code <> 0 ->
  VP8LReadBits br1 1 = (ns, br2) ->
  VP8LReadBits br2 1 = (first_symbol_len_code, br3) ->
  VP8LReadBits br3 (if first_symbol_len_code =? 0 then 1 else 8) = (s1, br4) ->
  s2 = (if ns + 1 =? 2 then fst (VP8LReadBits br4 8) else s1) ->
  let '(size, st, cl', tbl, br') := ReadHuffmanCode build alphabet_size status cl br in
  0 <= s1 < 256 /\ 0 <= s2 < 256 /\
  forall q, 0 <= q < alphabet_size \/ q = s1 \/ q = s2 ->
    cl' q = if (q =? s1) || (q =? s2) then 1 else 0.
Proof.
  intros alphabet_size status cl br sc br1 ns br2 f br3 s1 br4 s2 R E0 Hsc E1 E2 E3 Hs2.
  unfold ReadHuffmanCode. rewrite E0.
  apply Z.eqb_neq in Hsc. rewrite Hsc. cbn [negb].
  pose proof (memset_lengths alphabet_size cl) as M.
  set (cl0 := fill_lengths cl 0 (Z.to_nat alphabet_size) 0) in *.
  rewrite E1, E2.
  pose proof (R br3 (if f =? 0 then 1 else 8)) as R1.
  pose proof (VP8LReadBits_unsigned br3 (if f =? 0 then 1 else 8)) as U1.
  rewrite E3 in R1, U1. cbn [fst] in R1, U1. rewrite E3.
  assert (S1 : 0 <= s1 < 256).
  { destruct (f =? 0); specialize (R1 ltac:(lia)); cbn in R1; lia. }
  assert (P2 : exists cl' br', 0 <= s2 < 256 /\
     (forall q, 0 <= q < alphabet_size \/ q = s1 \/ q = s2 ->
        cl' q = if (q =? s1) || (q =? s2) then 1 else 0) /\
     (if ns + 1 =? 2 then let '(symbol, br) := VP8LReadBits br4 8 in
        (upd (upd cl0 s1 1) symbol 1, br) else (upd cl0 s1 1, br4)) = (cl', br')).
  { revert Hs2. destruct (ns + 1 =? 2); intros Hs2.
    - pose proof (R br4 8 ltac:(lia)) as R2. pose proof (VP8LReadBits_unsigned br4 8) as U2.
      destruct (VP8LReadBits br4 8) as [s2' br5]. cbn [fst] in R2, U2, Hs2. subst s2.
      exists (upd (upd cl0 s1 1) s2' 1), br5.
      split; [cbn in R2; lia|]. split; [|reflexivity].
      intros q Hq. unfold upd.
      destruct (q =? s2') eqn:E2', (q =? s1) eqn:E1'; cbn [orb]; try reflexivity.
      apply M. destruct Hq as [Hq|[Hq|Hq]]; [exact Hq| |];
        [apply Z.eqb_neq in E1'|apply Z.eqb_neq in E2']; congruence.
    - subst s2. exists (upd cl0 s1 1), br4. split; [exact S1|]. split; [|reflexivity].
      intros q Hq. unfold upd. destruct (q =? s1) eqn:E1'; cbn [orb]; [reflexivity|].
      apply M. destruct Hq as [Hq|[Hq|Hq]]; [exact Hq| |]; apply Z.eqb_neq in E1'; congruence. }
  destruct P2 as (cl' & br' & S2 & Pcl & E). rewrite E.
  cbv beta iota zeta.
  destruct (negb (eos_ br')); [|split; [exact S1|split; [exact S2|exact Pcl]]].
  destruct (build HUFFMAN_TABLE_BITS cl' alphabet_size) as [size t].
  destruct (size =? 0); (split; [exact S1|split; [exact S2|exact Pcl]]).
Qed.

End CodeLengthProofs.

(** SetCropWindow reports a non-empty window exactly when the rows
    [[y_start, y_end)] meet the crop rows [[crop_top, crop_bottom)].  Then
    [mb_y] and [mb_h] describe that intersection relative to [crop_top],
    [mb_w] is the crop width, the crop rectangle is kept, and [in_data] has
    moved to the first cropped pixel of the first row of the intersection. *)
Lemma SetCropWindow_window : forall io y_start y_end in_data pixel_stride,
  let '(ok, io', in_data') := SetCropWindow io y_start y_end in_data pixel_stride in
  let ys := Z.max y_start (crop_top io) in
  let ye := Z.min y_end (crop_bottom io) in
  ok = (ys <? ye) /\
  (ok = true ->
     crop_top io + mb_y io' = ys /\ crop_top io + mb_y io' + mb_h io' = ye /\
     mb_w io' = crop_right io - crop_left io /\
     crop_left io' = crop_left io /\ crop_right io' = crop_right io /\
     crop_top io' = crop_top io /\ crop_bottom io' = crop_bottom io /\
     in_data' = in_data + (ys - y_start) * pixel_stride + crop_left io * 4).
Proof.
  intros io y_start y_end in_data pixel_stride. unfold SetCropWindow.
  destruct (crop_bottom io <? y_end) eqn:Eb, (y_start <? crop_top io) eqn:Et;
    [apply Z.ltb_lt in Eb; apply Z.ltb_lt in Et
    |apply Z.ltb_lt in Eb; apply Z.ltb_ge in Et
    |apply Z.ltb_ge in Eb; apply Z.ltb_lt in Et
    |apply Z.ltb_ge in Eb; apply Z.ltb_ge in Et];
  match goal with
  | |- context [if ?e <=? ?s then _ else _] =>
      destruct (e <=? s) eqn:Ee; [apply Z.leb_le in Ee|apply Z.leb_gt in Ee]
  end; cbv zeta; cbn [crop_top crop_bottom crop_left crop_right mb_y mb_w mb_h];
  (split; [symmetry; first [apply Z.ltb_ge | apply Z.ltb_lt]; lia
          |intros Hok; try discriminate Hok;
           repeat split; lia]).
Qed.


Lemma witness_build_lengths : forall cll,
  fst (witness_build LENGTHS_TABLE_BITS cll NUM_CODE_LENGTH_CODES) <> 0 ->
  forall i, 0 <= value (snd (witness_build LENGTHS_TABLE_BITS cll NUM_CODE_LENGTH_CODES) i) < 19.
Proof. intros; cbn; lia. Qed.

Lemma ReadHuffmanCodeLengths_frame_witness :
  let '(ok, st, cl', br') :=
    ReadHuffmanCodeLengths witness_build VP8_STATUS_OK (fun _ => 0) 5 (fun _ => 0)
      (lbr_init [0; 0]) in
  forall q, cl' q = 0 \/ (0 <= q < 5 /\ 0 <= cl' q < 16).
Proof.
  pose proof (ReadHuffmanCodeLengths_frame witness_build VP8_STATUS_OK (fun _ => 0) 5
                (fun _ => 0) (lbr_init [0; 0]) (witness_build_lengths (fun _ => 0))) as T.
  exact T.
Defined.

Lemma ReadHuffmanCode_lengths_range_witness :
  let '(size, st, cl', tbl, br') :=
    ReadHuffmanCode witness_build 40 VP8_STATUS_OK (fun _ => 7) (lbr_init [0; 0; 0]) in
  forall q, 0 <= q < 40 -> 0 <= cl' q < 16.
Proof.
  pose proof (ReadHuffmanCode_lengths_range witness_build 40 VP8_STATUS_OK (fun _ => 7)
                (lbr_init [0; 0; 0]) witness_build_lengths) as T.
  exact T.
Defined.

Lemma ReadHuffmanCode_simple_witness :
  let '(size, st, cl', tbl, br') :=
    ReadHuffmanCode witness_build 256 VP8_STATUS_OK (fun _ => 7) (lbr_init [47; 64; 6]) in
  0 <= 5 < 256 /\ 0 <= 200 < 256 /\
  forall q, 0 <= q < 256 \/ q = 5 \/ q = 200 ->
    cl' q = if (q =? 5) || (q =? 200) then 1 else 0.
Proof.
  assert (E0 : VP8LReadBits (lbr_init [47; 64; 6]) 1 = (1, mkLBR [47; 64; 6] 1 false))
    by (vm_compute; reflexivity).
  assert (E1 : VP8LReadBits (mkLBR [47; 64; 6] 1 false) 1 = (1, mkLBR [47; 64; 6] 2 false))
    by (vm_compute; reflexivity).
  assert (E2 : VP8LReadBits (mkLBR [47; 64; 6] 2 false) 1 = (1, mkLBR [47; 64; 6] 3 false))
    by (vm_compute; reflexivity).
  assert (E3 : VP8LReadBits (mkLBR [47; 64; 6] 3 false) (if 1 =? 0 then 1 else 8)
               = (5, mkLBR [47; 64; 6] 11 false))
    by (vm_compute; reflexivity).
  assert (E4 : 200 = (if 1 + 1 =? 2 then fst (VP8LReadBits (mkLBR [47; 64; 6] 11 false) 8)
                      else 5))
    by (vm_compute; reflexivity).
  assert (Hsc : (1 : Z) <> 0) by discriminate.
  pose proof (ReadHuffmanCode_simple witness_build 256 VP8_STATUS_OK (fun _ => 7)
                (lbr_init [47; 64; 6])
                1 (mkLBR [47; 64; 6] 1 false) 1 (mkLBR [47; 64; 6] 2 false)
                1 (mkLBR [47; 64; 6] 3 false) 5 (mkLBR [47; 64; 6] 11 false) 200
                lbr_read_bits_lt E0 Hsc E1 E2 E3 E4) as T.
  exact T.
Defined.

(* ------------------------------------------------------------------------ *)
(** * ExtractAlphaRows: the rows it writes *)

Lemma extract_green_spec : forall n out dst src i q,
  extract_green out dst src i n q =
  if (dst + i <=? q) && (q <? dst + i + Z.of_nat n)
  then Z.land (Z.shiftr (src (q - dst)) 8) 0xff else out q.
Proof.
  induction n as [|n IH]; intros out dst src i q; cbn [extract_green].
  - destruct (dst + i <=? q) eqn:E1, (q <? dst + i + Z.of_nat 0) eqn:E2; cbn; try reflexivity.
    apply Z.leb_le in E1; apply Z.ltb_lt in E2; lia.
  - rewrite IH. unfold upd.
    destruct (dst + (i + 1) <=? q) eqn:E1, (q <? dst + (i + 1) + Z.of_nat n) eqn:E2,
             (dst + i <=? q) eqn:E3, (q <? dst + i + Z.of_nat (S n)) eqn:E4,
             (q =? dst + i) eqn:E5;
      cbn; try reflexivity;
      repeat match goal with
             | H : (_ <=? _) = _ |- _ => first [apply Z.leb_le in H | apply Z.leb_gt in H]
             | H : (_ <? _) = _ |- _ => first [apply Z.ltb_lt in H | apply Z.ltb_ge in H]
             | H : (_ =? _) = _ |- _ => first [apply Z.eqb_eq in H | apply Z.eqb_neq in H]
             end; try lia.
    replace (q - dst) with i by lia. reflexivity.
Qed.

(** ExtractAlphaRows does nothing when [row] is not past [last_row_].
    Otherwise it sets [last_row_] and [last_out_row_] to [row], writes only
    the output bytes of rows [[last_row_, row)], and sets each of them to
    the green channel [(argb >> 8) & 0xff] of the matching pixel of the
    inverse-transformed cache, a byte. *)
Lemma ExtractAlphaRows_rows : forall ApplyInverseTransforms
    last_row last_out_row io_width row output,
  let '(last_row', last_out_row', output') :=
    ExtractAlphaRows ApplyInverseTransforms last_row last_out_row io_width row output in
  (row <= last_row ->
     last_row' = last_row /\ last_out_row' = last_out_row /\ output' = output) /\
  (last_row < row ->
     last_row' = row /\ last_out_row' = row /\
     writes_within output output' (io_width * last_row) (io_width * row) /\
     forall i, 0 <= i < io_width * (row - last_row) ->
       let b := output' (io_width * last_row + i) in
       b = Z.land (Z.shiftr (ApplyInverseTransforms (row - last_row) last_row i) 8) 0xff /\
       0 <= b < 256).
Proof.
  intros AIT last_row last_out_row w row out. unfold ExtractAlphaRows.
  destruct (row - last_row <=? 0) eqn:E.
  - apply Z.leb_le in E. split; [intros _; repeat split|intros; lia].
  - apply Z.leb_gt in E. split; [intros; lia|intros _].
    split; [reflexivity|]. split; [reflexivity|]. split.
    + intros q Hq. rewrite extract_green_spec.
      destruct (w * last_row + 0 <=? q) eqn:E1,
               (q <? w * last_row + 0 + Z.of_nat (Z.to_nat (w * (row - last_row)))) eqn:E2;
        cbn; try reflexivity.
      apply Z.leb_le in E1; apply Z.ltb_lt in E2.
      destruct (Z.le_gt_cases 0 (w * (row - last_row))) as [Hp|Hn].
      * rewrite Z2Nat.id in E2 by exact Hp. nia.
      * assert (Z0 : Z.to_nat (w * (row - last_row)) = 0%nat) by lia. rewrite Z0 in E2. cbn in E2. lia.
    + intros i Hi. cbv zeta. rewrite extract_green_spec.
      rewrite Z2Nat.id by lia.
      destruct (w * last_row + 0 <=? w * last_row + i) eqn:E1,
               (w * last_row + i <? w * last_row + 0 + w * (row - last_row)) eqn:E2;
        [|apply Z.ltb_ge in E2; lia|apply Z.leb_gt in E1; lia|apply Z.leb_gt in E1; lia].
      cbn [andb].
      replace (w * last_row + i - w * last_row) with i by lia.
      change 0xff with (Z.ones 8). rewrite Z.land_ones by lia.
      split; [reflexivity|]. apply Z.mod_pos_bound. lia.
Qed.
